(** * Ring-oscillator hex network: topology, graph generator, enable
      synthesis and netlist verifier.

    A shallow embedding of the Python sources:
    - [planar.py], [11x11_imp/planar.py],
      [Generation_Visualisation/generate_graphs.py],
      [Generation_Visualisation/planar_graph_tool.py],
      [Generation_Visualisation/planar_graph_tool_with_testbench.py]
      (hex neighbour rule, graph generators, testbench writer);
    - [Generation_Visualisation/generate_hex_network.py] (netlist writer);
    - [Generation_Visualisation/verification.py] (netlist verifier).

    Python integers are unbounded and are modelled by [Z]; [r % 2] is
    Python's floor modulo, which is [Z.modulo] for the positive divisor 2.
    Python [str] values are modelled by [string] (characters U+0000 to
    U+00FF), [dict]s by [gmap], and the [set] of edges by [gset]. *)

From Stdlib Require Import ZArith Lia List Ascii String DecimalString Decimal DecimalNat.
From stdpp Require Import base decidable option list sorting gmap strings fin_maps fin_sets.

Local Open Scope Z_scope.

(** ** Hex grid topology *)

Module Hex.

Definition cell : Type := (Z * Z)%type.

(** The comprehension guard [0 <= rr < rows and 0 <= cc < cols]. *)
Definition in_grid (rows cols : Z) (p : cell) : bool :=
  (0 <=? p.1) && (p.1 <? rows) && (0 <=? p.2) && (p.2 <? cols).

(** [hex_neighbors] of planar.py (identical in the four other generator
    files). *)
Definition hex_neighbors (rows cols r c : Z) : list cell :=
  let cand :=
    if r mod 2 =? 0 then
      [ (r, c - 1); (r, c + 1);
        (r - 1, c - 1); (r - 1, c);
        (r + 1, c - 1); (r + 1, c) ]
    else
      [ (r, c - 1); (r, c + 1);
        (r - 1, c); (r - 1, c + 1);
        (r + 1, c); (r + 1, c + 1) ] in
  List.filter (in_grid rows cols) cand.

(** The nested [neighbors] of generate_hex_network.py; [rows] and [cols]
    are captured from the enclosing function. *)
Definition neighbors (rows cols : Z) (r c : Z) : list cell :=
  let cand :=
    if r mod 2 =? 0 then
      [ (r, c - 1); (r, c + 1);
        (r - 1, c - 1); (r - 1, c);
        (r + 1, c - 1); (r + 1, c) ]
    else
      [ (r, c - 1); (r, c + 1);
        (r - 1, c); (r - 1, c + 1);
        (r + 1, c); (r + 1, c + 1) ] in
  List.filter (in_grid rows cols) cand.

(** [expected_neighbors] of verification.py: the candidate lists are loop
    appended after the same bounds test. *)
Definition expected_neighbors (rows cols r c : Z) : list cell :=
  let cand :=
    if r mod 2 =? 0 then
      [ (r, c - 1); (r, c + 1);
        (r - 1, c); (r - 1, c + 1);
        (r + 1, c); (r + 1, c + 1) ]
    else
      [ (r, c - 1); (r, c + 1);
        (r - 1, c - 1); (r - 1, c);
        (r + 1, c - 1); (r + 1, c) ] in
  List.fold_left
    (fun nbrs p => if in_grid rows cols p then nbrs ++ [p] else nbrs)
    cand [].

(** [range(n)] for an integer [n]: empty when [n <= 0]. *)
Definition range (n : Z) : list Z :=
  List.map Z.of_nat (List.seq 0 (Z.to_nat n)).

(** Equality of the two neighbour lists as sets of cells. *)
Definition same_cells (l1 l2 : list cell) : Prop :=
  forall p, In p l1 <-> In p l2.

End Hex.


(** ** Python values, exceptions and the generator's monad *)

Module Py.

(** The exceptions the modelled code can raise.  [LoopBound] is not a
    Python exception: it marks a [while] loop of the model that used up
    its iteration budget. *)
Inductive exn : Set :=
  | ValueError | KeyError | IndexError | RecursionError | LoopBound.

Inductive result (A : Type) : Type :=
  | Ok (a : A)
  | Raise (e : exn).
Arguments Ok {A} a.
Arguments Raise {A} e.

(** [str(i)] for an index [i] of [range(num_nodes)]. *)
Definition str (i : nat) : string :=
  NilEmpty.string_of_uint (Nat.to_uint i).

(** [tuple(sorted((a, b)))]: [sorted] is stable and compares with [<]. *)
Definition sorted2 (a b : string) : string * string :=
  if String.ltb b a then (b, a) else (a, b).

(** [p in l] for a cell and a list of cells. *)
Definition cell_in (p : Hex.cell) (l : list Hex.cell) : bool :=
  bool_decide (p ∈ l).

(** [[(r, c) for r in range(rows) for c in range(cols)]]. *)
Definition all_cells (rows cols : Z) : list Hex.cell :=
  r ← Hex.range rows; c ← Hex.range cols; [(r, c)].

(** The ambient nondeterminism of a run: the [random] module and the
    iteration order of hashed sets.  The generator's results are
    functions of these; no property proved below depends on a particular
    choice. *)
Class World : Type := {
  rng : Type;
  (** [random.seed(s)] *)
  rng_seed : Z -> rng;
  (** [random.sample(population, k)] for [0 <= k <= len(population)] *)
  rng_sample : rng -> list Hex.cell -> nat -> list Hex.cell * rng;
  (** the index [random.choice] draws for a sequence of length [n] *)
  rng_below : rng -> nat -> nat * rng;
  (** [random.random() < p / 100] *)
  rng_random_lt : rng -> Z -> bool * rng;
  (** iteration order of a set of labels, and of the set of edges *)
  set_order : gset string -> list string;
  edge_order : gset (string * string) -> list (string * string);
  rng_sample_length g pop k :
    (k <= length pop)%nat -> length (rng_sample g pop k).1 = k;
  rng_sample_sub g pop k : (rng_sample g pop k).1 ⊆+ pop;
  rng_below_lt g n : (0 < n)%nat -> ((rng_below g n).1 < n)%nat;
  set_order_perm X : set_order X ≡ₚ elements X;
  edge_order_perm E : edge_order E ≡ₚ elements E
}.

Section Monad.
Context {W : World}.

(** The interpreter state a generator call reads and writes: the global
    [random] state and the function's mutable locals. *)
Record state : Type := State {
  st_rng : rng;
  st_edges : gset (string * string);
  st_degree : gmap string nat;
  st_remaining : gset string;
  st_visited : gset string;
  st_queue : list string
}.

Definition M (A : Type) : Type := state -> result A * state.

Definition ret {A} (a : A) : M A := fun s => (Ok a, s).
Definition raise {A} (e : exn) : M A := fun s => (Raise e, s).
Definition bind {A B} (m : M A) (k : A -> M B) : M B :=
  fun s => match m s with
           | (Ok a, s') => k a s'
           | (Raise e, s') => (Raise e, s')
           end.
Definition gets {A} (f : state -> A) : M A := fun s => (Ok (f s), s).
Definition modify (f : state -> state) : M unit := fun s => (Ok tt, f s).

End Monad.

Declare Scope py_scope.
Delimit Scope py_scope with py.
Notation "x <- m ;; k" := (bind m (fun x => k))
  (at level 100, m at next level, right associativity) : py_scope.
Notation "m ;;; k" := (bind m (fun _ => k))
  (at level 100, right associativity) : py_scope.

Section Prims.
Context {W : World}.
Local Open Scope py_scope.

Definition set_rng (g : rng) (s : state) : state :=
  State g (st_edges s) (st_degree s) (st_remaining s) (st_visited s) (st_queue s).
Definition set_edges (E : gset (string * string)) (s : state) : state :=
  State (st_rng s) E (st_degree s) (st_remaining s) (st_visited s) (st_queue s).
Definition set_degree (d : gmap string nat) (s : state) : state :=
  State (st_rng s) (st_edges s) d (st_remaining s) (st_visited s) (st_queue s).
Definition set_remaining (R : gset string) (s : state) : state :=
  State (st_rng s) (st_edges s) (st_degree s) R (st_visited s) (st_queue s).
Definition set_visited (V : gset string) (s : state) : state :=
  State (st_rng s) (st_edges s) (st_degree s) (st_remaining s) V (st_queue s).
Definition set_queue (q : list string) (s : state) : state :=
  State (st_rng s) (st_edges s) (st_degree s) (st_remaining s) (st_visited s) q.

(** [if seed is not None: random.seed(seed)] *)
Definition reseed (seed : option Z) : M unit :=
  match seed with
  | Some sd => modify (set_rng (rng_seed sd))
  | None => ret tt
  end.

(** [random.sample(population, k)]: raises [ValueError] for a negative or
    too large [k]. *)
Definition py_sample (pop : list Hex.cell) (k : Z) : M (list Hex.cell) :=
  if (k <? 0) || (Z.of_nat (length pop) <? k) then raise ValueError
  else fun s =>
    let '(l, g) := rng_sample (st_rng s) pop (Z.to_nat k) in
    (Ok l, set_rng g s).

(** [random.choice(seq)]: raises [IndexError] on an empty sequence. *)
Definition py_choice (l : list string) : M string :=
  match l with
  | [] => raise IndexError
  | _ => fun s =>
    let '(i, g) := rng_below (st_rng s) (length l) in
    match l !! i with
    | Some x => (Ok x, set_rng g s)
    | None => (Raise IndexError, set_rng g s)
    end
  end.

(** [random.random() < p / 100] *)
Definition py_random_lt (p : Z) : M bool :=
  fun s => let '(b, g) := rng_random_lt (st_rng s) p in (Ok b, set_rng g s).

(** [d[k]] for a dictionary: [KeyError] when the key is missing. *)
Definition dict_get {K V} `{Countable K} (d : gmap K V) (k : K) : M V :=
  match d !! k with
  | Some v => ret v
  | None => raise KeyError
  end.

(** [for x in l: body(x)] *)
Fixpoint for_each {A} (l : list A) (body : A -> M unit) : M unit :=
  match l with
  | [] => ret tt
  | x :: l' => body x ;;; for_each l' body
  end.

(** [[x for x in l if test(x)]] with a test that reads the state. *)
Fixpoint filter_m {A} (test : A -> M bool) (l : list A) : M (list A) :=
  match l with
  | [] => ret []
  | x :: l' =>
    b <- test x ;;
    r <- filter_m test l' ;;
    ret (if b : bool then x :: r else r)
  end.

End Prims.

End Py.

(** ** The graph generators *)

Module Gen.
Import Hex Py.
Local Open Scope py_scope.

(** What a generator returns: [(nodes, list(edges), pos_map)]. *)
Record graph : Type := Graph {
  g_nodes : list string;
  g_edges : list (string * string);
  g_pos_map : gmap string cell
}.

(** The knobs in which the restart generators differ: the capacity test
    ([>] or [>=]) and the densification probability in percent. *)
Record config : Type := Config {
  strict_capacity : bool;
  edge_percent : Z
}.

(** planar.py *)
Definition cfg_planar : config := Config false 30.
(** generate_graphs.py, planar_graph_tool.py and
    planar_graph_tool_with_testbench.py *)
Definition cfg_generate_graphs : config := Config true 35.
Definition cfg_planar_graph_tool : config := Config true 35.
Definition cfg_planar_graph_tool_with_testbench : config := Config true 35.

Definition capacity_exceeded (cfg : config) (num_nodes max_cells : Z) : bool :=
  if strict_capacity cfg then max_cells <=? num_nodes
  else max_cells <? num_nodes.

Definition maxdeg : nat := 6.

(** The number of edges of a list that touch the node [n]. *)
Definition incident (n : string) (e : string * string) : Prop :=
  e.1 = n \/ e.2 = n.

#[export] Instance incident_dec n e : Decision (incident n e).
Proof. unfold incident. apply _. Defined.

Definition incident_count (n : string) (l : list (string * string)) : nat :=
  length (filter (incident n) l).

Section Generators.
Context {W : World}.
Variables (rows cols : Z).

(** The closure [add_edge(a, b)] over [edges] and [degree]. *)
Definition add_edge (a b : string) : M bool :=
  if decide (a = b) then ret false else
  deg <- gets st_degree ;;
  da <- dict_get deg a ;;
  full <- (if (maxdeg <=? da)%nat then ret true
           else db <- dict_get deg b ;; ret (maxdeg <=? db)%nat) ;;
  if full : bool then ret false else
  let e := sorted2 a b in
  E <- gets st_edges ;;
  if decide (e ∈ E) then ret false else
  modify (set_edges (E ∪ {[e]})) ;;;
  da <- dict_get deg a ;;
  modify (fun s => set_degree (<[a := S da]> (st_degree s)) s) ;;;
  deg' <- gets st_degree ;;
  db <- dict_get deg' b ;;
  modify (fun s => set_degree (<[b := S db]> (st_degree s)) s) ;;;
  ret true.

(** [{nodes[i]: chosen[i] for i in range(num_nodes)}] *)
Definition make_pos_map (nodes : list string) (chosen : list cell)
  : gmap string cell :=
  foldl (fun m kv => <[kv.1 := kv.2]> m) ∅ (zip nodes chosen).

(** [{n: 0 for n in nodes}] *)
Definition make_degree (nodes : list string) : gmap string nat :=
  foldl (fun m n => <[n := 0%nat]> m) ∅ nodes.

(** [s.pop()] on the set of labels still to place: some element, here the
    first in the set's iteration order; [KeyError] on the empty set. *)
Definition pop_remaining : M string :=
  R <- gets st_remaining ;;
  match set_order R with
  | [] => raise KeyError
  | x :: _ => modify (set_remaining (R ∖ {[x]})) ;;; ret x
  end.

Definition visited_add (w : string) : M unit :=
  modify (fun s => set_visited (st_visited s ∪ {[w]}) s).

(** [(r, c) in hex_neighbors(rows, cols, rv, cv)] with [(rv, cv) =
    pos_map[v]]. *)
Definition adjacent_to (pos_map : gmap string cell) (p : cell) (v : string)
  : M bool :=
  q <- dict_get pos_map v ;;
  ret (cell_in p (hex_neighbors rows cols q.1 q.2)).

(** One iteration of the spanning [while unvisited:] loop of the restart
    generators; [false] is the restart request. *)
Definition span_step (pos_map : gmap string cell) : M bool :=
  nxt <- pop_remaining ;;
  p <- dict_get pos_map nxt ;;
  V <- gets st_visited ;;
  parents <- filter_m (adjacent_to pos_map p) (set_order V) ;;
  match parents with
  | [] => ret false
  | _ =>
    parent <- py_choice parents ;;
    add_edge parent nxt ;;;
    visited_add nxt ;;;
    ret true
  end.

Fixpoint span_loop (pos_map : gmap string cell) (fuel : nat) : M bool :=
  R <- gets st_remaining ;;
  if decide (R = ∅) then ret true else
  match fuel with
  | O => raise LoopBound
  | S fuel' =>
    ok <- span_step pos_map ;;
    if ok : bool then span_loop pos_map fuel' else ret false
  end.

(** The densification loops, shared by all generators. *)
Definition densify (percent : Z) (nodes : list string)
  (pos_map : gmap string cell) : M unit :=
  for_each nodes (fun u =>
    pu <- dict_get pos_map u ;;
    for_each nodes (fun v =>
      if decide (u = v) then ret tt else
      pv <- dict_get pos_map v ;;
      if cell_in pv (hex_neighbors rows cols pu.1 pu.2) then
        b <- py_random_lt percent ;;
        if b : bool then add_edge u v ;;; ret tt else ret tt
      else ret tt)).

(** The common prologue: seeding, the capacity test, the placement and the
    fresh locals.  Returns [nodes] and [pos_map]. *)
Definition prologue (cfg : config) (num_nodes : Z) (seed : option Z)
  : M (list string * gmap string cell) :=
  reseed seed ;;;
  let max_cells := rows * cols in
  if capacity_exceeded cfg num_nodes max_cells then raise ValueError else
  chosen <- py_sample (all_cells rows cols) num_nodes ;;
  let nodes := str <$> seq 0 (Z.to_nat num_nodes) in
  let pos_map := make_pos_map nodes chosen in
  modify (fun s => State (st_rng s) ∅ (make_degree nodes)
                         (list_to_set nodes) ∅ []) ;;;
  ret (nodes, pos_map).

Definition finish (nodes : list string) (pos_map : gmap string cell)
  : M graph :=
  E <- gets st_edges ;;
  ret (Graph nodes (edge_order E) pos_map).

(** [generate_planar_graph] of planar.py, generate_graphs.py,
    planar_graph_tool.py and planar_graph_tool_with_testbench.py.
    [depth] is the number of nested calls the interpreter still allows:
    Python raises [RecursionError] beyond its recursion limit. *)
Fixpoint generate_planar_graph (cfg : config) (depth : nat)
  (num_nodes : Z) (seed : option Z) : M graph :=
  match depth with
  | O => raise RecursionError
  | S depth' =>
    np <- prologue cfg num_nodes seed ;;
    let nodes := np.1 in
    let pos_map := np.2 in
    root <- pop_remaining ;;
    visited_add root ;;;
    ok <- span_loop pos_map (length nodes) ;;
    if ok : bool then
      densify (edge_percent cfg) nodes pos_map ;;;
      finish nodes pos_map
    else generate_planar_graph cfg depth' num_nodes seed
  end.

(** *** The safe generator of 11x11_imp/planar.py *)

(** [visited.add(w); remaining.remove(w); queue.append(w)] *)
Definition mark_visited (w : string) : M unit :=
  visited_add w ;;;
  R <- gets st_remaining ;;
  (if decide (w ∈ R) then modify (set_remaining (R ∖ {[w]}))
   else raise KeyError) ;;;
  modify (fun s => set_queue (st_queue s ++ [w]) s).

(** The breadth-first expansion around [u]. *)
Definition bfs_expand (pos_map : gmap string cell) (u : string) : M unit :=
  pu <- dict_get pos_map u ;;
  let hex_adj := hex_neighbors rows cols pu.1 pu.2 in
  R <- gets st_remaining ;;
  neighbors <- filter_m (fun w => pw <- dict_get pos_map w ;;
                                  ret (cell_in pw hex_adj)) (set_order R) ;;
  for_each neighbors (fun w =>
    ok <- add_edge u w ;;
    if ok : bool then mark_visited w else ret tt).

(** The [for w in list(remaining): ... break] loop of the stuck branch;
    returns [fixed]. *)
Fixpoint try_fix (pos_map : gmap string cell) (p : string) (pp : cell)
  (ws : list string) : M bool :=
  match ws with
  | [] => ret false
  | w :: ws' =>
    pw <- dict_get pos_map w ;;
    if cell_in pw (hex_neighbors rows cols pp.1 pp.2) then
      ok <- add_edge p w ;;
      if ok : bool then mark_visited w ;;; ret true
      else try_fix pos_map p pp ws'
    else try_fix pos_map p pp ws'
  end.

(** [min(visited, key=...)]: the first element of least key in iteration
    order; [ValueError] on an empty set. *)
Definition sq_dist (p q : cell) : Z := (p.1 - q.1) ^ 2 + (p.2 - q.2) ^ 2.

Fixpoint min_by (pos_map : gmap string cell) (pw : cell)
  (best : string * Z) (vs : list string) : M string :=
  match vs with
  | [] => ret best.1
  | v :: vs' =>
    pv <- dict_get pos_map v ;;
    let k := sq_dist pv pw in
    min_by pos_map pw (if k <? best.2 then (v, k) else best) vs'
  end.

Definition nearest_visited (pos_map : gmap string cell) (pw : cell)
  : M string :=
  V <- gets st_visited ;;
  match set_order V with
  | [] => raise ValueError
  | v :: vs =>
    pv <- dict_get pos_map v ;;
    min_by pos_map pw (v, sq_dist pv pw) vs
  end.

(** The branch [if not queue and remaining:]. *)
Definition stuck_repair (pos_map : gmap string cell) : M unit :=
  q <- gets st_queue ;;
  R <- gets st_remaining ;;
  match q with
  | _ :: _ => ret tt
  | [] =>
    if decide (R = ∅) then ret tt else
    V <- gets st_visited ;;
    deg <- gets st_degree ;;
    parents <- filter_m (fun p => d <- dict_get deg p ;;
                                  ret (d <? maxdeg)%nat) (set_order V) ;;
    p <- py_choice parents ;;
    pp <- dict_get pos_map p ;;
    fixed <- try_fix pos_map p pp (set_order R) ;;
    if fixed : bool then ret tt else
    R' <- gets st_remaining ;;
    match set_order R' with
    | [] => raise IndexError
    | w :: _ =>
      pw <- dict_get pos_map w ;;
      best_p <- nearest_visited pos_map pw ;;
      add_edge best_p w ;;;
      mark_visited w
    end
  end.

Fixpoint safe_loop (pos_map : gmap string cell) (fuel : nat) : M unit :=
  R <- gets st_remaining ;;
  if decide (R = ∅) then ret tt else
  match fuel with
  | O => raise LoopBound
  | S fuel' =>
    q <- gets st_queue ;;
    match q with
    | [] => raise IndexError
    | u :: q' =>
      modify (set_queue q') ;;;
      bfs_expand pos_map u ;;;
      stuck_repair pos_map ;;;
      safe_loop pos_map fuel'
    end
  end.

(** [generate_planar_graph_safe]; every pass through the loop either
    shortens the queue or places a node, so [2 * num_nodes] passes are
    more than the loop can make. *)
Definition generate_planar_graph_safe (num_nodes : Z) (seed : option Z)
  : M graph :=
  np <- prologue cfg_planar num_nodes seed ;;
  let nodes := np.1 in
  let pos_map := np.2 in
  root <- pop_remaining ;;
  modify (fun s => set_queue [root] (set_visited {[root]} s)) ;;;
  safe_loop pos_map (2 * length nodes) ;;;
  densify 30 nodes pos_map ;;;
  finish nodes pos_map.

End Generators.

(** *** Connectivity of a returned graph *)

(** The labels joined to [u] by an edge. *)
Definition adjacent_nodes (edges : list (string * string)) (u : string)
  : list string :=
  flat_map (fun e => if decide (e.1 = u) then [e.2]
                     else if decide (e.2 = u) then [e.1] else []) edges.

(** A breadth-first traversal: [queue] holds the visited nodes still to
    expand.  Every pass expands one node, so [fuel] passes with [fuel] the
    number of nodes complete the traversal. *)
Fixpoint bfs (edges : list (string * string)) (fuel : nat)
  (queue visited : list string) : list string :=
  match fuel with
  | O => visited
  | S fuel' =>
    match queue with
    | [] => visited
    | u :: queue' =>
      let new := filter (fun v => v ∉ visited)
                        (remove_dups (adjacent_nodes edges u)) in
      bfs edges fuel' (queue' ++ new) (visited ++ new)
    end
  end.

Definition bfs_from (G : graph) (start : string) : list string :=
  bfs (g_edges G) (length (g_nodes G)) [start] [start].

(** A traversal from any node visits every node. *)
Definition connected (G : graph) : Prop :=
  forall u v, u ∈ g_nodes G -> v ∈ g_nodes G -> v ∈ bfs_from G u.

(** The cells of both endpoints of every edge list each other as hex
    neighbours. *)
Definition adjacency_fidelity (rows cols : Z) (G : graph) : Prop :=
  forall a b pa pb,
    (a, b) ∈ g_edges G ->
    g_pos_map G !! a = Some pa -> g_pos_map G !! b = Some pb ->
    pb ∈ Hex.hex_neighbors rows cols pa.1 pa.2 /\
    pa ∈ Hex.hex_neighbors rows cols pb.1 pb.2.

End Gen.

(** ** The enable synthesizer: [write_testbench] *)

Module Synth.
Import Hex Py.

(** The three testbench writers. *)
Inductive variant : Set :=
  | Planar                 (* planar.py *)
  | Planar11               (* 11x11_imp/planar.py *)
  | ToolWithTestbench.     (* planar_graph_tool_with_testbench.py *)

(** A coupler site [(r1, c1, r2, c2)], kept as a pair of cells. *)
Definition site : Type := (cell * cell)%type.

(** Tuples of integers compare lexicographically. *)
Definition site_le (a b : site) : Prop :=
  let ka := [a.1.1; a.1.2; a.2.1; a.2.2] in
  let kb := [b.1.1; b.1.2; b.2.1; b.2.2] in
  (fix le (x y : list Z) : Prop :=
     match x, y with
     | u :: x', v :: y' => u < v \/ (u = v /\ le x' y')
     | _, _ => True
     end) ka kb.

#[export] Instance site_le_dec a b : Decision (site_le a b).
Proof. unfold site_le. simpl. apply _. Defined.

(** [sorted(coupler_pairs)] *)
Definition sorted_sites (l : list site) : list site := merge_sort site_le l.

(** The canonical enumeration:
    [for r.. for c.. for rr, cc in hex_neighbors(rows, cols, r, c):
       if (rr, cc, r, c) not in coupler_pairs:
           coupler_pairs.append((r, c, rr, cc))] *)
Definition coupler_pairs (rows cols : Z) : list site :=
  foldl (fun acc p =>
           foldl (fun acc q =>
                    if bool_decide ((q, p) ∈ acc) then acc
                    else acc ++ [(p, q)])
                 acc (hex_neighbors rows cols p.1 p.2))
        [] (all_cells rows cols).

(** [rev = {pos_map[n]: n for n in nodes}]: a later node overwrites an
    earlier one on the same cell; [KeyError] for a node without
    position. *)
Fixpoint make_rev (pos_map : gmap string cell) (nodes : list string)
  (acc : gmap cell string) : result (gmap cell string) :=
  match nodes with
  | [] => Ok acc
  | n :: nodes' =>
    match pos_map !! n with
    | None => Raise KeyError
    | Some p => make_rev pos_map nodes' (<[p := n]> acc)
    end
  end.

(** [edge_set = set(tuple(sorted(e)) for e in edges)] *)
Definition edge_set (edges : list (string * string)) : gset (string * string) :=
  list_to_set ((fun e => sorted2 e.1 e.2) <$> edges).

(** Truth value of the result of [rev.get(cell)]: [None] and the empty
    string are false, every other string is true. *)
Definition truthy (o : option string) : bool :=
  match o with
  | Some (String _ _) => true
  | _ => false
  end.

(** [1 if u and v and tuple(sorted((u, v))) in edge_set else 0] *)
Definition on_truthy (E : gset (string * string)) (u v : option string) : Z :=
  if truthy u then
    if truthy v then
      match u, v with
      | Some a, Some b => if bool_decide (sorted2 a b ∈ E) then 1 else 0
      | _, _ => 0
      end
    else 0
  else 0.

(** [on = 0; if u is not None and v is not None:
       if tuple(sorted((u, v))) in edge_set: on = 1] *)
Definition on_not_none (E : gset (string * string)) (u v : option string) : Z :=
  match u, v with
  | Some a, Some b => if bool_decide (sorted2 a b ∈ E) then 1 else 0
  | _, _ => 0
  end.

Definition pair_enable (w : variant) : gset (string * string) ->
    option string -> option string -> Z :=
  match w with
  | Planar | Planar11 => on_truthy
  | ToolWithTestbench => on_not_none
  end.

(** The value written for [EN_RO_r_c]. *)
Definition cell_enable (w : variant) (nodes : list string)
  (rev : gmap cell string) (p : cell) : Z :=
  match w with
  | Planar => 1
  | ToolWithTestbench => 1             (* val = 1 #if (r, c) in active else 0 *)
  | Planar11 =>
    (* node = rev.get((r, c)); val = 1 if node in nodes else 0 *)
    match rev !! p with
    | Some n => if bool_decide (n ∈ nodes) then 1 else 0
    | None => 0
    end
  end.

(** The two tables of enable sources a testbench holds: one line per grid
    cell and one per coupler site, in file order.  The function builds
    [rev] first, then opens the output file and writes the lines; opening
    and writing the file are not modelled. *)
Definition write_testbench (w : variant) (rows cols : Z)
  (nodes : list string) (edges : list (string * string))
  (pos_map : gmap string cell)
  : result (list (cell * Z) * list (site * Z)) :=
  match make_rev pos_map nodes ∅ with
  | Raise e => Raise e
  | Ok rev =>
    let E := edge_set edges in
    Ok ((fun p => (p, cell_enable w nodes rev p)) <$> all_cells rows cols,
        (fun q => (q, pair_enable w E (rev !! q.1) (rev !! q.2)))
          <$> sorted_sites (coupler_pairs rows cols))
  end.

(** A completed graph as the generators build it: labels [str(0)],
    [str(1)], ..., each with a cell, no cell used twice. *)
Record completed (nodes : list string) (pos_map : gmap string cell) : Prop := {
  completed_labels : exists n : nat, nodes = str <$> seq 0 n;
  completed_placed : forall a, a ∈ nodes -> is_Some (pos_map !! a);
  completed_distinct : forall a b p,
    a ∈ nodes -> b ∈ nodes ->
    pos_map !! a = Some p -> pos_map !! b = Some p -> a = b
}.

(** Some node of the graph sits on the cell. *)
Definition occupied (nodes : list string) (pos_map : gmap string cell)
  (p : cell) : Prop :=
  exists a, a ∈ nodes /\ pos_map !! a = Some p.

(** Both cells hold nodes, and an edge joins their labels. *)
Definition coupled (nodes : list string) (edges : list (string * string))
  (pos_map : gmap string cell) (q : site) : Prop :=
  exists a b, a ∈ nodes /\ b ∈ nodes /\
    pos_map !! a = Some q.1 /\ pos_map !! b = Some q.2 /\
    ((a, b) ∈ edges \/ (b, a) ∈ edges).

End Synth.

(** ** The netlist verifier: line parsers of [verification.py] *)

Module Verifier.
Import Py.

Local Open Scope string_scope.

(** Lines are modelled as strings of the characters U+0000 to U+00FF; the
    white space of [str.split()] in that range is 9..13, 28..32, U+0085
    and U+00A0. *)
Definition is_space (a : ascii) : bool :=
  let n := nat_of_ascii a in
  (Nat.leb 9 n && Nat.leb n 13) || (Nat.leb 28 n && Nat.leb n 32)
  || Nat.eqb n 133 || Nat.eqb n 160.

(** [\d] on these characters: the decimal digits 0 to 9. *)
Definition is_digit (a : ascii) : bool :=
  let n := nat_of_ascii a in
  Nat.leb 48 n && Nat.leb n 57.

(** [pat in s] *)
Fixpoint contains (pat s : string) : bool :=
  String.prefix pat s ||
  match s with
  | EmptyString => false
  | String _ s' => contains pat s'
  end.

Definition flush (cur : string) : list string :=
  match cur with
  | EmptyString => []
  | _ => [cur]
  end.

Fixpoint split_from (cur s : string) : list string :=
  match s with
  | EmptyString => flush cur
  | String a s' =>
    if is_space a then flush cur ++ split_from EmptyString s'
    else split_from (cur ++ String a EmptyString) s'
  end.

(** [s.split()]: the maximal runs of characters other than white space. *)
Definition split (s : string) : list string := split_from EmptyString s.

(** A literal piece of a pattern: the rest of [s] after [pat]. *)
Fixpoint literal (pat s : string) : option string :=
  match pat, s with
  | EmptyString, _ => Some s
  | String a pat', String b s' =>
    if Ascii.eqb a b then literal pat' s' else None
  | String _ _, EmptyString => None
  end.

(** The longest run of digits at the head of [s], and the rest. *)
Fixpoint digit_run (s : string) : string * string :=
  match s with
  | String a s' =>
    if is_digit a
    then let '(ds, rest) := digit_run s' in (String a ds, rest)
    else (EmptyString, s)
  | EmptyString => (EmptyString, EmptyString)
  end.

(** The group [(\d+)]: the longest run of digits, at least one (a shorter
    run cannot be followed by what the patterns below ask next), and the
    rest of the string. *)
Definition group (s : string) : option (string * string) :=
  match digit_run s with
  | (EmptyString, _) => None
  | (ds, rest) => Some (ds, rest)
  end.

(** The value of a run of digits. *)
Fixpoint value (acc : Z) (ds : string) : Z :=
  match ds with
  | String a ds' => value (10 * acc + (Z.of_nat (nat_of_ascii a) - 48)) ds'
  | EmptyString => acc
  end.

(** [sys.get_int_max_str_digits()] of CPython 3.11. *)
Definition max_str_digits : nat := 4300.

(** [int(ds)] for a run of digits: [ValueError] beyond the limit of
    digits, leading zeros included. *)
Definition py_int (ds : string) : result Z :=
  if Nat.ltb max_str_digits (String.length ds) then Raise ValueError
  else Ok (value 0 ds).

(** [re.match(r"XRO_(\d+)_(\d+)", inst)]: the two groups. *)
Definition match_XRO (inst : string) : option (string * string) :=
  s ← literal "XRO_" inst;
  r ← group s;
  s ← literal "_" r.2;
  c ← group s;
  Some (r.1, c.1).

(** [re.match(r"XCPL_(\d+)_(\d+)__(\d+)_(\d+)", inst)]: the four
    groups. *)
Definition match_XCPL (inst : string)
  : option (string * string * string * string) :=
  s ← literal "XCPL_" inst;
  r1 ← group s;
  s ← literal "_" r1.2;
  c1 ← group s;
  s ← literal "__" c1.2;
  r2 ← group s;
  s ← literal "_" r2.2;
  c2 ← group s;
  Some (r1.1, c1.1, r2.1, c2.1).

(** [tokens[i]] *)
Definition item (tokens : list string) (i : nat) : result string :=
  match tokens !! i with
  | Some t => Ok t
  | None => Raise IndexError
  end.

Definition parse_ring_instance (line : string)
  : result (option (Z * Z * list string * string)) :=
  if negb (contains "RING_OSC" line) then Ok None
  else
    let tokens := split line in
    match item tokens 0 with
    | Raise e => Raise e
    | Ok inst =>
      match match_XRO inst with
      | None => Ok None
      | Some (gr, gc) =>
        (* r, c = map(int, m.groups()) *)
        match py_int gr with
        | Raise e => Raise e
        | Ok r =>
          match py_int gc with
          | Raise e => Raise e
          | Ok c =>
            let nodes := take 7 (drop 1 tokens) in      (* tokens[1:8] *)
            match item tokens 8 with
            | Raise e => Raise e
            | Ok enable => Ok (Some (r, c, nodes, enable))
            end
          end
        end
      end
    end.

Definition parse_coupler_instance (line : string)
  : result (option (Z * Z * Z * Z * string * string * string)) :=
  if negb (contains "COUPLING" line) then Ok None
  else
    let tokens := split line in
    match item tokens 0 with
    | Raise e => Raise e
    | Ok inst =>
      match match_XCPL inst with
      | None => Ok None
      | Some (g1, g2, g3, g4) =>
        (* r1, c1, r2, c2 = map(int, m.groups()) *)
        match py_int g1 with
        | Raise e => Raise e
        | Ok r1 =>
        match py_int g2 with
        | Raise e => Raise e
        | Ok c1 =>
        match py_int g3 with
        | Raise e => Raise e
        | Ok r2 =>
        match py_int g4 with
        | Raise e => Raise e
        | Ok c2 =>
          match item tokens 1 with
          | Raise e => Raise e
          | Ok enable =>
            match item tokens 2 with
            | Raise e => Raise e
            | Ok nodeA =>
              match item tokens 3 with
              | Raise e => Raise e
              | Ok nodeB => Ok (Some (r1, c1, r2, c2, enable, nodeA, nodeB))
              end
            end
          end
        end end end end
      end
    end.

End Verifier.

(** ** The netlist writer: [generate_hex_network.py] *)

Module Netlist.
Import Hex Py Synth.

Local Open Scope string_scope.

(** The line feed and the double quote. *)
Definition nl : string := String "010"%char EmptyString.
Definition dq : string := String "034"%char EmptyString.

(** [f"{z}"] for an integer: [str(z)].  CPython refuses to print an
    integer of more than 4300 digits; the results below that read a
    printed number back ask for a numeral within that limit. *)
Definition fmt (z : Z) : string :=
  if (z <? 0)%Z then "-" ++ str (Z.to_nat (- z)) else str (Z.to_nat z).

(** [sep.join(l)] *)
Definition join (sep : string) (l : list string) : string :=
  String.concat sep l.

Definition node_name (r c pin : Z) : string :=
  "N_" ++ fmt r ++ "_" ++ fmt c ++ "_" ++ fmt pin.

Definition enable_name_r (r c : Z) : string :=
  "EN_RO_" ++ fmt r ++ "_" ++ fmt c.

Definition enable_name_c (r1 c1 r2 c2 : Z) : string :=
  "EN_C_" ++ fmt r1 ++ "_" ++ fmt c1 ++ "__" ++ fmt r2 ++ "_" ++ fmt c2.

(** The set [coupling_pairs]:
    [for r.. for c.. for (rr, cc) in neighbors(r, c):
       if (rr, cc, r, c) not in coupling_pairs:
           coupling_pairs.add((r, c, rr, cc))] *)
Definition coupling_pairs (rows cols : Z) : gset site :=
  foldl (fun S p =>
           foldl (fun S q =>
                    if bool_decide ((q, p) ∈ S) then S
                    else S ∪ {[(p, q)]})
                 S (neighbors rows cols p.1 p.2))
        ∅ (all_cells rows cols).

(** [sorted(coupling_pairs)]; the result of sorting does not depend on
    the order in which the set is iterated. *)
Definition sorted_pairs (rows cols : Z) : list site :=
  sorted_sites (elements (coupling_pairs rows cols)).

Definition ro_enables (rows cols : Z) : list string :=
  (fun p : cell => enable_name_r p.1 p.2) <$> all_cells rows cols.

Definition coup_enables (rows cols : Z) : list string :=
  (fun q : site => enable_name_c q.1.1 q.1.2 q.2.1 q.2.2)
    <$> sorted_pairs rows cols.

Definition probe_ports (rows cols : Z) : list string :=
  (fun p : cell => node_name p.1 p.2 1) <$> all_cells rows cols.

(** [ports = ro_enables + coup_enables + probe_ports + ["vdd", "gnd"]] *)
Definition ports (rows cols : Z) : list string :=
  ro_enables rows cols ++ coup_enables rows cols ++ probe_ports rows cols
    ++ ["vdd"; "gnd"].

(** [f".subckt {network_name} " + " ".join(ports)] *)
Definition header (rows cols : Z) (network_name : string) : string :=
  ".subckt " ++ network_name ++ " " ++ join " " (ports rows cols).

(** [f"XRO_{r}_{c} {nodes} {enable_name_r(r,c)} vdd gnd RING_OSC"] with
    [nodes = " ".join(node_name(r, c, pin) for pin in range(1, 8))] *)
Definition ring_line (p : cell) : string :=
  let nodes := join " " (node_name p.1 p.2 <$> (Z.of_nat <$> seq 1 7)) in
  "XRO_" ++ fmt p.1 ++ "_" ++ fmt p.2 ++ " " ++ nodes ++ " "
    ++ enable_name_r p.1 p.2 ++ " vdd gnd RING_OSC".

(** [f"XCPL_{r1}_{c1}__{r2}_{c2} {en} {nodeA} {nodeB} vdd gnd COUPLING"] *)
Definition coupler_line (q : site) : string :=
  let en := enable_name_c q.1.1 q.1.2 q.2.1 q.2.2 in
  let nodeA := node_name q.1.1 q.1.2 1 in
  let nodeB := node_name q.2.1 q.2.2 3 in
  "XCPL_" ++ fmt q.1.1 ++ "_" ++ fmt q.1.2 ++ "__" ++ fmt q.2.1 ++ "_"
    ++ fmt q.2.2 ++ " " ++ en ++ " " ++ nodeA ++ " " ++ nodeB
    ++ " vdd gnd COUPLING".

Definition include (file : string) : string :=
  ".include " ++ dq ++ file ++ dq.

(** The list [lines] at the end of [generate_hex_network]. *)
Definition netlist_lines (rows cols : Z) (network_name : string)
  : list string :=
  [ include "ptm_45nm_lp.l"; include "inv.subckt"; include "nand.subckt";
    include "ring_osc.subckt"; include "coupling.subckt"; "" ]
  ++ [ header rows cols network_name; "" ]
  ++ (ring_line <$> all_cells rows cols)
  ++ [ "" ]
  ++ (coupler_line <$> sorted_pairs rows cols)
  ++ [ nl ++ ".ends " ++ network_name ++ nl ].

(** [generate_hex_network(rows, cols, network_name)]: the netlist text. *)
Definition generate_hex_network (rows cols : Z) (network_name : string)
  : string :=
  join nl (netlist_lines rows cols network_name).

End Netlist.

(** ** The text of a testbench: names and the instance line *)

Module Bench.
Import Hex Py Synth.

Local Open Scope string_scope.

Definition en_ro (r c : Z) : string :=
  "EN_RO_" ++ Netlist.fmt r ++ "_" ++ Netlist.fmt c.

Definition en_c (r1 c1 r2 c2 : Z) : string :=
  "EN_C_" ++ Netlist.fmt r1 ++ "_" ++ Netlist.fmt c1 ++ "__"
    ++ Netlist.fmt r2 ++ "_" ++ Netlist.fmt c2.

Definition probe_node (r c : Z) : string :=
  "N_" ++ Netlist.fmt r ++ "_" ++ Netlist.fmt c ++ "_1".

Definition ro_en (rows cols : Z) : list string :=
  (fun p : cell => en_ro p.1 p.2) <$> all_cells rows cols.

Definition coupler_en (rows cols : Z) : list string :=
  (fun q : site => en_c q.1.1 q.1.2 q.2.1 q.2.2)
    <$> sorted_sites (coupler_pairs rows cols).

Definition probe_ports (rows cols : Z) : list string :=
  (fun p : cell => probe_node p.1 p.2) <$> all_cells rows cols.

(** The text written for the instance [Xdut], up to the two line feeds
    that end it. *)
Definition xdut_line (w : variant) (rows cols : Z) : string :=
  match w with
  | Planar =>
    (* f.write("Xdut "); f.write(" ".join(ro_en) + " ");
       f.write(" ".join(coupler_en) + " ");
       f.write(" ".join(probe_ports));
       f.write(" vdd gnd RING_OSC_NETWORK\n\n") *)
    "Xdut " ++ (Netlist.join " " (ro_en rows cols) ++ " ")
      ++ (Netlist.join " " (coupler_en rows cols) ++ " ")
      ++ Netlist.join " " (probe_ports rows cols)
      ++ " vdd gnd RING_OSC_NETWORK"
  | Planar11 =>
    (* f.write("Xdut ");
       f.write(" ".join(all_ro_en + all_coupler_en + probe_ports));
       f.write(" vdd gnd RING_OSC_NETWORK\n\n") *)
    "Xdut " ++ Netlist.join " " (ro_en rows cols ++ coupler_en rows cols
                                   ++ probe_ports rows cols)
      ++ " vdd gnd RING_OSC_NETWORK"
  | ToolWithTestbench =>
    (* f.write("Xdut "); for p in ro_en: f.write(p + " ")
       for p in coupler_en: ...; for p in probe_ports: ...;
       f.write("vdd gnd RING_OSC_NETWORK\n\n") *)
    "Xdut " ++ String.concat "" ((fun p => p ++ " ") <$> ro_en rows cols)
      ++ String.concat "" ((fun p => p ++ " ") <$> coupler_en rows cols)
      ++ String.concat "" ((fun p => p ++ " ") <$> probe_ports rows cols)
      ++ "vdd gnd RING_OSC_NETWORK"
  end.

End Bench.

(** ** The netlist verifier: [load_netlist] and [verify_network] *)

Module Verify.
Import Hex Py Synth Verifier.

Local Open Scope string_scope.

Definition lf : ascii := "010"%char.
Definition cr : ascii := "013"%char.

(** The text [open(path, 'r')] hands to the program: in text mode a
    carriage return, alone or before a line feed, is read as one line
    feed.  Opening and decoding the file are outside the model, which
    starts from the decoded characters of the file (U+0000 to U+00FF). *)
Fixpoint universal_newlines (s : string) : string :=
  match s with
  | String a s' =>
    if Ascii.eqb a cr then
      match s' with
      | String b s'' =>
        if Ascii.eqb b lf then String lf (universal_newlines s'')
        else String lf (universal_newlines s')
      | EmptyString => String lf EmptyString
      end
    else String a (universal_newlines s')
  | EmptyString => EmptyString
  end.

(** [for line in f]: the lines of the text, each with the line feed that
    ends it; the last line may have none. *)
Fixpoint lines_from (cur s : string) : list string :=
  match s with
  | EmptyString => flush cur
  | String a s' =>
    if Ascii.eqb a lf
    then (cur ++ String a EmptyString) :: lines_from EmptyString s'
    else lines_from (cur ++ String a EmptyString) s'
  end.

Fixpoint lstrip (s : string) : string :=
  match s with
  | String a s' => if is_space a then lstrip s' else s
  | EmptyString => EmptyString
  end.

Fixpoint rstrip (s : string) : string :=
  match s with
  | String a s' =>
    match rstrip s' with
    | EmptyString => if is_space a then EmptyString else String a EmptyString
    | t => String a t
    end
  | EmptyString => EmptyString
  end.

(** [s.strip()] *)
Definition strip (s : string) : string := rstrip (lstrip s).

(** [s.startswith(pat)] *)
Definition startswith (pat s : string) : bool := String.prefix pat s.

(** [[line.strip() for line in f
      if line.strip() and not line.strip().startswith('*')]] *)
Definition load_netlist (text : string) : list string :=
  strip <$>
    List.filter
      (fun line => negb (String.eqb (strip line) "")
                   && negb (startswith "*" (strip line)))
      (lines_from "" (universal_newlines text)).

(** [verify_network] returns nothing; what it reports is the message it
    prints before it returns. *)
Inductive verdict : Type :=
  | WrongCount (expected found : Z)   (* Expected .. RING_OSC blocks, found .. *)
  | NodeMismatch (p : cell) (pin : Z) (* Node mismatch at RO(r,c) pin .. *)
  | WrongNeighbors (p : cell)         (* Wrong neighbors for RO(r,c) *)
  | Asymmetric (q : site)             (* Asymmetric coupling: .. *)
  | CouplerNodeMismatch (q : site)    (* Coupler node mismatch XCPL_.. *)
  | Passed.                           (* VERIFICATION PASSED *)

(** The dict [ring_nodes] as its items in insertion order. *)
Definition ring_dict : Type := list (cell * list string).

(** [d[k] = v]: a key already present keeps its place. *)
Fixpoint dict_set (d : ring_dict) (k : cell) (v : list string) : ring_dict :=
  match d with
  | [] => [(k, v)]
  | (k', v') :: d' =>
    if bool_decide (k' = k) then (k, v) :: d' else (k', v') :: dict_set d' k v
  end.

(** The first loop over [lines]; [couplings_reverse] is written there and
    never read. *)
Fixpoint parse_lines (lines : list string) (ring_nodes : ring_dict)
  (couplings : gset site) : result (ring_dict * gset site) :=
  match lines with
  | [] => Ok (ring_nodes, couplings)
  | line :: rest =>
    match parse_ring_instance line with
    | Raise e => Raise e
    | Ok (Some (r, c, nodes, enable)) =>
      parse_lines rest (dict_set ring_nodes (r, c) nodes) couplings
    | Ok None =>
      match parse_coupler_instance line with
      | Raise e => Raise e
      | Ok (Some (r1, c1, r2, c2, enable, nodeA, nodeB)) =>
        parse_lines rest ring_nodes (couplings ∪ {[((r1, c1), (r2, c2))]})
      | Ok None => parse_lines rest ring_nodes couplings
      end
    end
  end.

(** [for pin in range(1, 8)]: the first pin whose node is not
    [f"N_{r}_{c}_{pin}"]. *)
Fixpoint check_pins (p : cell) (nodes : list string) (pins : list Z)
  : result (option Z) :=
  match pins with
  | [] => Ok None
  | pin :: rest =>
    match item nodes (Z.to_nat (pin - 1)) with
    | Raise e => Raise e
    | Ok found =>
      if negb (String.eqb found (Netlist.node_name p.1 p.2 pin))
      then Ok (Some pin)
      else check_pins p nodes rest
    end
  end.

(** [for (r, c), nodes in ring_nodes.items()] *)
Fixpoint check_nodes (items : ring_dict) : result (option (cell * Z)) :=
  match items with
  | [] => Ok None
  | (p, nodes) :: rest =>
    match check_pins p nodes (Z.of_nat <$> seq 1 7) with
    | Raise e => Raise e
    | Ok (Some pin) => Ok (Some (p, pin))
    | Ok None => check_nodes rest
    end
  end.

(** [set(expected_neighbors(rows, cols, r, c))] *)
Definition want (rows cols : Z) (p : cell) : gset cell :=
  list_to_set (expected_neighbors rows cols p.1 p.2).

(** [set((rr, cc) for (rr, cc) in want if (r, c, rr, cc) in couplings)] *)
Definition have (couplings : gset site) (p : cell) (want : gset cell)
  : gset cell :=
  filter (fun q => (p, q) ∈ couplings) want.

(** [for r in range(rows): for c in range(cols)]: the first cell with
    [want != have]. *)
Fixpoint check_neighbors (rows cols : Z) (couplings : gset site)
  (cells : list cell) : option cell :=
  match cells with
  | [] => None
  | p :: rest =>
    if bool_decide (want rows cols p <> have couplings p (want rows cols p))
    then Some p
    else check_neighbors rows cols couplings rest
  end.

(** [for (r1, c1, r2, c2) in couplings]: the first coupling met whose
    reverse is not in the set. *)
Fixpoint check_symmetric (couplings : gset site) (order : list site)
  : option site :=
  match order with
  | [] => None
  | q :: rest =>
    if bool_decide ((q.2, q.1) ∉ couplings) then Some q
    else check_symmetric couplings rest
  end.

(** The last loop over [lines]: the first coupler that does not join
    [N_r1_c1_1] to [N_r2_c2_3]. *)
Fixpoint check_coupler_nodes (lines : list string) : result (option site) :=
  match lines with
  | [] => Ok None
  | line :: rest =>
    match parse_coupler_instance line with
    | Raise e => Raise e
    | Ok None => check_coupler_nodes rest
    | Ok (Some (r1, c1, r2, c2, enable, nodeA, nodeB)) =>
      if negb (String.eqb nodeA (Netlist.node_name r1 c1 1))
         || negb (String.eqb nodeB (Netlist.node_name r2 c2 3))
      then Ok (Some ((r1, c1), (r2, c2)))
      else check_coupler_nodes rest
    end
  end.

Section Run.

(** The order in which a set of couplings is iterated. *)
Variable site_order : gset site -> list site.

(** [verify_network] after [load_netlist]. *)
Definition verify_lines (lines : list string) (rows cols : Z)
  : result verdict :=
  match parse_lines lines [] ∅ with
  | Raise e => Raise e
  | Ok (ring_nodes, couplings) =>
    let expected_count := (rows * cols)%Z in
    let found := Z.of_nat (List.length ring_nodes) in   (* len(ring_nodes) *)
    if negb (found =? expected_count)%Z
    then Ok (WrongCount expected_count found)
    else
      match check_nodes ring_nodes with
      | Raise e => Raise e
      | Ok (Some (p, pin)) => Ok (NodeMismatch p pin)
      | Ok None =>
        match check_neighbors rows cols couplings (all_cells rows cols) with
        | Some p => Ok (WrongNeighbors p)
        | None =>
          match check_symmetric couplings (site_order couplings) with
          | Some q => Ok (Asymmetric q)
          | None =>
            match check_coupler_nodes lines with
            | Raise e => Raise e
            | Ok (Some q) => Ok (CouplerNodeMismatch q)
            | Ok None => Ok Passed
            end
          end
        end
      end
  end.

(** [verify_network(netlist_path, rows, cols)] on a file that holds
    [text]. *)
Definition verify_network (text : string) (rows cols : Z) : result verdict :=
  verify_lines (load_netlist text) rows cols.

End Run.

End Verify.

(** ** A scripted world, to run the generators on concrete draws *)

Module Script.
Import Hex Py.

(** The [random] state is the list of the draws still to come; each call
    consumes one number ([0] when the script is exhausted). *)
Definition draw (g : list nat) : nat * list nat :=
  match g with
  | [] => (0%nat, [])
  | x :: g' => (x, g')
  end.

(** Sampling without replacement: the next draw indexes the cells not yet
    taken. *)
Fixpoint pick_cells (g : list nat) (pool : list cell) (k : nat)
  : list cell * list nat :=
  match k with
  | O => ([], g)
  | S k' =>
    let '(x, g') := draw g in
    let i := (x mod length pool)%nat in
    match pool !! i with
    | None => ([], g')
    | Some p =>
      let '(l, g'') := pick_cells g' (delete i pool) k' in (p :: l, g'')
    end
  end.

Definition below (g : list nat) (n : nat) : nat * list nat :=
  let '(x, g') := draw g in ((x mod n)%nat, g').

Definition random_lt (g : list nat) (p : Z) : bool * list nat :=
  let '(x, g') := draw g in (Z.of_nat x <? p, g').

Definition label_le (a b : string) : Prop := String.leb a b = true.

#[export] Instance label_le_dec a b : Decision (label_le a b).
Proof. unfold label_le. apply _. Defined.

(** Sets iterate in increasing order of their elements. *)
Definition label_order (X : gset string) : list string :=
  merge_sort label_le (elements X).

Definition edge_order (E : gset (string * string)) : list (string * string) :=
  elements E.

End Script.
(** * Properties of the hex topology *)

Import Hex.

Lemma in_grid_spec rows cols r c :
  in_grid rows cols (r, c) = true <-> 0 <= r < rows /\ 0 <= c < cols.
Proof.
  unfold in_grid; simpl.
  rewrite !andb_true_iff, !Z.leb_le, !Z.ltb_lt. lia.
Qed.

Lemma neighbors_hex_neighbors rows cols r c :
  neighbors rows cols r c = hex_neighbors rows cols r c.
Proof. reflexivity. Qed.

(** The parity-dependent offsets of the neighbour rule, as a relation. *)
Definition hex_offset (r c rr cc : Z) : Prop :=
  (r mod 2 = 0 /\
     ((rr = r /\ (cc = c - 1 \/ cc = c + 1)) \/
      ((rr = r - 1 \/ rr = r + 1) /\ (cc = c - 1 \/ cc = c)))) \/
  (r mod 2 <> 0 /\
     ((rr = r /\ (cc = c - 1 \/ cc = c + 1)) \/
      ((rr = r - 1 \/ rr = r + 1) /\ (cc = c \/ cc = c + 1)))).

Lemma hex_offset_sym r c rr cc : hex_offset r c rr cc -> hex_offset rr cc r c.
Proof. unfold hex_offset. Z.to_euclidean_division_equations; lia. Qed.

Lemma elem_hex_neighbors rows cols r c rr cc :
  In (rr, cc) (hex_neighbors rows cols r c) <->
  (0 <= rr < rows /\ 0 <= cc < cols) /\ hex_offset r c rr cc.
Proof.
  unfold hex_neighbors, hex_offset.
  rewrite filter_In, in_grid_spec.
  destruct (Z.eqb_spec (r mod 2) 0) as [He|He]; simpl;
    rewrite ?pair_equal_spec; intuition (try lia).
Qed.

(** ** The hex adjacency relation is symmetric *)

(** C10. For every grid size and every pair of in-range cells [a], [b]:
    [b] is listed by [hex_neighbors rows cols a] exactly when [a] is listed
    by [hex_neighbors rows cols b]; the same holds for the [neighbors]
    function of the netlist writer. *)
Theorem hex_neighbors_symmetric rows cols r1 c1 r2 c2 :
  in_grid rows cols (r1, c1) = true ->
  in_grid rows cols (r2, c2) = true ->
  (In (r2, c2) (hex_neighbors rows cols r1 c1) <->
   In (r1, c1) (hex_neighbors rows cols r2 c2)) /\
  (In (r2, c2) (neighbors rows cols r1 c1) <->
   In (r1, c1) (neighbors rows cols r2 c2)).
Proof.
  intros H1 H2.
  change (neighbors rows cols) with (hex_neighbors rows cols).
  apply in_grid_spec in H1. apply in_grid_spec in H2.
  rewrite !elem_hex_neighbors.
  split; (split; intros [_ Ho]; (split; [assumption | now apply hex_offset_sym])).
Qed.

Lemma hex_neighbors_symmetric_witness :
  (In (1, 1) (hex_neighbors 3 3 0 1) <-> In (0, 1) (hex_neighbors 3 3 1 1)) /\
  (In (1, 1) (neighbors 3 3 0 1) <-> In (0, 1) (neighbors 3 3 1 1)).
Proof. apply (hex_neighbors_symmetric 3 3 0 1 1 1); reflexivity. Defined.

Lemma elem_expected_neighbors rows cols r c p :
  In p (expected_neighbors rows cols r c) <->
  in_grid rows cols p = true /\
  In p (if r mod 2 =? 0
        then [ (r, c - 1); (r, c + 1); (r - 1, c); (r - 1, c + 1);
               (r + 1, c); (r + 1, c + 1) ]
        else [ (r, c - 1); (r, c + 1); (r - 1, c - 1); (r - 1, c);
               (r + 1, c - 1); (r + 1, c) ]).
Proof.
  unfold expected_neighbors.
  set (cand := if r mod 2 =? 0 then _ else _).
  assert (forall l acc,
    In p (fold_left (fun nbrs q => if in_grid rows cols q then nbrs ++ [q] else nbrs) l acc)
    <-> In p acc \/ (in_grid rows cols p = true /\ In p l)) as Hgen.
  { induction l as [|q l IH]; intros acc; simpl.
    - tauto.
    - rewrite IH. destruct (in_grid rows cols q) eqn:Hq.
      + rewrite in_app_iff; simpl. intuition (subst; auto).
      + intuition (subst; auto; congruence). }
  rewrite Hgen. simpl. tauto.
Qed.

(** ** The verifier's oracle against the generator's rule *)

(** C1. At the in-range cell (0,0) of the 2 x 2 grid the verifier's
    [expected_neighbors] lists (1,1), which the generator's
    [hex_neighbors] does not: the two neighbour sets differ. *)
Theorem expected_neighbors_differs :
  expected_neighbors 2 2 0 0 = [(0, 1); (1, 0); (1, 1)] /\
  hex_neighbors 2 2 0 0 = [(0, 1); (1, 0)] /\
  ~ same_cells (expected_neighbors 2 2 0 0) (hex_neighbors 2 2 0 0).
Proof.
  split; [reflexivity|]. split; [reflexivity|].
  intros H. specialize (H (1, 1)). simpl in H.
  assert ((0, 1) = (1, 1) \/ (1, 0) = (1, 1) \/ False) as Hin by (apply H; auto).
  destruct Hin as [E|[E|[]]]; discriminate E.
Qed.

(** In general the verifier applies to an even row the offsets that the
    generator applies to an odd row, and conversely. *)
Lemma expected_neighbors_swapped rows cols r c rr cc :
  In (rr, cc) (expected_neighbors rows cols r c) <->
  (0 <= rr < rows /\ 0 <= cc < cols) /\
  ((r mod 2 <> 0 /\
     ((rr = r /\ (cc = c - 1 \/ cc = c + 1)) \/
      ((rr = r - 1 \/ rr = r + 1) /\ (cc = c - 1 \/ cc = c)))) \/
   (r mod 2 = 0 /\
     ((rr = r /\ (cc = c - 1 \/ cc = c + 1)) \/
      ((rr = r - 1 \/ rr = r + 1) /\ (cc = c \/ cc = c + 1))))).
Proof.
  rewrite elem_expected_neighbors, in_grid_spec.
  destruct (Z.eqb_spec (r mod 2) 0) as [He|He]; simpl;
    repeat setoid_rewrite pair_equal_spec; lia.
Qed.

(** * The scripted world is a world *)

Import Hex Py Gen.

Lemma pick_cells_length g pool k :
  (k <= length pool)%nat -> length (Script.pick_cells g pool k).1 = k.
Proof.
  revert g pool. induction k as [|k IH]; intros g pool Hk; simpl; [done|].
  destruct (Script.draw g) as [x g'].
  destruct pool as [|p0 pool]; [simpl in Hk; lia|].
  set (i := (x mod length (p0 :: pool))%nat).
  assert (i < length (p0 :: pool))%nat as Hi
    by (apply Nat.mod_upper_bound; simpl; lia).
  destruct (lookup_lt_is_Some_2 _ _ Hi) as [p Hp]. rewrite Hp.
  specialize (IH g' (delete i (p0 :: pool))).
  destruct (Script.pick_cells g' (delete i (p0 :: pool)) k) as [l g''].
  simpl in *. f_equal. apply IH.
  rewrite length_delete by eauto. simpl. lia.
Qed.

Lemma pick_cells_sub g pool k : (Script.pick_cells g pool k).1 ⊆+ pool.
Proof.
  revert g pool. induction k as [|k IH]; intros g pool; simpl.
  - apply submseteq_nil_l.
  - destruct (Script.draw g) as [x g'].
    destruct (pool !! (x mod length pool)%nat) as [p|] eqn:Hp; simpl.
    + specialize (IH g' (delete (x mod length pool)%nat pool)).
      destruct (Script.pick_cells g' _ k) as [l g'']. simpl in *.
      rewrite (delete_Permutation pool _ _ Hp). by apply submseteq_skip.
    + apply submseteq_nil_l.
Qed.

Lemma below_lt g n : (0 < n)%nat -> ((Script.below g n).1 < n)%nat.
Proof.
  intros Hn. unfold Script.below. destruct (Script.draw g) as [x g'].
  simpl. apply Nat.mod_upper_bound. lia.
Qed.

(** The world whose [random.seed(s)] installs the script [seeds s]. *)
Definition script_world (seeds : Z -> list nat) : World := {|
  rng := list nat;
  rng_seed := seeds;
  rng_sample := Script.pick_cells;
  rng_below := Script.below;
  rng_random_lt := Script.random_lt;
  set_order := Script.label_order;
  Py.edge_order := Script.edge_order;
  rng_sample_length := pick_cells_length;
  rng_sample_sub := pick_cells_sub;
  rng_below_lt := below_lt;
  set_order_perm := fun X => merge_sort_Permutation _ _;
  edge_order_perm := fun E => reflexivity _
|}.

(** A fresh interpreter: nothing drawn yet, no locals. *)
Definition fresh (seeds : Z -> list nat) : @state (script_world seeds) :=
  @State (script_world seeds) [] ∅ ∅ ∅ ∅ [].


(** * A program logic for the generator's monad *)

Section Hoare.
Context {W : World}.
Local Open Scope py_scope.

(** [hoare P m Q]: from a state satisfying [P], if [m] returns a value then
    the value and the final state satisfy [Q]. *)
Definition hoare {A} (P : state -> Prop) (m : M A) (Q : A -> state -> Prop)
  : Prop :=
  forall s, P s ->
    match m s with
    | (Ok a, s') => Q a s'
    | (Raise _, _) => True
    end.

Lemma bind_ok {A B} (m : M A) (k : A -> M B) s a s1 :
  m s = (Ok a, s1) -> bind m k s = k a s1.
Proof. intros H. unfold bind. by rewrite H. Qed.

Lemma bind_ok_inv {A B} (m : M A) (k : A -> M B) s r s2 :
  bind m k s = (Ok r, s2) ->
  exists a s1, m s = (Ok a, s1) /\ k a s1 = (Ok r, s2).
Proof.
  unfold bind. destruct (m s) as [[a|e] s1]; [eauto|discriminate].
Qed.

Lemma hoare_ret {A} (P : state -> Prop) (a : A) (Q : A -> state -> Prop) :
  (forall s, P s -> Q a s) -> hoare P (ret a) Q.
Proof. intros H s Hs. simpl. auto. Qed.

Lemma hoare_raise {A} P e (Q : A -> state -> Prop) : hoare P (raise e) Q.
Proof. intros s Hs. exact I. Qed.

Lemma hoare_bind {A B} P (m : M A) (k : A -> M B) R Q :
  hoare P m R -> (forall a, hoare (R a) (k a) Q) -> hoare P (bind m k) Q.
Proof.
  intros Hm Hk s Hs. unfold bind. specialize (Hm s Hs).
  destruct (m s) as [[a|e] s']; [|exact I]. apply (Hk a s' Hm).
Qed.

Lemma hoare_gets {A} P (f : state -> A) (Q : A -> state -> Prop) :
  (forall s, P s -> Q (f s) s) -> hoare P (gets f) Q.
Proof. intros H s Hs. simpl. auto. Qed.

Lemma hoare_modify P f (Q : unit -> state -> Prop) :
  (forall s, P s -> Q tt (f s)) -> hoare P (modify f) Q.
Proof. intros H s Hs. simpl. auto. Qed.

Lemma hoare_conseq {A} (P P' : state -> Prop) (m : M A)
  (Q Q' : A -> state -> Prop) :
  hoare P' m Q' -> (forall s, P s -> P' s) ->
  (forall a s, Q' a s -> Q a s) -> hoare P m Q.
Proof.
  intros Hm HP HQ s Hs. specialize (Hm s (HP s Hs)).
  destruct (m s) as [[a|e] s']; auto.
Qed.

Lemma hoare_dict_get {K V} `{Countable K} P (d : gmap K V) k
  (Q : V -> state -> Prop) :
  (forall v s, d !! k = Some v -> P s -> Q v s) -> hoare P (dict_get d k) Q.
Proof.
  intros HQ s Hs. unfold dict_get.
  destruct (d !! k) as [v|] eqn:E; simpl; auto.
Qed.

(** A loop body that keeps [J] keeps it over the whole [for]. *)
Lemma hoare_for_each {A} (J : state -> Prop) (l : list A) body :
  (forall x, x ∈ l -> hoare J (body x) (fun _ => J)) ->
  hoare J (for_each l body) (fun _ => J).
Proof.
  induction l as [|x l IH]; intros Hb; simpl.
  - by apply hoare_ret.
  - eapply hoare_bind; [apply Hb; left|].
    intros u. apply IH. intros y Hy. apply Hb. by right.
Qed.

(** A filter whose test keeps [J] keeps it, and selects a sublist. *)
Lemma hoare_filter_m {A} (J : state -> Prop) (T : A -> Prop) test (l : list A) :
  (forall x, x ∈ l ->
     hoare J (test x) (fun b s => J s /\ (b = true -> T x))) ->
  hoare J (filter_m test l)
        (fun r s => J s /\ forall x, x ∈ r -> x ∈ l /\ T x).
Proof.
  induction l as [|x l IH]; intros Ht; simpl.
  - apply hoare_ret. intros s Hs. split; [done|]. intros x Hx. inversion Hx.
  - eapply hoare_bind; [apply Ht; left|]. intros b. simpl.
    apply (hoare_bind (fun s => J s /\ (b = true -> T x)) _ _
             (fun r s => (J s /\ forall y, y ∈ r -> y ∈ l /\ T y)
                         /\ (b = true -> T x))).
    + intros s [Hs Hb].
      assert (hoare J (filter_m test l)
                (fun r s => J s /\ forall y, y ∈ r -> y ∈ l /\ T y)) as IH'.
      { apply IH. intros y Hy. apply Ht. by right. }
      specialize (IH' s Hs).
      destruct (filter_m test l s) as [[r|e] s']; [|exact I]. by split.
    + intros r. apply hoare_ret. intros s [[Hs Hr] Hb]. split; [done|].
      intros y Hy. destruct b.
      * apply elem_of_cons in Hy as [->|Hy].
        -- split; [left | by apply Hb].
        -- destruct (Hr y Hy). split; [by right | done].
      * destruct (Hr y Hy). split; [by right | done].
Qed.

End Hoare.

(** * [add_edge] and the degree bound *)

Section AddEdge.
Context {W : World}.
Local Arguments Nat.leb : simpl never.
Local Arguments Nat.ltb : simpl never.

Lemma sorted2_cases a b : sorted2 a b = (a, b) \/ sorted2 a b = (b, a).
Proof. unfold sorted2. destruct (String.ltb b a); auto. Qed.

Lemma incident_sorted2 n a b : incident n (sorted2 a b) <-> n = a \/ n = b.
Proof.
  unfold incident.
  destruct (sorted2_cases a b) as [-> | ->]; simpl; intuition congruence.
Qed.

(** What a call of [add_edge] can do: leave the state alone (returning
    [False] or raising), or add the new edge [sorted2 a b] and bump both
    degrees, which were below [maxdeg]. *)
Lemma add_edge_inv a b s :
  (exists r, add_edge a b s = (r, s) /\ r <> Ok true) \/
  (exists da db,
     a <> b /\
     st_degree s !! a = Some da /\ st_degree s !! b = Some db /\
     (da < maxdeg)%nat /\ (db < maxdeg)%nat /\
     (sorted2 a b ∉ st_edges s) /\
     add_edge a b s =
       (Ok true,
        set_degree (<[b := S db]> (<[a := S da]> (st_degree s)))
          (set_edges (st_edges s ∪ {[sorted2 a b]}) s))).
Proof.
  unfold add_edge.
  destruct (decide (a = b)) as [Hab|Hab].
  { left. eexists. split; [reflexivity|discriminate]. }
  unfold bind, gets, dict_get, ret, raise, modify; simpl.
  destruct (st_degree s !! a) as [da|] eqn:Ha; simpl;
    [|left; eexists; split; [reflexivity|discriminate]].
  destruct (Nat.leb_spec maxdeg da) as [Hda|Hda]; simpl.
  { left. eexists. split; [reflexivity|discriminate]. }
  destruct (st_degree s !! b) as [db|] eqn:Hb; simpl;
    [|left; eexists; split; [reflexivity|discriminate]].
  destruct (Nat.leb_spec maxdeg db) as [Hdb|Hdb]; simpl.
  { left. eexists. split; [reflexivity|discriminate]. }
  destruct (decide (sorted2 a b ∈ st_edges s)) as [He|He]; simpl.
  { left. eexists. split; [reflexivity|discriminate]. }
  right. exists da, db.
  rewrite lookup_insert_ne by done. rewrite Hb. simpl.
  repeat split; try done.
Qed.

(** The dictionary [degree] counts the incident edges of every node it
    knows, none above [maxdeg], and knows every node. *)
Definition deg_inv (nodes : list string) (s : state) : Prop :=
  (forall n, n ∈ nodes -> is_Some (st_degree s !! n)) /\
  (forall n d, st_degree s !! n = Some d ->
     d = incident_count n (elements (st_edges s)) /\ (d <= maxdeg)%nat).

Lemma incident_count_perm n l1 l2 :
  l1 ≡ₚ l2 -> incident_count n l1 = incident_count n l2.
Proof. intros H. unfold incident_count. by rewrite H. Qed.

Lemma incident_count_add (n : string) (e : string * string)
  (E : gset (string * string)) :
  e ∉ E ->
  incident_count n (elements (E ∪ {[e]})) =
  ((if decide (incident n e) then 1 else 0) + incident_count n (elements E))%nat.
Proof.
  intros He.
  rewrite (incident_count_perm n _ (e :: elements E)).
  - unfold incident_count. rewrite filter_cons.
    destruct (decide (incident n e)); reflexivity.
  - rewrite (union_comm_L E). by apply elements_union_singleton.
Qed.

Lemma add_edge_keeps_deg_inv nodes a b :
  hoare (deg_inv nodes) (add_edge a b) (fun _ => deg_inv nodes).
Proof.
  intros s [Hdom Hcnt].
  destruct (add_edge_inv a b s) as
    [(r & -> & Hr) | (da & db & Hab & Ha & Hb & Hda & Hdb & He & ->)].
  { destruct r; [split|]; done. }
  split; simpl.
  - intros n Hn.
    destruct (decide (n = b)) as [->|Hnb]; [rewrite lookup_insert_eq; eauto|].
    rewrite lookup_insert_ne by done.
    destruct (decide (n = a)) as [->|Hna]; [rewrite lookup_insert_eq; eauto|].
    rewrite lookup_insert_ne by done. auto.
  - intros n d Hd. rewrite (incident_count_add n _ _ He).
    destruct (decide (n = b)) as [->|Hnb].
    + rewrite lookup_insert_eq in Hd. injection Hd as <-.
      destruct (Hcnt _ _ Hb) as [-> _].
      destruct (decide (incident b (sorted2 a b))) as [_|Hn];
        [split; [done|lia]|].
      exfalso. apply Hn, incident_sorted2. auto.
    + rewrite lookup_insert_ne in Hd by done.
      destruct (decide (n = a)) as [->|Hna].
      * rewrite lookup_insert_eq in Hd. injection Hd as <-.
        destruct (Hcnt _ _ Ha) as [-> _].
        destruct (decide (incident a (sorted2 a b))) as [_|Hn];
          [split; [done|lia]|].
        exfalso. apply Hn, incident_sorted2. auto.
      * rewrite lookup_insert_ne in Hd by done.
        destruct (decide (incident n (sorted2 a b))) as [Hn|_].
        -- apply incident_sorted2 in Hn as [?|?]; congruence.
        -- by apply Hcnt.
Qed.

End AddEdge.

(** * Invariants of the edge set through the generators' phases *)

(** An invariant that only reads [edges] and [degree]. *)
Definition framed {W : World} (J : state -> Prop) : Prop :=
  forall s g R V q,
    J s -> J (State g (st_edges s) (st_degree s) R V q).

Definition keeps {W : World} {A} (J : state -> Prop) (m : M A) : Prop :=
  hoare J m (fun _ => J).

Section Keeps.
Context {W : World}.
Variable J : state -> Prop.
Hypothesis J_framed : framed J.

Lemma keeps_ret {A} (a : A) : keeps J (ret a).
Proof. by apply hoare_ret. Qed.

Lemma keeps_raise {A} e : keeps J (@raise W A e).
Proof. apply hoare_raise. Qed.

Lemma keeps_bind {A B} (m : M A) (k : A -> M B) :
  keeps J m -> (forall a, keeps J (k a)) -> keeps J (bind m k).
Proof. intros Hm Hk. eapply hoare_bind; [exact Hm|exact Hk]. Qed.

Lemma keeps_gets {A} (f : state -> A) : keeps J (gets f).
Proof. by apply hoare_gets. Qed.

Lemma keeps_dict_get {K V} `{Countable K} (d : gmap K V) k :
  keeps J (dict_get d k).
Proof. by apply hoare_dict_get. Qed.

Lemma keeps_modify f :
  (forall s, st_edges (f s) = st_edges s /\ st_degree (f s) = st_degree s) ->
  keeps J (modify f).
Proof.
  intros Hf. apply hoare_modify. intros s Hs.
  destruct (Hf s) as [He Hd].
  pose proof (J_framed s (st_rng (f s)) (st_remaining (f s))
                (st_visited (f s)) (st_queue (f s)) Hs) as HJ.
  rewrite <- He, <- Hd in HJ. by destruct (f s).
Qed.

Lemma keeps_for_each {A} (l : list A) body :
  (forall x, keeps J (body x)) -> keeps J (for_each l body).
Proof. intros Hb. apply hoare_for_each. intros x _. apply Hb. Qed.

Lemma keeps_filter_m {A} test (l : list A) :
  (forall x, keeps J (test x)) -> keeps J (filter_m test l).
Proof.
  intros Ht.
  eapply hoare_conseq;
    [apply (hoare_filter_m J (fun _ => True) test l)| |].
  - intros x _. eapply hoare_conseq; [apply (Ht x)|auto|]. simpl. auto.
  - auto.
  - simpl. intros r s [Hs _]. exact Hs.
Qed.

Lemma keeps_reseed seed : keeps J (reseed seed).
Proof.
  destruct seed; simpl; [apply keeps_modify; intros s; by split|apply keeps_ret].
Qed.

Lemma keeps_py_sample pop k : keeps J (py_sample pop k).
Proof.
  unfold py_sample. destruct (_ || _); [apply keeps_raise|].
  intros s Hs. destruct (rng_sample (st_rng s) pop (Z.to_nat k)) as [l g].
  by apply J_framed.
Qed.

Lemma keeps_py_choice l : keeps J (py_choice l).
Proof.
  unfold py_choice. destruct l as [|x l]; [apply keeps_raise|].
  intros s Hs. destruct (rng_below (st_rng s) (length (x :: l))) as [i g].
  destruct ((x :: l) !! i); [by apply J_framed|exact I].
Qed.

Lemma keeps_py_random_lt p : keeps J (py_random_lt p).
Proof.
  intros s Hs. unfold py_random_lt.
  destruct (rng_random_lt (st_rng s) p) as [b g]. by apply J_framed.
Qed.

End Keeps.

(** Steps through a monadic program, keeping a framed invariant. *)
Ltac keeps_step :=
  lazymatch goal with
  | |- keeps _ (bind _ _) => apply keeps_bind; [try assumption | intros ?]
  | |- keeps _ (ret _) => apply keeps_ret
  | |- keeps _ (raise _) => apply keeps_raise
  | |- keeps _ (gets _) => apply keeps_gets
  | |- keeps _ (dict_get _ _) => apply keeps_dict_get
  | |- keeps _ (modify _) =>
      apply keeps_modify; [assumption | intros ?; split; reflexivity]
  | |- keeps _ (for_each _ _) => apply keeps_for_each; intros ?
  | |- keeps _ (filter_m _ _) => apply keeps_filter_m; intros ?
  | |- keeps _ (reseed _) => apply keeps_reseed; assumption
  | |- keeps _ (py_sample _ _) => apply keeps_py_sample; assumption
  | |- keeps _ (py_choice _) => apply keeps_py_choice; assumption
  | |- keeps _ (py_random_lt _) => apply keeps_py_random_lt; assumption
  | |- keeps _ (if ?c then _ else _) => destruct c
  | |- keeps _ (match ?x with _ => _ end) => destruct x
  end.

Ltac keeps_auto := repeat (first [assumption | solve [auto] | keeps_step]).

Section Phases.
Context {W : World}.
Variables (rows cols : Z).
Variable J : state -> Prop.
Hypothesis J_framed : framed J.
Hypothesis J_add_edge : forall a b, keeps J (add_edge a b).

Lemma keeps_pop_remaining : keeps J pop_remaining.
Proof. unfold pop_remaining. keeps_auto. Qed.

Lemma keeps_visited_add w : keeps J (visited_add w).
Proof. unfold visited_add. keeps_auto. Qed.

Lemma keeps_mark_visited w : keeps J (mark_visited w).
Proof. unfold mark_visited, visited_add. keeps_auto. Qed.

Lemma keeps_span_step pos_map : keeps J (span_step rows cols pos_map).
Proof.
  unfold span_step, adjacent_to.
  pose proof keeps_pop_remaining. pose proof keeps_visited_add.
  keeps_auto.
Qed.

Lemma keeps_span_loop pos_map fuel :
  keeps J (span_loop rows cols pos_map fuel).
Proof.
  pose proof (keeps_span_step pos_map).
  induction fuel as [|fuel IH]; simpl; keeps_auto.
Qed.

Lemma keeps_densify p nodes pos_map :
  keeps J (densify rows cols p nodes pos_map).
Proof. unfold densify. keeps_auto. Qed.

Lemma keeps_bfs_expand pos_map u : keeps J (bfs_expand rows cols pos_map u).
Proof.
  unfold bfs_expand. pose proof keeps_mark_visited. keeps_auto.
Qed.

Lemma keeps_try_fix pos_map p pp ws :
  keeps J (try_fix rows cols pos_map p pp ws).
Proof.
  pose proof keeps_mark_visited.
  induction ws as [|w ws IH]; simpl; keeps_auto.
Qed.

Lemma keeps_min_by pos_map pw best vs : keeps J (min_by pos_map pw best vs).
Proof.
  revert best. induction vs as [|v vs IH]; intros best; simpl; keeps_auto.
Qed.

Lemma keeps_nearest_visited pos_map pw :
  keeps J (nearest_visited pos_map pw).
Proof.
  unfold nearest_visited. pose proof (keeps_min_by pos_map pw). keeps_auto.
Qed.

Lemma keeps_stuck_repair pos_map : keeps J (stuck_repair rows cols pos_map).
Proof.
  unfold stuck_repair.
  pose proof keeps_mark_visited. pose proof (keeps_try_fix pos_map).
  pose proof (keeps_nearest_visited pos_map).
  keeps_auto.
Qed.

Lemma keeps_safe_loop pos_map fuel :
  keeps J (safe_loop rows cols pos_map fuel).
Proof.
  pose proof (keeps_bfs_expand pos_map).
  pose proof (keeps_stuck_repair pos_map).
  induction fuel as [|fuel IH]; simpl; keeps_auto.
Qed.

End Phases.

(** * The degree bound of the generated graphs *)

Section DegreeBound.
Context {W : World}.
Variables (rows cols : Z).

Lemma make_degree_lookup nodes n d :
  make_degree nodes !! n = Some d -> d = 0%nat.
Proof.
  unfold make_degree.
  assert (forall (m : gmap string nat),
            (forall d', m !! n = Some d' -> d' = 0%nat) ->
            foldl (fun m n => <[n := 0%nat]> m) m nodes !! n = Some d ->
            d = 0%nat) as Hgen.
  { induction nodes as [|x l IH]; intros m Hm; simpl; [apply Hm|].
    apply IH. intros d'.
    destruct (decide (x = n)) as [->|Hne].
    - rewrite lookup_insert_eq. congruence.
    - rewrite lookup_insert_ne by done. apply Hm. }
  apply Hgen. intros d'. rewrite lookup_empty. discriminate.
Qed.

Lemma make_degree_dom nodes n :
  n ∈ nodes -> is_Some (make_degree nodes !! n).
Proof.
  unfold make_degree.
  assert (forall (m : gmap string nat),
            n ∈ nodes \/ is_Some (m !! n) ->
            is_Some (foldl (fun m n => <[n := 0%nat]> m) m nodes !! n)) as Hgen.
  { induction nodes as [|x l IH]; intros m Hm; simpl.
    - destruct Hm as [Hm|Hm]; [inversion Hm|done].
    - apply IH. destruct (decide (x = n)) as [->|Hne].
      + right. rewrite lookup_insert_eq. eauto.
      + rewrite lookup_insert_ne by done.
        destruct Hm as [Hm|Hm]; [|by right].
        apply elem_of_cons in Hm as [->|Hm]; [done|by left]. }
  intros Hn. apply Hgen. by left.
Qed.

Lemma deg_inv_framed nodes : framed (deg_inv nodes).
Proof. intros s g R V q Hs. exact Hs. Qed.

Lemma deg_inv_init nodes g R V q :
  deg_inv nodes (State g ∅ (make_degree nodes) R V q).
Proof.
  split; simpl.
  - apply make_degree_dom.
  - intros n d Hd. apply make_degree_lookup in Hd as ->.
    rewrite elements_empty. split; [reflexivity|unfold maxdeg; lia].
Qed.

(** The prologue hands fresh locals to the phases. *)
Lemma prologue_deg_inv cfg num_nodes seed :
  hoare (fun _ => True) (prologue rows cols cfg num_nodes seed)
        (fun np s => deg_inv np.1 s).
Proof.
  unfold prologue.
  eapply hoare_bind with (R := fun _ _ => True).
  { intros s _. destruct (reseed seed s) as [[u|e] s']; exact I. }
  intros ?. destruct (capacity_exceeded _ _ _); [apply hoare_raise|].
  eapply hoare_bind with (R := fun _ _ => True).
  { intros s _. destruct (py_sample _ _ s) as [[u|e] s']; exact I. }
  intros chosen.
  eapply hoare_bind with
    (R := fun _ => deg_inv (str <$> seq 0 (Z.to_nat num_nodes))).
  { apply hoare_modify. intros s _. apply deg_inv_init. }
  intros ?. apply hoare_ret. auto.
Qed.

Definition returns_bounded (G : graph) (s : state) : Prop :=
  deg_inv (g_nodes G) s /\ g_edges G = edge_order (st_edges s).

Lemma finish_bounded nodes pos_map :
  hoare (deg_inv nodes) (finish nodes pos_map) returns_bounded.
Proof.
  unfold finish. eapply hoare_bind with (R := fun E s => deg_inv nodes s /\ E = st_edges s).
  { apply hoare_gets. auto. }
  intros E. apply hoare_ret. intros s [Hs ->]. by split.
Qed.

Lemma generate_planar_graph_bounded cfg depth num_nodes seed :
  hoare (fun _ => True)
        (generate_planar_graph rows cols cfg depth num_nodes seed)
        returns_bounded.
Proof.
  induction depth as [|depth IH]; simpl; [apply hoare_raise|].
  eapply hoare_bind; [apply prologue_deg_inv|].
  intros [nodes pos_map]. simpl.
  pose proof (deg_inv_framed nodes) as Hf.
  pose proof (add_edge_keeps_deg_inv nodes) as Ha.
  eapply hoare_bind; [apply (keeps_pop_remaining _ Hf)|]. intros root.
  eapply hoare_bind; [apply (keeps_visited_add _ Hf)|]. intros ?.
  eapply hoare_bind; [apply (keeps_span_loop rows cols _ Hf Ha)|].
  intros [|].
  - eapply hoare_bind; [apply (keeps_densify rows cols _ Hf Ha)|].
    intros ?. apply finish_bounded.
  - intros s0 _. apply (IH s0 I).
Qed.

Lemma generate_planar_graph_safe_bounded num_nodes seed :
  hoare (fun _ => True)
        (generate_planar_graph_safe rows cols num_nodes seed)
        returns_bounded.
Proof.
  unfold generate_planar_graph_safe.
  eapply hoare_bind; [apply prologue_deg_inv|].
  intros [nodes pos_map]. simpl.
  pose proof (deg_inv_framed nodes) as Hf.
  pose proof (add_edge_keeps_deg_inv nodes) as Ha.
  eapply hoare_bind; [apply (keeps_pop_remaining _ Hf)|]. intros root.
  eapply hoare_bind.
  { apply (keeps_modify _ Hf). intros s. by split. }
  intros ?.
  eapply hoare_bind; [apply (keeps_safe_loop rows cols _ Hf Ha)|].
  intros ?.
  eapply hoare_bind; [apply (keeps_densify rows cols _ Hf Ha)|].
  intros ?. apply finish_bounded.
Qed.

Lemma returns_bounded_degree G s n :
  returns_bounded G s -> n ∈ g_nodes G ->
  (incident_count n (g_edges G) <= 6)%nat.
Proof.
  intros [[Hdom Hcnt] ->] Hn.
  destruct (Hdom n Hn) as [d Hd].
  destruct (Hcnt n d Hd) as [-> Hle].
  rewrite (incident_count_perm n _ _ (edge_order_perm _)). exact Hle.
Qed.

End DegreeBound.

(** C5. Every graph returned by a generator (the restart generator under
    any of its configurations, reached through any number of restarts, and
    the safe generator) has at most 6 edges at each of its nodes: the
    bound is kept by [add_edge] through the spanning and the densification
    phase. *)
Theorem degree_bound {W : World} rows cols cfg depth num_nodes seed
    (s s' : state) (G : graph) (n : string) :
  generate_planar_graph rows cols cfg depth num_nodes seed s = (Ok G, s') \/
  generate_planar_graph_safe rows cols num_nodes seed s = (Ok G, s') ->
  n ∈ g_nodes G ->
  (incident_count n (g_edges G) <= 6)%nat.
Proof.
  intros [Hrun|Hrun] Hn.
  - pose proof (generate_planar_graph_bounded rows cols cfg depth
                  num_nodes seed s I) as H.
    rewrite Hrun in H. by eapply returns_bounded_degree.
  - pose proof (generate_planar_graph_safe_bounded rows cols
                  num_nodes seed s I) as H.
    rewrite Hrun in H. by eapply returns_bounded_degree.
Qed.

(** * Capacity rejection and the restart policy *)

Section Capacity.
Context {W : World}.

(** The state right after [if seed is not None: random.seed(seed)]:
    nothing but the generator's seeding has happened. *)
Definition seeded (seed : option Z) (s : state) : state :=
  match seed with
  | Some sd => set_rng (rng_seed sd) s
  | None => s
  end.

Lemma reseed_run seed s : reseed seed s = (Ok tt, seeded seed s).
Proof. destruct seed; reflexivity. Qed.

Lemma prologue_capacity rows cols cfg num_nodes seed s :
  capacity_exceeded cfg num_nodes (rows * cols) = true ->
  prologue rows cols cfg num_nodes seed s = (Raise ValueError, seeded seed s).
Proof.
  intros Hc. unfold prologue, bind. rewrite reseed_run, Hc. reflexivity.
Qed.

Lemma generate_planar_graph_capacity rows cols cfg depth num_nodes seed s :
  capacity_exceeded cfg num_nodes (rows * cols) = true ->
  generate_planar_graph rows cols cfg (S depth) num_nodes seed s
  = (Raise ValueError, seeded seed s).
Proof.
  intros Hc. simpl. unfold bind at 1.
  by rewrite (prologue_capacity _ _ _ _ _ _ Hc).
Qed.

Lemma generate_planar_graph_safe_capacity rows cols num_nodes seed s :
  capacity_exceeded cfg_planar num_nodes (rows * cols) = true ->
  generate_planar_graph_safe rows cols num_nodes seed s
  = (Raise ValueError, seeded seed s).
Proof.
  intros Hc. unfold generate_planar_graph_safe, bind at 1.
  by rewrite (prologue_capacity _ _ _ _ _ _ Hc).
Qed.

End Capacity.

(** C8. [generate(2, 2, 5, seed)] raises the capacity error for every
    seed, under both capacity tests and in the safe generator; and whenever
    the capacity test fails the call raises from the state that seeding
    left: no sample has been drawn and no local (nodes, degrees, edges,
    visited sets) has been created or changed. *)
Theorem capacity_rejection {W : World} :
  (forall cfg depth seed s,
     generate_planar_graph 2 2 cfg (S depth) 5 seed s
     = (Raise ValueError, seeded seed s)) /\
  (forall seed s,
     generate_planar_graph_safe 2 2 5 seed s
     = (Raise ValueError, seeded seed s)) /\
  (forall rows cols cfg depth num_nodes seed s,
     capacity_exceeded cfg num_nodes (rows * cols) = true ->
     generate_planar_graph rows cols cfg (S depth) num_nodes seed s
     = (Raise ValueError, seeded seed s)) /\
  (forall rows cols num_nodes seed s,
     capacity_exceeded cfg_planar num_nodes (rows * cols) = true ->
     generate_planar_graph_safe rows cols num_nodes seed s
     = (Raise ValueError, seeded seed s)).
Proof.
  repeat split.
  - intros [[|] p] depth seed s;
      by apply generate_planar_graph_capacity.
  - intros seed s. by apply generate_planar_graph_safe_capacity.
  - intros *. apply generate_planar_graph_capacity.
  - intros *. apply generate_planar_graph_safe_capacity.
Qed.

Section Restart.
Context {W : World}.
Variables (rows cols : Z) (cfg : config) (num_nodes : Z).
Local Open Scope py_scope.

(** One pass of [generate_planar_graph] up to the end of its spanning
    loop: the placement it drew and whether the loop completed ([true])
    or asked for a restart ([false]). *)
Definition spanning_attempt (seed : option Z)
  : M ((list string * gmap string cell) * bool) :=
  np <- prologue rows cols cfg num_nodes seed ;;
  root <- pop_remaining ;;
  visited_add root ;;;
  ok <- span_loop rows cols np.2 (length np.1) ;;
  ret (np, ok).

Lemma generate_planar_graph_unfold depth seed s :
  generate_planar_graph rows cols cfg (S depth) num_nodes seed s =
  match spanning_attempt seed s with
  | (Ok (np, true), s1) =>
      (densify rows cols (edge_percent cfg) np.1 np.2 ;;;
       finish np.1 np.2) s1
  | (Ok (np, false), s1) =>
      generate_planar_graph rows cols cfg depth num_nodes seed s1
  | (Raise e, s1) => (Raise e, s1)
  end.
Proof.
  simpl. unfold spanning_attempt, bind.
  destruct (prologue rows cols cfg num_nodes seed s) as [[np|e] s1]; [|done].
  destruct (pop_remaining s1) as [[root|e] s2]; [|done].
  destruct (visited_add root s2) as [[u|e] s3]; [|done].
  destruct (span_loop rows cols np.2 (length np.1) s3) as [[[|]|e] s4]; done.
Qed.

(** With a seed, a pass that reaches the spanning loop does not depend on
    the state it starts from: seeding and the fresh locals overwrite all
    of it. *)
Lemma prologue_seeded_ok sd s s' np s1 :
  prologue rows cols cfg num_nodes (Some sd) s = (Ok np, s1) ->
  prologue rows cols cfg num_nodes (Some sd) s' = (Ok np, s1).
Proof.
  unfold prologue, bind, reseed, modify, py_sample, ret, raise. simpl.
  destruct (capacity_exceeded cfg num_nodes (rows * cols)); [done|].
  destruct (_ || _); [done|]. cbn.
  destruct (rng_sample (rng_seed sd) (all_cells rows cols)
              (Z.to_nat num_nodes)) as [l g]. cbn.
  intros H. exact H.
Qed.

Lemma spanning_attempt_seeded sd s s' r s1 :
  spanning_attempt (Some sd) s = (Ok r, s1) ->
  spanning_attempt (Some sd) s' = (Ok r, s1).
Proof.
  unfold spanning_attempt. intros H.
  apply bind_ok_inv in H as (np & s2 & Hp & H).
  by rewrite (bind_ok _ _ _ _ _ (prologue_seeded_ok sd s s' np s2 Hp)).
Qed.

End Restart.

(** C6. When a seeded call meets geometric isolation, its retry re-seeds
    the generator with the same seed and so repeats the same placement and
    the same failure, from whatever state it starts; the nested retries
    never return a graph and end in Python's [RecursionError] at any
    recursion limit. *)
Theorem seeded_retry_repeats {W : World} rows cols cfg num_nodes sd
    (s s1 : state) np :
  spanning_attempt rows cols cfg num_nodes (Some sd) s = (Ok (np, false), s1) ->
  (forall s', spanning_attempt rows cols cfg num_nodes (Some sd) s'
              = (Ok (np, false), s1)) /\
  (forall depth, exists s',
     generate_planar_graph rows cols cfg depth num_nodes (Some sd) s
     = (Raise RecursionError, s')).
Proof.
  intros Hfail. split.
  - intros s'. by apply (spanning_attempt_seeded _ _ _ _ _ s s').
  - intros depth. revert s Hfail.
    induction depth as [|depth IH]; intros s Hfail.
    + exists s. reflexivity.
    + rewrite generate_planar_graph_unfold, Hfail. apply IH.
      by apply (spanning_attempt_seeded _ _ _ _ _ s s1).
Qed.

(** * Concrete runs *)

(** On the 1 x 2 grid with two nodes the restart generator returns the
    one-edge graph. *)
Definition seeds_pair (_ : Z) : list nat := [0; 0]%nat.
Definition world_pair : World := script_world seeds_pair.

Lemma degree_bound_witness :
  exists G s',
    generate_planar_graph (W := world_pair) 1 2 cfg_planar 1 2 (Some 0)
      (fresh seeds_pair) = (Ok G, s') /\
    (incident_count "0" (g_edges G) <= 6)%nat.
Proof.
  eexists _, _. split; [vm_compute; reflexivity|].
  eapply (degree_bound (W := world_pair) 1 2 cfg_planar 1%nat 2 (Some 0)
            (fresh seeds_pair)).
  - left. vm_compute. reflexivity.
  - vm_compute. left.
Defined.

(** On the 1 x 3 grid the sample [(0,0); (0,2)] places two nodes on cells
    that are not hex neighbours. *)
Definition seeds_apart (_ : Z) : list nat := [0; 1]%nat.
Definition world_apart : World := script_world seeds_apart.

Lemma seeded_retry_repeats_witness :
  exists np s1,
    spanning_attempt (W := world_apart) 1 3 cfg_planar 2 (Some 1)
      (fresh seeds_apart) = (Ok (np, false), s1) /\
    np.2 !! "0" = Some (0, 0) /\ np.2 !! "1" = Some (0, 2) /\
    (forall s', spanning_attempt (W := world_apart) 1 3 cfg_planar 2
                  (Some 1) s' = (Ok (np, false), s1)) /\
    (forall depth, exists s',
       generate_planar_graph (W := world_apart) 1 3 cfg_planar depth 2
         (Some 1) (fresh seeds_apart) = (Raise RecursionError, s')).
Proof.
  eexists _, _. split; [vm_compute; reflexivity|].
  split; [vm_compute; reflexivity|]. split; [vm_compute; reflexivity|].
  apply (seeded_retry_repeats (W := world_apart) 1 3 cfg_planar 2 1
           (fresh seeds_apart)).
  vm_compute. reflexivity.
Defined.

(** C4. On the 1 x 3 grid with nodes placed on (0,0) and (0,2), the safe
    generator's last-resort step returns the edge ("0", "1") although
    neither cell lists the other as a hex neighbour. *)
Theorem safe_generator_nonadjacent_edge :
  exists G s',
    generate_planar_graph_safe (W := world_apart) 1 3 2 (Some 1)
      (fresh seeds_apart) = (Ok G, s') /\
    g_edges G = [("0", "1")] /\
    g_pos_map G !! "0" = Some (0, 0) /\
    g_pos_map G !! "1" = Some (0, 2) /\
    hex_neighbors 1 3 0 0 = [(0, 1)] /\
    hex_neighbors 1 3 0 2 = [(0, 1)] /\
    ~ adjacency_fidelity 1 3 G.
Proof.
  eexists _, _. split; [vm_compute; reflexivity|].
  repeat (split; [vm_compute; reflexivity|]).
  intros H.
  destruct (H "0" "1" (0, 0) (0, 2)) as [Hin _];
    [left | vm_compute; reflexivity | vm_compute; reflexivity |].
  vm_compute in Hin. apply list_elem_of_singleton in Hin. discriminate Hin.
Qed.

(** On the 1 x 35 grid, eight nodes on the columns 23, 0, 12, 34, 18, 28,
    21 and 25 (labels "0" to "7"): no two are hex neighbours, and each of
    "1" to "7" is nearest to "0" when its turn comes. *)
Definition seeds_far (_ : Z) : list nat :=
  [23; 0; 11; 31; 16; 24; 18; 20]%nat.
Definition world_far : World := script_world seeds_far.

(** C3. On that placement the safe generator returns a graph whose node
    "7" has no edge: "0" already has 6 edges when the last-resort step
    calls [add_edge("0", "7")], the call returns [False], and "7" is marked
    visited all the same.  A traversal from "0" does not visit "7". *)
Theorem safe_generator_disconnected :
  exists G s',
    generate_planar_graph_safe (W := world_far) 1 35 8 (Some 0)
      (fresh seeds_far) = (Ok G, s') /\
    g_nodes G = ["0"; "1"; "2"; "3"; "4"; "5"; "6"; "7"] /\
    (g_pos_map G !!.) <$> g_nodes G =
      Some <$> [(0, 23); (0, 0); (0, 12); (0, 34);
                (0, 18); (0, 28); (0, 21); (0, 25)] /\
    g_edges G ≡ₚ [("0", "1"); ("0", "2"); ("0", "3");
                  ("0", "4"); ("0", "5"); ("0", "6")] /\
    incident_count "7" (g_edges G) = 0%nat /\
    ("7" ∉ bfs_from G "0") /\
    ~ connected G.
Proof.
  eexists _, _. split; [vm_compute; reflexivity|].
  split; [vm_compute; reflexivity|].
  split; [vm_compute; reflexivity|].
  split; [apply (bool_decide_unpack _); vm_compute; exact I|].
  split; [vm_compute; reflexivity|].
  match goal with |- ?P /\ _ => assert P as Hn end.
  { apply (bool_decide_unpack _). vm_compute. exact I. }
  split; [exact Hn|].
  intros Hc. apply Hn, Hc; apply (bool_decide_unpack _); vm_compute; exact I.
Qed.

(** * The enable synthesizer *)

Import Synth.

Lemma to_uint_nonnil n : Nat.to_uint n <> Decimal.Nil.
Proof.
  rewrite <- (DecimalNat.Unsigned.of_to n) at 1.
  rewrite DecimalNat.Unsigned.to_of. apply DecimalFacts.unorm_nonnil.
Qed.

(** Every label [str(i)] is a non-empty string, hence true. *)
Lemma truthy_str i : truthy (Some (str i)) = true.
Proof.
  unfold str. pose proof (to_uint_nonnil i) as H.
  destruct (Nat.to_uint i); [done|reflexivity..].
Qed.

Lemma str_inj i j : str i = str j -> i = j.
Proof.
  unfold str. intros H. apply DecimalNat.Unsigned.to_uint_inj.
  apply (f_equal NilEmpty.uint_of_string) in H.
  rewrite !NilEmpty.usu in H. congruence.
Qed.

Lemma ltb_asym a b : String.ltb a b = true -> String.ltb b a = false.
Proof.
  unfold String.ltb. rewrite (String.compare_antisym b a).
  destruct (String.compare a b); simpl; congruence.
Qed.

Lemma ltb_total a b :
  String.ltb a b = false -> String.ltb b a = false -> a = b.
Proof.
  unfold String.ltb. rewrite (String.compare_antisym b a).
  destruct (String.compare a b) eqn:E; simpl; try congruence.
  intros _ _. by apply String.compare_eq_iff.
Qed.

Lemma sorted2_swap a b : sorted2 a b = sorted2 b a.
Proof.
  unfold sorted2.
  destruct (String.ltb b a) eqn:E1, (String.ltb a b) eqn:E2; try reflexivity.
  - apply ltb_asym in E1. congruence.
  - by rewrite (ltb_total a b E2 E1).
Qed.

(** [sorted] identifies exactly the two orientations of a pair. *)
Lemma sorted2_eq a b c d :
  sorted2 a b = sorted2 c d <-> (a = c /\ b = d) \/ (a = d /\ b = c).
Proof.
  split.
  - destruct (sorted2_cases a b) as [-> | ->],
             (sorted2_cases c d) as [-> | ->]; intros [= <- <-]; auto.
  - intros [[-> ->] | [-> ->]]; [reflexivity | apply sorted2_swap].
Qed.

Lemma elem_edge_set edges a b :
  sorted2 a b ∈ edge_set edges <-> (a, b) ∈ edges \/ (b, a) ∈ edges.
Proof.
  unfold edge_set. rewrite elem_of_list_to_set, list_elem_of_fmap. split.
  - intros [[c d] [He Hin]]. simpl in He.
    apply sorted2_eq in He as [[-> ->] | [-> ->]]; auto.
  - intros [H|H].
    + by exists (a, b).
    + exists (b, a). split; [apply sorted2_swap | done].
Qed.

Lemma make_rev_total pos_map nodes acc :
  (forall a, a ∈ nodes -> is_Some (pos_map !! a)) ->
  exists rev, make_rev pos_map nodes acc = Ok rev.
Proof.
  revert acc. induction nodes as [|n l IH]; intros acc Hp; simpl; [eauto|].
  destruct (Hp n) as [p ->]; [left|].
  apply IH. intros a Ha. apply Hp. by right.
Qed.

(** The reverse map sends a cell to a node placed on it, when there is
    one among [nodes]. *)
Lemma make_rev_lookup pos_map nodes acc rev p :
  make_rev pos_map nodes acc = Ok rev ->
  (rev !! p = acc !! p /\ forall b, b ∈ nodes -> pos_map !! b <> Some p) \/
  (exists b, rev !! p = Some b /\ b ∈ nodes /\ pos_map !! b = Some p).
Proof.
  revert acc. induction nodes as [|n l IH]; intros acc; simpl.
  - intros [= ->]. left. split; [done|]. intros b Hb. inversion Hb.
  - destruct (pos_map !! n) as [pn|] eqn:Hn; [|discriminate].
    intros Hrun. destruct (IH _ Hrun) as [[Hacc Hno] | (b & Hb & Hin & Hpb)].
    + destruct (decide (pn = p)) as [->|Hne].
      * right. exists n. rewrite Hacc, lookup_insert_eq.
        split; [done|]. split; [left | done].
      * left. rewrite Hacc, lookup_insert_ne by done. split; [done|].
        intros b Hb. apply elem_of_cons in Hb as [->|Hb]; [congruence|auto].
    + right. exists b. split; [done|]. split; [by right | done].
Qed.

Lemma make_rev_spec nodes pos_map rev p a :
  completed nodes pos_map ->
  make_rev pos_map nodes ∅ = Ok rev ->
  rev !! p = Some a <-> a ∈ nodes /\ pos_map !! a = Some p.
Proof.
  intros Hc Hrun.
  destruct (make_rev_lookup _ _ _ _ p Hrun) as [[Hacc Hno] | (b & Hb & Hin & Hpb)].
  - rewrite Hacc, lookup_empty. split; [discriminate|].
    intros [Ha Hp]. by destruct (Hno a Ha).
  - rewrite Hb. split.
    + intros [= <-]. done.
    + intros [Ha Hp]. f_equal.
      exact (completed_distinct _ _ Hc b a p Hin Ha Hpb Hp).
Qed.

Lemma elem_range n x : x ∈ range n <-> 0 <= x < n.
Proof.
  unfold range. rewrite list_elem_of_In, in_map_iff.
  setoid_rewrite in_seq. split.
  - intros (k & <- & Hk). lia.
  - intros Hx. exists (Z.to_nat x). lia.
Qed.

Lemma elem_all_cells rows cols p :
  p ∈ all_cells rows cols <-> in_grid rows cols p = true.
Proof.
  destruct p as [r c]. rewrite in_grid_spec. unfold all_cells.
  rewrite list_elem_of_bind. split.
  - intros (r' & Hin & Hr). apply list_elem_of_bind in Hin as (c' & Hin & Hc).
    apply list_elem_of_singleton in Hin as [= -> ->].
    by rewrite <- !elem_range.
  - intros [Hr Hc]. exists r. split; [|by apply elem_range].
    apply list_elem_of_bind. exists c. split; [|by apply elem_range].
    by apply list_elem_of_singleton.
Qed.

Lemma pair_enable_coupled w nodes edges pos_map rev q :
  completed nodes pos_map ->
  make_rev pos_map nodes ∅ = Ok rev ->
  let on := pair_enable w (edge_set edges) (rev !! q.1) (rev !! q.2) in
  (on = 1 <-> coupled nodes edges pos_map q) /\ (on = 0 \/ on = 1).
Proof.
  intros Hc Hrun on.
  assert (forall u, rev !! q.1 = Some u -> truthy (Some u) = true) as Ht1.
  { intros u Hu. apply (make_rev_spec _ _ _ _ _ Hc Hrun) in Hu as [Hu _].
    destruct (completed_labels _ _ Hc) as [n ->].
    apply list_elem_of_fmap in Hu as (i & -> & _). apply truthy_str. }
  assert (forall u, rev !! q.2 = Some u -> truthy (Some u) = true) as Ht2.
  { intros u Hu. apply (make_rev_spec _ _ _ _ _ Hc Hrun) in Hu as [Hu _].
    destruct (completed_labels _ _ Hc) as [n ->].
    apply list_elem_of_fmap in Hu as (i & -> & _). apply truthy_str. }
  assert (on = on_not_none (edge_set edges) (rev !! q.1) (rev !! q.2)) as ->.
  { subst on. destruct w; simpl; try reflexivity; unfold on_truthy;
      (destruct (rev !! q.1) as [u|] eqn:Hu; [rewrite (Ht1 u eq_refl)|done]);
      (destruct (rev !! q.2) as [v|] eqn:Hv; [rewrite (Ht2 v eq_refl)|done]);
      reflexivity. }
  unfold on_not_none, coupled.
  destruct (rev !! q.1) as [u|] eqn:Hu.
  2:{ split; [|by left]. split; [discriminate|].
      intros (a & b & Ha & _ & Hpa & _).
      assert (rev !! q.1 = Some a) as Hra
        by (apply (make_rev_spec _ _ _ _ _ Hc Hrun); done).
      congruence. }
  destruct (rev !! q.2) as [v|] eqn:Hv.
  2:{ split; [|by left]. split; [discriminate|].
      intros (a & b & _ & Hb & _ & Hpb & _).
      assert (rev !! q.2 = Some b) as Hrb
        by (apply (make_rev_spec _ _ _ _ _ Hc Hrun); done).
      congruence. }
  apply (make_rev_spec _ _ _ _ _ Hc Hrun) in Hu as [Hu Hpu].
  apply (make_rev_spec _ _ _ _ _ Hc Hrun) in Hv as [Hv Hpv].
  case_bool_decide as He.
  - split; [|by right]. split; [|done]. intros _.
    exists u, v. repeat split; try done. by apply elem_edge_set.
  - split; [|by left]. split; [discriminate|].
    intros (a & b & Ha & Hb & Hpa & Hpb & Hab). exfalso. apply He.
    rewrite (completed_distinct _ _ Hc u a _ Hu Ha Hpu Hpa).
    rewrite (completed_distinct _ _ Hc v b _ Hv Hb Hpv Hpb).
    by apply elem_edge_set.
Qed.

Definition nodes_single : list string := ["0"%string].
Definition pos_single : gmap string cell := <["0"%string := (0, 0)]> ∅.

(** C7, as stated, fails for two of the three writers: on a 1 x 2 grid
    with one node on cell (0, 0), [planar.py] writes 1 for the empty cell
    (0, 1). *)
Lemma cell_enable_unoccupied_on :
  exists ro cp,
    write_testbench Planar 1 2 nodes_single [] pos_single = Ok (ro, cp) /\
    ((0, 1), 1) ∈ ro /\
    ~ occupied nodes_single pos_single (0, 1).
Proof.
  eexists _, _. split; [vm_compute; reflexivity|]. split.
  - right. left.
  - intros (a & Ha & Hp). apply list_elem_of_singleton in Ha as ->.
    vm_compute in Hp. congruence.
Qed.

(** C7, amended. Every writer emits one value per cell of the rows x cols
    grid, in row-major order.  In [11x11_imp/planar.py] the value is 1
    exactly when a node of the graph occupies the cell and 0 otherwise; in
    [planar.py] and [planar_graph_tool_with_testbench.py] it is 1 for
    every cell, occupied or not. *)
Theorem cell_enable_by_writer w rows cols nodes edges pos_map :
  (forall a, a ∈ nodes -> is_Some (pos_map !! a)) ->
  exists ro cp,
    write_testbench w rows cols nodes edges pos_map = Ok (ro, cp) /\
    ro.*1 = all_cells rows cols /\
    (forall p, p ∈ ro.*1 <-> in_grid rows cols p = true) /\
    forall p v, (p, v) ∈ ro ->
      match w with
      | Planar11 => (v = 1 <-> occupied nodes pos_map p) /\ (v = 0 \/ v = 1)
      | Planar | ToolWithTestbench => v = 1
      end.
Proof.
  intros Hp. unfold write_testbench.
  destruct (make_rev_total pos_map nodes ∅ Hp) as [rev Hrun].
  rewrite Hrun. eexists _, _. split; [reflexivity|].
  assert (((fun p => (p, cell_enable w nodes rev p)) <$> all_cells rows cols).*1
          = all_cells rows cols) as Hfst.
  { rewrite <- list_fmap_compose. apply list_fmap_id. }
  split; [exact Hfst|]. split.
  - intros p. rewrite Hfst. apply elem_all_cells.
  - intros p v Hin. apply list_elem_of_fmap in Hin as (p' & [= -> ->] & _).
    destruct w; simpl; try reflexivity.
    destruct (make_rev_lookup _ _ _ _ p' Hrun)
      as [[Hacc Hno] | (b & Hb & Hin & Hpb)].
    + rewrite Hacc, lookup_empty. split; [|by left].
      split; [discriminate|]. intros (a & Ha & Hpa). by destruct (Hno a Ha).
    + rewrite Hb. rewrite bool_decide_eq_true_2 by done.
      split; [|by right]. split; [|done]. intros _. by exists b.
Qed.

Lemma cell_enable_by_writer_witness :
  exists ro cp,
    write_testbench Planar11 1 2 nodes_single [] pos_single = Ok (ro, cp) /\
    ro.*1 = all_cells 1 2 /\
    (forall p, p ∈ ro.*1 <-> in_grid 1 2 p = true) /\
    forall p v, (p, v) ∈ ro ->
      (v = 1 <-> occupied nodes_single pos_single p) /\ (v = 0 \/ v = 1).
Proof.
  apply (cell_enable_by_writer Planar11 1 2 nodes_single [] pos_single).
  intros a Ha. apply list_elem_of_singleton in Ha as ->. by eexists.
Defined.

(** * The netlist verifier *)

Import Verifier.

(** C9. The parsers do raise on a truncated line that carries the
    subcircuit tag and a well-formed instance name: [tokens[8]], and
    [tokens[2]] and [tokens[3]], are read without a check of the number of
    tokens. *)
Theorem parsers_raise_on_truncated_line :
  parse_ring_instance "XRO_0_0 RING_OSC" = Raise IndexError /\
  parse_coupler_instance "XCPL_1_2__1_3 COUPLING" = Raise IndexError.
Proof. split; vm_compute; reflexivity. Qed.

(** * Further properties of the neighbour rule *)

Section HexShape.
Import Hex.
Variables (rows cols : Z).

Lemma in_grid_near r c rr cc :
  0 < r < rows - 1 -> 0 < c < cols - 1 ->
  r - 1 <= rr <= r + 1 -> c - 1 <= cc <= c + 1 ->
  in_grid rows cols (rr, cc) = true.
Proof. intros. apply in_grid_spec. lia. Qed.

Lemma hex_candidates_nodup (r c : Z) (b : bool) :
  List.NoDup (if b
              then [ (r, c - 1); (r, c + 1); (r - 1, c - 1); (r - 1, c);
                     (r + 1, c - 1); (r + 1, c) ]
              else [ (r, c - 1); (r, c + 1); (r - 1, c); (r - 1, c + 1);
                     (r + 1, c); (r + 1, c + 1) ]).
Proof.
  destruct b; repeat (apply List.NoDup_cons; [simpl|]);
    try apply List.NoDup_nil;
    repeat setoid_rewrite pair_equal_spec; lia.
Qed.

(** The rule lists each neighbour once, at most six of them, never the
    cell itself and never a cell off the grid or more than one row or
    column away. *)
Theorem hex_neighbors_wellformed r c :
  List.NoDup (hex_neighbors rows cols r c) /\
  (length (hex_neighbors rows cols r c) <= 6)%nat /\
  forall rr cc, In (rr, cc) (hex_neighbors rows cols r c) ->
    in_grid rows cols (rr, cc) = true /\ (rr, cc) <> (r, c) /\
    -1 <= rr - r <= 1 /\ -1 <= cc - c <= 1.
Proof.
  split; [|split].
  - unfold hex_neighbors. apply List.NoDup_filter, hex_candidates_nodup.
  - unfold hex_neighbors.
    etransitivity; [apply List.filter_length_le|].
    destruct (r mod 2 =? 0); simpl; lia.
  - intros rr cc Hin. apply elem_hex_neighbors in Hin as [Hg Ho].
    rewrite in_grid_spec, pair_equal_spec. unfold hex_offset in Ho. lia.
Qed.

(** A cell has all six neighbours exactly when it is off the border of the
    grid. *)
Theorem hex_neighbors_six_iff r c :
  length (hex_neighbors rows cols r c) = 6%nat <->
  0 < r < rows - 1 /\ 0 < c < cols - 1.
Proof.
  split.
  - unfold hex_neighbors.
    destruct (r mod 2 =? 0);
      cbn [List.filter];
      repeat match goal with
             | |- context [in_grid rows cols (?a, ?b)] =>
               let E := fresh "E" in
               destruct (in_grid rows cols (a, b)) eqn:E;
               [apply in_grid_spec in E | clear E]
             end;
      simpl; intros H; try discriminate H; lia.
  - intros [Hr Hc]. unfold hex_neighbors.
    destruct (r mod 2 =? 0); cbn [List.filter];
      rewrite !(in_grid_near r c) by lia; reflexivity.
Qed.

(** The verifier's [expected_neighbors] and the generators'
    [hex_neighbors] list the same cells at every cell of the grid exactly
    when the grid has at most one row or at most one column. *)
Theorem expected_neighbors_agree_iff :
  (forall r c, in_grid rows cols (r, c) = true ->
     same_cells (expected_neighbors rows cols r c)
                (hex_neighbors rows cols r c))
  <-> rows <= 1 \/ cols <= 1.
Proof.
  split.
  - intros H. destruct (Z_le_gt_dec rows 1) as [|Hr]; [by left|].
    destruct (Z_le_gt_dec cols 1) as [|Hc]; [by right|]. exfalso.
    assert (in_grid rows cols (0, 0) = true) as H0
      by (apply in_grid_spec; lia).
    specialize (H 0 0 H0 (1, 1)).
    rewrite expected_neighbors_swapped, elem_hex_neighbors in H.
    unfold hex_offset in H. change (0 mod 2) with 0 in H.
    assert ((0 <= 1 < rows /\ 0 <= 1 < cols) /\
            (0 = 0 /\ (1 = 0 /\ (1 = 0 - 1 \/ 1 = 0 + 1) \/
                       (1 = 0 - 1 \/ 1 = 0 + 1) /\ (1 = 0 - 1 \/ 1 = 0)) \/
             0 <> 0 /\ (1 = 0 /\ (1 = 0 - 1 \/ 1 = 0 + 1) \/
                        (1 = 0 - 1 \/ 1 = 0 + 1) /\ (1 = 0 \/ 1 = 0 + 1))))
      as Hbad by (apply H; lia).
    lia.
  - intros Hsmall r c Hg [rr cc]. apply in_grid_spec in Hg.
    rewrite expected_neighbors_swapped, elem_hex_neighbors.
    unfold hex_offset. lia.
Qed.

End HexShape.

(** * Further properties of the testbench writer *)

Section WriterErrors.
Import Hex Py Synth.

Lemma make_rev_raise pos_map nodes acc e :
  make_rev pos_map nodes acc = Raise e ->
  e = KeyError /\ exists a, a ∈ nodes /\ pos_map !! a = None.
Proof.
  revert acc. induction nodes as [|n l IH]; intros acc; simpl; [discriminate|].
  destruct (pos_map !! n) as [p|] eqn:Hn.
  - intros H. destruct (IH _ H) as [-> (a & Ha & Hpa)].
    split; [done|]. exists a. split; [by right | done].
  - intros [= <-]. split; [done|]. exists n. split; [left | done].
Qed.

Lemma make_rev_missing pos_map nodes acc a :
  a ∈ nodes -> pos_map !! a = None ->
  make_rev pos_map nodes acc = Raise KeyError.
Proof.
  revert acc. induction nodes as [|n l IH]; intros acc Ha Hpa; simpl;
    [inversion Ha|].
  apply elem_of_cons in Ha as [<-|Ha]; [by rewrite Hpa|].
  destruct (pos_map !! n); [by apply IH | done].
Qed.

(** The writers raise [KeyError], while they build the reverse map and
    before they open the output file, exactly when some node of the list
    has no entry in [pos_map]. *)
Theorem write_testbench_keyerror_iff w rows cols nodes edges pos_map :
  write_testbench w rows cols nodes edges pos_map = Raise KeyError <->
  exists a, a ∈ nodes /\ pos_map !! a = None.
Proof.
  unfold write_testbench. split.
  - destruct (make_rev pos_map nodes ∅) as [rev|e0] eqn:Hrun; [discriminate|].
    intros _. by destruct (make_rev_raise _ _ _ _ Hrun) as [_ ?].
  - intros (a & Ha & Hpa). by rewrite (make_rev_missing _ _ _ a Ha Hpa).
Qed.

End WriterErrors.

(** ** The canonical coupler sites *)

Section CouplerSites.
Import Hex Py Synth.
Variables (rows cols : Z).

(** The order of Python tuples on cells. *)
Definition cell_lt (p q : cell) : Prop :=
  p.1 < q.1 \/ (p.1 = q.1 /\ p.2 < q.2).

Lemma cell_lt_irrefl p : ~ cell_lt p p.
Proof. unfold cell_lt. lia. Qed.

Lemma cell_lt_asym p q : cell_lt p q -> ~ cell_lt q p.
Proof. unfold cell_lt. lia. Qed.

Lemma seq_sorted a k : StronglySorted Z.lt (List.map Z.of_nat (seq a k)).
Proof.
  revert a. induction k as [|k IH]; intros a; simpl; constructor.
  - apply IH.
  - apply Forall_forall. intros x Hx.
    apply list_elem_of_In, in_map_iff in Hx as (i & <- & Hi).
    apply in_seq in Hi. lia.
Qed.

Lemma bind_sorted {A B} (R' : relation A) (R : relation B)
    (f : A -> list B) (l : list A) :
  StronglySorted R' l ->
  (forall x, StronglySorted R (f x)) ->
  (forall x y a b, R' x y -> a ∈ f x -> b ∈ f y -> R a b) ->
  StronglySorted R (l ≫= f).
Proof.
  intros Hl Hf Hlt. induction Hl as [|x l Hl IH Hx]; simpl; [constructor|].
  apply StronglySorted_app_2; [|apply Hf|apply IH].
  intros a b Ha Hb. apply list_elem_of_bind in Hb as (y & Hb & Hy).
  rewrite Forall_forall in Hx. by apply (Hlt x y); [apply Hx|..].
Qed.

(** The grid is enumerated in increasing tuple order. *)
Lemma all_cells_sorted : StronglySorted cell_lt (all_cells rows cols).
Proof.
  unfold all_cells.
  apply (bind_sorted Z.lt); [apply seq_sorted| |].
  - intros r. apply (bind_sorted Z.lt); [apply seq_sorted| |].
    + intros c. repeat constructor.
    + intros c c' a b Hlt Ha Hb.
      apply list_elem_of_singleton in Ha as ->.
      apply list_elem_of_singleton in Hb as ->. right. simpl. lia.
  - intros r r' a b Hlt Ha Hb.
    apply list_elem_of_bind in Ha as (c & Ha & _).
    apply list_elem_of_bind in Hb as (c' & Hb & _).
    apply list_elem_of_singleton in Ha as ->.
    apply list_elem_of_singleton in Hb as ->. left. simpl. lia.
Qed.

(** The body of the two inner loops for one cell [p]. *)
Definition add_sites (p : cell) (acc : list site) (qs : list cell)
  : list site :=
  foldl (fun acc q => if bool_decide ((q, p) ∈ acc) then acc
                      else acc ++ [(p, q)]) acc qs.

Lemma elem_add_sites p qs : forall acc x,
  (forall q, q ∈ qs -> q <> p) ->
  x ∈ add_sites p acc qs <->
  x ∈ acc \/ exists q, q ∈ qs /\ x = (p, q) /\ (q, p) ∉ acc.
Proof.
  induction qs as [|q0 qs IH]; intros acc x Hne; simpl.
  - split; [by left|]. intros [H|(q & Hq & _)]; [done|inversion Hq].
  - assert (forall q, q ∈ qs -> q <> p) as Hne'
      by (intros q Hq; apply Hne; by right).
    assert (q0 <> p) as Hq0 by (apply Hne; left).
    change (foldl _ ?a qs) with (add_sites p a qs).
    rewrite (IH _ _ Hne'). case_bool_decide as Hin.
    + split.
      * intros [H|(q & Hq & Hx & Hn)]; [by left|].
        right. exists q. split; [by right | done].
      * intros [H|(q & Hq & Hx & Hn)]; [by left|].
        apply elem_of_cons in Hq as [->|Hq]; [done|].
        right. by exists q.
    + split.
      * intros [H|(q & Hq & Hx & Hn)].
        -- apply elem_of_app in H as [H|H]; [by left|].
           apply list_elem_of_singleton in H. right. exists q0.
           split; [left | done].
        -- right. exists q. split; [by right|]. split; [done|].
           intros Hc. apply Hn, elem_of_app. by left.
      * intros [H|(q & Hq & Hx & Hn)].
        -- left. apply elem_of_app. by left.
        -- apply elem_of_cons in Hq as [->|Hq].
           ++ left. apply elem_of_app. right. by apply list_elem_of_singleton.
           ++ right. exists q. split; [done|]. split; [done|].
              intros Hc. apply elem_of_app in Hc as [Hc|Hc]; [done|].
              apply list_elem_of_singleton in Hc as [= -> ->]. by apply Hq0.
Qed.

Lemma nodup_add_sites p qs : forall acc,
  NoDup acc -> NoDup qs ->
  (forall q, q ∈ qs -> (p, q) ∉ acc) ->
  NoDup (add_sites p acc qs).
Proof.
  induction qs as [|q0 qs IH]; intros acc Hacc Hqs Hfresh; simpl; [done|].
  apply NoDup_cons in Hqs as [Hq0 Hqs].
  change (foldl _ ?a qs) with (add_sites p a qs). apply IH; [|done|].
  - case_bool_decide; [done|]. apply NoDup_app. split; [done|].
    split; [|apply NoDup_singleton].
    intros x Hx Hx'. apply list_elem_of_singleton in Hx' as ->.
    apply (Hfresh q0); [left | done].
  - intros q Hq. case_bool_decide; [apply Hfresh; by right|].
    intros Hc. apply elem_of_app in Hc as [Hc|Hc].
    + apply (Hfresh q); [by right | done].
    + apply list_elem_of_singleton in Hc as [= ->]. done.
Qed.

End CouplerSites.

Section CouplerCanon.
Import Hex Py Synth.
Variables (rows cols : Z).

(** The sites collected once the cells of [done] have been processed. *)
Definition sites_upto (done : list cell) : list site :=
  foldl (fun acc p => add_sites p acc (hex_neighbors rows cols p.1 p.2))
        [] done.

Lemma hex_neighbors_elem p q :
  q ∈ hex_neighbors rows cols p.1 p.2 <->
  in_grid rows cols q = true /\ hex_offset p.1 p.2 q.1 q.2.
Proof.
  destruct p as [r c], q as [rr cc]. simpl.
  by rewrite list_elem_of_In, elem_hex_neighbors, in_grid_spec.
Qed.

Lemma hex_neighbors_ne p q : q ∈ hex_neighbors rows cols p.1 p.2 -> q <> p.
Proof.
  intros [_ Ho]%hex_neighbors_elem ->. unfold hex_offset in Ho. lia.
Qed.

Lemma hex_neighbors_flip p q :
  in_grid rows cols p = true ->
  q ∈ hex_neighbors rows cols p.1 p.2 ->
  p ∈ hex_neighbors rows cols q.1 q.2.
Proof.
  intros Hp [Hq Ho]%hex_neighbors_elem. apply hex_neighbors_elem.
  split; [done|]. by apply hex_offset_sym.
Qed.

Lemma hex_neighbors_nodup r c : NoDup (hex_neighbors rows cols r c).
Proof.
  unfold hex_neighbors.
  apply NoDup_ListNoDup, List.NoDup_filter, hex_candidates_nodup.
Qed.

Lemma cell_lt_total p q : p <> q -> cell_lt p q \/ cell_lt q p.
Proof.
  destruct p as [r c], q as [rr cc]. unfold cell_lt. simpl. intros Hne.
  destruct (Z.eq_dec r rr) as [->|], (Z.eq_dec c cc) as [->|];
    [done|lia..].
Qed.

Lemma sites_upto_spec done : forall rest,
  all_cells rows cols = done ++ rest ->
  NoDup (sites_upto done) /\
  forall p q, (p, q) ∈ sites_upto done <->
    p ∈ done /\ q ∈ hex_neighbors rows cols p.1 p.2 /\ cell_lt p q.
Proof.
  induction done as [|x done IH] using rev_ind; intros rest Hsplit.
  - split; [constructor|]. intros p q. split; [inversion 1|].
    intros [H _]. inversion H.
  - rewrite <- app_assoc in Hsplit. simpl in Hsplit.
    destruct (IH _ Hsplit) as [Hnd Hmem].
    unfold sites_upto. rewrite foldl_app. simpl. fold (sites_upto done).
    pose proof (all_cells_sorted rows cols) as Hsorted.
    rewrite Hsplit in Hsorted.
    apply StronglySorted_app in Hsorted as (Hbefore & _ & Htail).
    apply StronglySorted_cons in Htail as [Hafter _].
    rewrite Forall_forall in Hafter.
    assert (in_grid rows cols x = true) as Hx.
    { apply elem_all_cells. rewrite Hsplit, elem_of_app. right. left. }
    assert (x ∉ done) as Hfresh.
    { intros Hin. apply (cell_lt_irrefl x), Hbefore; [done|left]. }
    split.
    + apply nodup_add_sites; [done|apply hex_neighbors_nodup|].
      intros q _ Hc. apply Hmem in Hc as [Hc _]. done.
    + intros p q. rewrite elem_add_sites by apply hex_neighbors_ne.
      rewrite Hmem. split.
      * intros [(Hp & Hq & Hlt) | (q' & Hq' & [= -> ->] & Hn)].
        { split; [apply elem_of_app; by left | done]. }
        split; [apply elem_of_app; right; by apply list_elem_of_singleton|].
        split; [done|].
        assert (q' ∈ done ++ x :: rest) as Hin.
        { rewrite <- Hsplit. apply elem_all_cells.
          by apply hex_neighbors_elem in Hq' as [? _]. }
        apply elem_of_app in Hin as [Hin|Hin].
        -- exfalso. apply Hn, Hmem. split; [done|].
           split; [by apply hex_neighbors_flip|]. apply Hbefore; [done|left].
        -- apply elem_of_cons in Hin as [->|Hin]; [|by apply Hafter].
           by destruct (hex_neighbors_ne x x).
      * intros (Hp & Hq & Hlt). apply elem_of_app in Hp as [Hp|Hp].
        { by left. }
        apply list_elem_of_singleton in Hp as ->. right. exists q.
        split; [done|]. split; [done|]. intros Hc.
        apply Hmem in Hc as (_ & _ & Hlt'). by apply (cell_lt_asym x q).
Qed.

Lemma elem_coupler_pairs p q :
  (p, q) ∈ coupler_pairs rows cols <->
  in_grid rows cols p = true /\
  q ∈ hex_neighbors rows cols p.1 p.2 /\ cell_lt p q.
Proof.
  change (coupler_pairs rows cols) with (sites_upto (all_cells rows cols)).
  destruct (sites_upto_spec (all_cells rows cols) [] (eq_sym (app_nil_r _)))
    as [_ ->].
  by rewrite elem_all_cells.
Qed.

Lemma coupler_pairs_nodup : NoDup (coupler_pairs rows cols).
Proof.
  change (coupler_pairs rows cols) with (sites_upto (all_cells rows cols)).
  by destruct (sites_upto_spec (all_cells rows cols) [] (eq_sym (app_nil_r _))).
Qed.

End CouplerCanon.

#[export] Instance site_le_total : Total site_le.
Proof.
  intros [[a1 a2] [a3 a4]] [[b1 b2] [b3 b4]]. unfold site_le. simpl. lia.
Qed.

#[export] Instance site_le_trans : Transitive site_le.
Proof.
  intros [[a1 a2] [a3 a4]] [[b1 b2] [b3 b4]] [[c1 c2] [c3 c4]].
  unfold site_le. simpl. lia.
Qed.

#[export] Instance site_le_antisym : AntiSymm (=) site_le.
Proof.
  intros [[a1 a2] [a3 a4]] [[b1 b2] [b3 b4]]. unfold site_le. simpl.
  intros H1 H2. repeat f_equal; lia.
Qed.

(** The coupler lines of a testbench: one site for every pair of
    neighbouring cells of the grid, oriented from the smaller cell to the
    larger one in tuple order, each once, in increasing order. *)
Theorem coupler_sites_canonical rows cols :
  let sites := sorted_sites (coupler_pairs rows cols) in
  NoDup sites /\ Sorted site_le sites /\
  (forall p q, (p, q) ∈ sites <->
     in_grid rows cols p = true /\
     q ∈ hex_neighbors rows cols p.1 p.2 /\ cell_lt p q) /\
  (forall p q, in_grid rows cols p = true ->
     q ∈ hex_neighbors rows cols p.1 p.2 ->
     ((p, q) ∈ sites /\ (q, p) ∉ sites) \/
     ((q, p) ∈ sites /\ (p, q) ∉ sites)).
Proof.
  intros sites.
  assert (sites ≡ₚ coupler_pairs rows cols) as Hperm
    by apply merge_sort_Permutation.
  assert (forall p q, (p, q) ∈ sites <->
     in_grid rows cols p = true /\
     q ∈ hex_neighbors rows cols p.1 p.2 /\ cell_lt p q) as Hmem.
  { intros p q. rewrite Hperm. apply elem_coupler_pairs. }
  split; [rewrite Hperm; apply coupler_pairs_nodup|].
  split; [apply Sorted_merge_sort, _|]. split; [exact Hmem|].
  intros p q Hp Hq. rewrite !Hmem.
  assert (in_grid rows cols q = true) as Hq'
    by (by apply hex_neighbors_elem in Hq as [? _]).
  pose proof (hex_neighbors_flip rows cols p q Hp Hq) as Hflip.
  destruct (cell_lt_total q p (hex_neighbors_ne rows cols p q Hq)) as [Hlt|Hlt].
  - right. split; [done|]. intros (_ & _ & Hc). by apply (cell_lt_asym q p).
  - left. split; [done|]. intros (_ & _ & Hc). by apply (cell_lt_asym p q).
Qed.

(** * The coupler enables of a completed graph *)

Import Synth.

Lemma coupled_flip nodes edges pos_map p q :
  coupled nodes edges pos_map (p, q) <-> coupled nodes edges pos_map (q, p).
Proof.
  unfold coupled. simpl. split; intros (a & b & Ha & Hb & Hpa & Hpb & He);
    exists b, a; repeat split; try done; by destruct He; [right | left].
Qed.

(** C2. For a completed graph every testbench writer emits the coupler
    enables over the canonical sites in sorted order: each site is a pair
    of hex-neighbouring grid cells, no site is listed twice, and every
    pair of hex-neighbouring grid cells has its entry, in one of its two
    orientations.  The value of an entry is 1 exactly when both cells hold
    nodes of the graph and an edge joins their labels, and 0 otherwise.
    The label "0" is a non-empty string and counts as present like every
    other label. *)
Theorem pair_enable_correct w rows cols nodes edges pos_map :
  completed nodes pos_map ->
  exists ro cp,
    write_testbench w rows cols nodes edges pos_map = Ok (ro, cp) /\
    cp.*1 = sorted_sites (coupler_pairs rows cols) /\
    NoDup (cp.*1) /\
    (forall p q, (p, q) ∈ cp.*1 ->
       in_grid rows cols p = true /\
       q ∈ hex_neighbors rows cols p.1 p.2) /\
    (forall p q, in_grid rows cols p = true ->
       q ∈ hex_neighbors rows cols p.1 p.2 ->
       exists on, (((p, q), on) ∈ cp \/ ((q, p), on) ∈ cp) /\
                  (on = 1 <-> coupled nodes edges pos_map (p, q)) /\
                  (on = 0 \/ on = 1)) /\
    forall q on, (q, on) ∈ cp ->
      (on = 1 <-> coupled nodes edges pos_map q) /\ (on = 0 \/ on = 1).
Proof.
  intros Hc. unfold write_testbench.
  destruct (make_rev_total pos_map nodes ∅ (completed_placed _ _ Hc))
    as [rev Hrun].
  rewrite Hrun.
  set (sites := sorted_sites (coupler_pairs rows cols)).
  set (line := fun q : site =>
         (q, pair_enable w (edge_set edges) (rev !! q.1) (rev !! q.2))).
  exists ((fun p => (p, cell_enable w nodes rev p)) <$> all_cells rows cols),
         (line <$> sites).
  split; [reflexivity|].
  assert ((line <$> sites).*1 = sites) as Hfst.
  { rewrite <- list_fmap_compose. apply list_fmap_id. }
  assert (sites ≡ₚ coupler_pairs rows cols) as Hperm
    by apply merge_sort_Permutation.
  assert (forall p q, (p, q) ∈ sites <->
     in_grid rows cols p = true /\
     q ∈ hex_neighbors rows cols p.1 p.2 /\ cell_lt p q) as Hmem.
  { intros p q. rewrite Hperm. apply elem_coupler_pairs. }
  split; [exact Hfst|]. rewrite Hfst.
  split; [rewrite Hperm; apply coupler_pairs_nodup|].
  split; [intros p q Hin; apply Hmem in Hin; tauto|].
  split.
  - intros p q Hp Hq.
    assert (in_grid rows cols q = true) as Hq'
      by (by apply hex_neighbors_elem in Hq as [? _]).
    pose proof (hex_neighbors_flip rows cols p q Hp Hq) as Hflip.
    destruct (cell_lt_total q p (hex_neighbors_ne rows cols p q Hq))
      as [Hlt|Hlt].
    + exists (line (q, p)).2. split.
      * right. apply list_elem_of_fmap. exists (q, p).
        split; [reflexivity|]. by apply Hmem.
      * destruct (pair_enable_coupled w nodes edges pos_map rev (q, p)
                    Hc Hrun) as [Hiff Hbit].
        split; [|exact Hbit]. rewrite (coupled_flip nodes edges pos_map p q).
        exact Hiff.
    + exists (line (p, q)).2. split.
      * left. apply list_elem_of_fmap. exists (p, q).
        split; [reflexivity|]. by apply Hmem.
      * exact (pair_enable_coupled w nodes edges pos_map rev (p, q) Hc Hrun).
  - intros q on Hin. apply list_elem_of_fmap in Hin as (q' & [= -> ->] & _).
    by apply pair_enable_coupled.
Qed.

Definition nodes_pair : list string := ["0"; "1"]%string.
Definition pos_pair : gmap string cell :=
  <["0"%string := (0, 0)]> (<["1"%string := (0, 1)]> ∅).

Lemma completed_pair : completed nodes_pair pos_pair.
Proof.
  assert (forall a, a ∈ nodes_pair -> a = "0"%string \/ a = "1"%string) as Hn.
  { intros a Ha. unfold nodes_pair in Ha.
    apply elem_of_cons in Ha as [->|Ha]; [by left|].
    apply list_elem_of_singleton in Ha. by right. }
  split.
  - by exists 2%nat.
  - intros a Ha. destruct (Hn a Ha) as [-> | ->]; by eexists.
  - intros a b p Ha Hb.
    destruct (Hn a Ha) as [-> | ->], (Hn b Hb) as [-> | ->];
      vm_compute; congruence.
Qed.

Lemma pair_enable_correct_witness :
  exists ro cp,
    write_testbench Planar11 1 2 nodes_pair [("1", "0")%string] pos_pair
      = Ok (ro, cp) /\
    cp.*1 = sorted_sites (coupler_pairs 1 2) /\
    NoDup (cp.*1) /\
    (forall p q, (p, q) ∈ cp.*1 ->
       in_grid 1 2 p = true /\ q ∈ hex_neighbors 1 2 p.1 p.2) /\
    (forall p q, in_grid 1 2 p = true ->
       q ∈ hex_neighbors 1 2 p.1 p.2 ->
       exists on, (((p, q), on) ∈ cp \/ ((q, p), on) ∈ cp) /\
                  (on = 1 <->
                   coupled nodes_pair [("1", "0")%string] pos_pair (p, q)) /\
                  (on = 0 \/ on = 1)) /\
    forall q on, (q, on) ∈ cp ->
      (on = 1 <-> coupled nodes_pair [("1", "0")%string] pos_pair q) /\
      (on = 0 \/ on = 1).
Proof.
  exact (pair_enable_correct Planar11 1 2 nodes_pair [("1", "0")%string]
           pos_pair completed_pair).
Defined.

(** On that graph the one coupler site carries 1: the node labelled "0"
    counts as present in every writer. *)
Lemma pair_enable_label_zero w :
  write_testbench w 1 2 nodes_pair [("1", "0")%string] pos_pair
  = Ok ([((0, 0), 1); ((0, 1), 1)], [(((0, 0), (0, 1)), 1)]).
Proof. destruct w; vm_compute; reflexivity. Qed.

(** * The shape of the generated graphs *)

Section Placement.
Context {W : World}.
Variables (rows cols : Z).

(** [[str(i) for i in range(num_nodes)]] *)
Definition labels (num_nodes : Z) : list string :=
  str <$> seq 0 (Z.to_nat num_nodes).

#[local] Instance str_Inj : Inj (=) (=) str.
Proof. intros i j. apply str_inj. Qed.

Lemma labels_nodup n : NoDup (labels n).
Proof. unfold labels. apply NoDup_fmap_2; [apply _|apply NoDup_seq]. Qed.

Lemma labels_length n : length (labels n) = Z.to_nat n.
Proof. unfold labels. by rewrite length_fmap, length_seq. Qed.

Lemma all_cells_nodup : NoDup (all_cells rows cols).
Proof.
  pose proof (all_cells_sorted rows cols) as H.
  induction H as [|x l Hl IH Hx]; constructor; [|done].
  intros Hin. rewrite Forall_forall in Hx.
  by apply (cell_lt_irrefl x), Hx.
Qed.

Lemma submseteq_nodup {A} (l k : list A) : l ⊆+ k -> NoDup k -> NoDup l.
Proof.
  intros [k' Hk]%submseteq_Permutation Hnd. rewrite Hk in Hnd.
  by apply NoDup_app in Hnd as [? _].
Qed.

Lemma make_pos_map_lookup (l : list (string * cell)) a p :
  NoDup (l.*1) ->
  foldl (fun m kv => <[kv.1 := kv.2]> m) (∅ : gmap string cell) l !! a = Some p
  <-> (a, p) ∈ l.
Proof.
  induction l as [|[k v] l IH] using rev_ind; intros Hnd.
  - simpl. rewrite lookup_empty. split; [discriminate|inversion 1].
  - rewrite fmap_app in Hnd. apply NoDup_app in Hnd as (Hnd & Hk & _).
    rewrite foldl_app. simpl. rewrite elem_of_app, list_elem_of_singleton.
    destruct (decide (k = a)) as [->|Hne].
    + rewrite lookup_insert_eq. split.
      * intros [= ->]. by right.
      * intros [Hin | [= ->]]; [|done]. exfalso.
        apply (Hk a); [|left].
        apply list_elem_of_fmap. by exists (a, p).
    + rewrite lookup_insert_ne by done. rewrite (IH Hnd).
      split; [by left|]. intros [Hin | [= -> ->]]; done.
Qed.

(** A placement: [num_nodes] distinct cells of the grid, one per label. *)
Record placed (num_nodes : Z) (chosen : list cell) : Prop := {
  placed_length : length chosen = Z.to_nat num_nodes;
  placed_sub : chosen ⊆+ all_cells rows cols
}.

Lemma pos_map_lookup num_nodes chosen a p :
  placed num_nodes chosen ->
  make_pos_map (labels num_nodes) chosen !! a = Some p <->
  exists i, labels num_nodes !! i = Some a /\ chosen !! i = Some p.
Proof.
  intros [Hlen Hsub]. unfold make_pos_map.
  rewrite make_pos_map_lookup.
  - rewrite elem_of_lookup_zip_with. split.
    + intros (i & x & y & [= <- <-] & Hx & Hy). eauto.
    + intros (i & Hx & Hy). by exists i, a, p.
  - rewrite fst_zip; [apply labels_nodup|]. rewrite labels_length. lia.
Qed.

(** The position map of a placement makes a completed graph with all
    positions on the grid. *)
Lemma placed_completed num_nodes chosen :
  placed num_nodes chosen ->
  Synth.completed (labels num_nodes) (make_pos_map (labels num_nodes) chosen) /\
  (forall a p, make_pos_map (labels num_nodes) chosen !! a = Some p ->
     a ∈ labels num_nodes /\ in_grid rows cols p = true).
Proof.
  intros Hpl. pose proof Hpl as [Hlen Hsub].
  assert (NoDup chosen) as Hnd
    by (eapply submseteq_nodup; [done|apply all_cells_nodup]).
  split; [split|].
  - by exists (Z.to_nat num_nodes).
  - intros a Ha. apply list_elem_of_lookup in Ha as [i Hi].
    assert (i < length chosen)%nat as Hlt.
    { rewrite Hlen, <- labels_length. by eapply lookup_lt_Some. }
    destruct (lookup_lt_is_Some_2 _ _ Hlt) as [p Hp].
    exists p. apply pos_map_lookup; [done|]. eauto.
  - intros a b p _ _ Ha Hb.
    apply pos_map_lookup in Ha as (i & Hia & Hip); [|done].
    apply pos_map_lookup in Hb as (j & Hjb & Hjp); [|done].
    assert (i = j) as -> by (by eapply NoDup_lookup).
    congruence.
  - intros a p Ha. apply pos_map_lookup in Ha as (i & Hia & Hip); [|done].
    split; [by eapply list_elem_of_lookup_2|].
    apply elem_all_cells. eapply elem_of_submseteq; [|done].
    by eapply list_elem_of_lookup_2.
Qed.

(** The fresh locals of a run. *)
Definition locals (g : rng) (nodes : list string) : state :=
  State g ∅ (make_degree nodes) (list_to_set nodes) ∅ [].

(** What the prologue has done when it returns. *)
Lemma prologue_inv cfg num_nodes seed s np s' :
  prologue rows cols cfg num_nodes seed s = (Ok np, s') ->
  capacity_exceeded cfg num_nodes (rows * cols) = false /\
  0 <= num_nodes /\
  exists chosen g,
    placed num_nodes chosen /\
    np = (labels num_nodes, make_pos_map (labels num_nodes) chosen) /\
    s' = locals g (labels num_nodes).
Proof.
  unfold prologue, bind at 1. rewrite reseed_run.
  destruct (capacity_exceeded cfg num_nodes (rows * cols)); [discriminate|].
  unfold bind at 1, py_sample.
  destruct (num_nodes <? 0) eqn:Hneg; [discriminate|]. simpl.
  destruct (Z.of_nat (length (all_cells rows cols)) <? num_nodes) eqn:Hbig;
    [discriminate|].
  apply Z.ltb_ge in Hneg. apply Z.ltb_ge in Hbig.
  pose proof (rng_sample_length (st_rng (seeded seed s))
                (all_cells rows cols) (Z.to_nat num_nodes)) as Hlen.
  pose proof (rng_sample_sub (st_rng (seeded seed s))
                (all_cells rows cols) (Z.to_nat num_nodes)) as Hsub.
  destruct (rng_sample _ _ _) as [chosen g]. simpl in *.
  intros [= <- <-]. split; [done|]. split; [done|].
  exists chosen, g. split; [|done].
  split; [apply Hlen; lia | done].
Qed.

End Placement.

(** * What every returned graph satisfies *)

Section GenSpec.
Context {W : World}.
Variables (rows cols : Z).
Local Open Scope py_scope.

Lemma pop_remaining_inv (s : state) x s' :
  pop_remaining s = (Ok x, s') ->
  x ∈ st_remaining s /\ s' = set_remaining (st_remaining s ∖ {[x]}) s.
Proof.
  unfold pop_remaining, bind, gets. simpl.
  destruct (set_order (st_remaining s)) as [|y l] eqn:Ho; [discriminate|].
  simpl. intros [= <- <-]. split; [|done].
  apply elem_of_elements. rewrite <- (set_order_perm (st_remaining s)), Ho.
  left.
Qed.

(** The facts about a returned graph that do not depend on the phase
    that built the edges. *)
Record returned (cfg : config) (num_nodes : Z) (G : graph) (s : state)
  : Prop := {
  returned_capacity : capacity_exceeded cfg num_nodes (rows * cols) = false;
  returned_some : 1 <= num_nodes;
  returned_nodes : g_nodes G = labels num_nodes;
  returned_pos : exists chosen,
    placed rows cols num_nodes chosen /\
    g_pos_map G = make_pos_map (labels num_nodes) chosen;
  returned_edges : g_edges G = edge_order (st_edges s)
}.

Variable J : list string -> gmap string cell -> state -> Prop.
Hypothesis J_framed : forall nodes pm, framed (J nodes pm).
Hypothesis J_add_edge : forall nodes pm a b, keeps (J nodes pm) (add_edge a b).
Hypothesis J_init : forall num_nodes chosen g,
  placed rows cols num_nodes chosen ->
  J (labels num_nodes) (make_pos_map (labels num_nodes) chosen)
    (locals g (labels num_nodes)).

Lemma finish_returned nodes pm :
  hoare (J nodes pm) (finish nodes pm)
        (fun G s => g_nodes G = nodes /\ g_pos_map G = pm /\
                    g_edges G = edge_order (st_edges s) /\ J nodes pm s).
Proof.
  unfold finish. intros s Hs. simpl. done.
Qed.

Lemma labels_nonempty num_nodes x :
  x ∈ (list_to_set (labels num_nodes) : gset string) -> 1 <= num_nodes.
Proof.
  intros Hx. apply elem_of_list_to_set in Hx.
  apply elem_of_not_nil in Hx.
  destruct (Z_le_gt_dec 1 num_nodes) as [|Hlt]; [done|].
  exfalso. apply Hx. unfold labels.
  replace (Z.to_nat num_nodes) with 0%nat by lia. reflexivity.
Qed.

Lemma generate_planar_graph_keeps cfg depth num_nodes seed :
  hoare (fun _ => True)
        (generate_planar_graph rows cols cfg depth num_nodes seed)
        (fun G s => returned cfg num_nodes G s /\
                    J (g_nodes G) (g_pos_map G) s).
Proof.
  induction depth as [|depth IH]; simpl; [apply hoare_raise|].
  intros s _. unfold bind at 1.
  destruct (prologue rows cols cfg num_nodes seed s) as [[np|e] s1] eqn:Hpro;
    [|exact I].
  apply prologue_inv in Hpro as (Hcap & Hpos & chosen & g & Hpl & -> & ->).
  simpl. unfold bind at 1.
  destruct (pop_remaining (locals g (labels num_nodes)))
    as [[root|e] s2] eqn:Hpop; [|exact I].
  apply pop_remaining_inv in Hpop as [Hroot ->].
  apply labels_nonempty in Hroot.
  set (nodes := labels num_nodes).
  set (pm := make_pos_map nodes chosen).
  pose proof (J_framed nodes pm) as Hf.
  pose proof (J_add_edge nodes pm) as Ha.
  assert (J nodes pm (set_remaining
            (st_remaining (locals g nodes) ∖ {[root]}) (locals g nodes)))
    as Hs2 by (apply Hf, J_init; done).
  revert Hs2. generalize (set_remaining
    (st_remaining (locals g nodes) ∖ {[root]}) (locals g nodes)).
  change (hoare (J nodes pm)
    (visited_add root ;;;
     ok <- span_loop rows cols pm (length nodes) ;;
     if ok : bool
     then densify rows cols (edge_percent cfg) nodes pm ;;; finish nodes pm
     else generate_planar_graph rows cols cfg depth num_nodes seed)
    (fun G s => returned cfg num_nodes G s /\ J (g_nodes G) (g_pos_map G) s)).
  eapply hoare_bind; [apply (keeps_visited_add _ Hf)|]. intros ?.
  eapply hoare_bind; [apply (keeps_span_loop rows cols _ Hf Ha)|].
  intros [|].
  - eapply hoare_bind; [apply (keeps_densify rows cols _ Hf Ha)|].
    intros ?. eapply hoare_conseq; [apply finish_returned|done|].
    simpl. intros G s' (Hn & Hp & He & HJ). rewrite Hn, Hp.
    split; [|done]. split; try done. exists chosen. by rewrite Hp.
  - intros s0 _. apply (IH s0 I).
Qed.

Lemma generate_planar_graph_safe_keeps num_nodes seed :
  hoare (fun _ => True)
        (generate_planar_graph_safe rows cols num_nodes seed)
        (fun G s => returned cfg_planar num_nodes G s /\
                    J (g_nodes G) (g_pos_map G) s).
Proof.
  unfold generate_planar_graph_safe.
  intros s _. unfold bind at 1.
  destruct (prologue rows cols cfg_planar num_nodes seed s)
    as [[np|e] s1] eqn:Hpro; [|exact I].
  apply prologue_inv in Hpro as (Hcap & Hpos & chosen & g & Hpl & -> & ->).
  simpl. unfold bind at 1.
  destruct (pop_remaining (locals g (labels num_nodes)))
    as [[root|e] s2] eqn:Hpop; [|exact I].
  apply pop_remaining_inv in Hpop as [Hroot ->].
  apply labels_nonempty in Hroot.
  set (nodes := labels num_nodes).
  set (pm := make_pos_map nodes chosen).
  pose proof (J_framed nodes pm) as Hf.
  pose proof (J_add_edge nodes pm) as Ha.
  assert (J nodes pm (set_remaining
            (st_remaining (locals g nodes) ∖ {[root]}) (locals g nodes)))
    as Hs2 by (apply Hf, J_init; done).
  revert Hs2. generalize (set_remaining
    (st_remaining (locals g nodes) ∖ {[root]}) (locals g nodes)).
  change (hoare (J nodes pm)
    (modify (fun s => set_queue [root] (set_visited {[root]} s)) ;;;
     safe_loop rows cols pm (2 * length nodes) ;;;
     densify rows cols 30 nodes pm ;;; finish nodes pm)
    (fun G s => returned cfg_planar num_nodes G s /\
                J (g_nodes G) (g_pos_map G) s)).
  eapply hoare_bind.
  { apply (keeps_modify _ Hf). intros s'. by split. }
  intros ?.
  eapply hoare_bind; [apply (keeps_safe_loop rows cols _ Hf Ha)|].
  intros ?.
  eapply hoare_bind; [apply (keeps_densify rows cols _ Hf Ha)|].
  intros ?. eapply hoare_conseq; [apply finish_returned|done|].
  simpl. intros G s' (Hn & Hp & He & HJ). rewrite Hn, Hp.
  split; [|done]. split; try done. exists chosen. by rewrite Hp.
Qed.

End GenSpec.

(** * Nodes, positions and edges of a returned graph *)

Section EdgesWf.
Context {W : World}.

(** The edges are stored once, as pairs of two different known labels in
    increasing order. *)
Definition wf_inv (nodes : list string) (s : state) : Prop :=
  (forall n, is_Some (st_degree s !! n) -> n ∈ nodes) /\
  (forall a b, (a, b) ∈ st_edges s ->
     a ∈ nodes /\ b ∈ nodes /\ String.ltb a b = true).

Lemma wf_inv_framed nodes : framed (wf_inv nodes).
Proof. intros s g R V q Hs. exact Hs. Qed.

Lemma sorted2_increasing a b x y :
  a <> b -> sorted2 a b = (x, y) ->
  String.ltb x y = true /\ ((x = a /\ y = b) \/ (x = b /\ y = a)).
Proof.
  unfold sorted2. intros Hab.
  destruct (String.ltb b a) eqn:Hba; intros [= <- <-].
  - split; [done|]. by right.
  - split; [|by left].
    destruct (String.ltb a b) eqn:E; [done|].
    by destruct Hab; apply ltb_total.
Qed.

Lemma add_edge_keeps_wf_inv nodes a b : keeps (wf_inv nodes) (add_edge a b).
Proof.
  intros s [Hdom Hwf].
  destruct (add_edge_inv a b s) as
    [(r & -> & Hr) | (da & db & Hab & Ha & Hb & Hda & Hdb & He & ->)].
  { destruct r; [split|]; done. }
  assert (a ∈ nodes) as Han by (apply Hdom; eauto).
  assert (b ∈ nodes) as Hbn by (apply Hdom; eauto).
  split; simpl.
  - intros n Hn.
    destruct (decide (n = b)) as [->|Hnb]; [done|].
    rewrite lookup_insert_ne in Hn by done.
    destruct (decide (n = a)) as [->|Hna]; [done|].
    rewrite lookup_insert_ne in Hn by done. auto.
  - intros x y Hin. apply elem_of_union in Hin as [Hin|Hin]; [auto|].
    apply elem_of_singleton in Hin. symmetry in Hin.
    destruct (sorted2_increasing a b x y Hab Hin)
      as [Hlt [[-> ->] | [-> ->]]]; done.
Qed.

Lemma make_degree_known nodes n :
  is_Some (make_degree nodes !! n) -> n ∈ nodes.
Proof.
  unfold make_degree.
  assert (forall (m : gmap string nat),
            is_Some (foldl (fun m n => <[n := 0%nat]> m) m nodes !! n) ->
            n ∈ nodes \/ is_Some (m !! n)) as Hgen.
  { induction nodes as [|x l IH]; intros m; simpl; [by right|].
    intros H. destruct (IH _ H) as [Hin|Hin]; [left; by right|].
    destruct (decide (x = n)) as [->|Hne]; [left; left|].
    rewrite lookup_insert_ne in Hin by done. by right. }
  intros H. destruct (Hgen _ H) as [?|Hin]; [done|].
  rewrite lookup_empty in Hin. by destruct Hin.
Qed.

Lemma wf_inv_init nodes g : wf_inv nodes (locals g nodes).
Proof.
  split; simpl; [apply make_degree_known|].
  intros a b Hin. by apply elem_of_empty in Hin.
Qed.

Lemma keeps_true {A} (m : M A) : keeps (fun _ => True) m.
Proof. intros s _. by destruct (m s) as [[?|?] ?]. Qed.

End EdgesWf.

(** Every returned graph has the labels "0", "1", ... of at least one and
    at most rows * cols nodes, and places each of them on a cell of the
    grid of its own: it is a completed graph. *)
Theorem generated_graph_shape {W : World} rows cols cfg depth num_nodes seed
    (s s' : state) (G : graph) :
  generate_planar_graph rows cols cfg depth num_nodes seed s = (Ok G, s') \/
  generate_planar_graph_safe rows cols num_nodes seed s = (Ok G, s') ->
  1 <= num_nodes <= rows * cols /\
  g_nodes G = str <$> seq 0 (Z.to_nat num_nodes) /\
  Synth.completed (g_nodes G) (g_pos_map G) /\
  (forall a p, g_pos_map G !! a = Some p ->
     a ∈ g_nodes G /\ in_grid rows cols p = true).
Proof.
  intros Hrun.
  assert (exists cfg', returned rows cols cfg' num_nodes G s') as [cfg' Hret].
  { destruct Hrun as [Hrun|Hrun].
    - pose proof (generate_planar_graph_keeps rows cols (fun _ _ _ => True)
        (fun _ _ _ _ _ _ _ H => H) (fun _ _ _ _ => keeps_true _)
        (fun _ _ _ _ => I) cfg depth num_nodes seed s I) as H.
      rewrite Hrun in H. exists cfg. apply H.
    - pose proof (generate_planar_graph_safe_keeps rows cols
        (fun _ _ _ => True)
        (fun _ _ _ _ _ _ _ H => H) (fun _ _ _ _ => keeps_true _)
        (fun _ _ _ _ => I) num_nodes seed s I) as H.
      rewrite Hrun in H. exists cfg_planar. apply H. }
  destruct Hret as [Hcap Hone Hn (chosen & Hpl & Hp) _].
  rewrite Hn, Hp.
  destruct (placed_completed rows cols num_nodes chosen Hpl) as [Hc Hg].
  split; [|done]. split; [done|].
  unfold capacity_exceeded in Hcap.
  destruct (strict_capacity cfg'); lia.
Qed.

Lemma generated_graph_shape_witness :
  exists G s',
    generate_planar_graph (W := world_pair) 1 2 cfg_planar 1 2 (Some 0)
      (fresh seeds_pair) = (Ok G, s') /\
    1 <= 2 <= 1 * 2 /\
    g_nodes G = str <$> seq 0 (Z.to_nat 2) /\
    Synth.completed (g_nodes G) (g_pos_map G) /\
    (forall a p, g_pos_map G !! a = Some p ->
       a ∈ g_nodes G /\ in_grid 1 2 p = true).
Proof.
  eexists _, _. split; [vm_compute; reflexivity|].
  eapply (generated_graph_shape (W := world_pair) 1 2 cfg_planar 1%nat 2
            (Some 0) (fresh seeds_pair)).
  left. vm_compute. reflexivity.
Defined.

(** The edge list of every returned graph has no duplicates; each edge
    joins two different nodes of the graph, smaller label first, and is
    not listed in the other direction. *)
Theorem generated_edges_wellformed {W : World} rows cols cfg depth num_nodes
    seed (s s' : state) (G : graph) :
  generate_planar_graph rows cols cfg depth num_nodes seed s = (Ok G, s') \/
  generate_planar_graph_safe rows cols num_nodes seed s = (Ok G, s') ->
  NoDup (g_edges G) /\
  forall a b, (a, b) ∈ g_edges G ->
    a ∈ g_nodes G /\ b ∈ g_nodes G /\ a <> b /\
    String.ltb a b = true /\ (b, a) ∉ g_edges G.
Proof.
  intros Hrun.
  assert (g_edges G = edge_order (st_edges s') /\ wf_inv (g_nodes G) s')
    as [He [_ Hwf]].
  { destruct Hrun as [Hrun|Hrun].
    - pose proof (generate_planar_graph_keeps rows cols (fun n _ => wf_inv n)
        (fun n _ => wf_inv_framed n) (fun n _ => add_edge_keeps_wf_inv n)
        (fun _ _ g _ => wf_inv_init _ g) cfg depth num_nodes seed s I) as H.
      rewrite Hrun in H. destruct H as [[] ?]. done.
    - pose proof (generate_planar_graph_safe_keeps rows cols
        (fun n _ => wf_inv n)
        (fun n _ => wf_inv_framed n) (fun n _ => add_edge_keeps_wf_inv n)
        (fun _ _ g _ => wf_inv_init _ g) num_nodes seed s I) as H.
      rewrite Hrun in H. destruct H as [[] ?]. done. }
  rewrite He. split.
  - rewrite edge_order_perm. apply NoDup_elements.
  - intros a b. rewrite !edge_order_perm, !elem_of_elements. intros Hin.
    destruct (Hwf a b Hin) as (Ha & Hb & Hlt).
    split; [done|]. split; [done|]. split; [|split; [done|]].
    + intros ->. apply ltb_asym in Hlt as Hlt'. congruence.
    + intros Hin'. destruct (Hwf b a Hin') as (_ & _ & Hlt').
      apply ltb_asym in Hlt. congruence.
Qed.

Lemma generated_edges_wellformed_witness :
  exists G s',
    generate_planar_graph (W := world_pair) 1 2 cfg_planar 1 2 (Some 0)
      (fresh seeds_pair) = (Ok G, s') /\
    g_edges G = [("0", "1")%string] /\
    NoDup (g_edges G) /\
    forall a b, (a, b) ∈ g_edges G ->
      a ∈ g_nodes G /\ b ∈ g_nodes G /\ a <> b /\
      String.ltb a b = true /\ (b, a) ∉ g_edges G.
Proof.
  eexists _, _. split; [vm_compute; reflexivity|].
  split; [vm_compute; reflexivity|].
  eapply (generated_edges_wellformed (W := world_pair) 1 2 cfg_planar 1%nat 2
            (Some 0) (fresh seeds_pair)).
  left. vm_compute. reflexivity.
Defined.

(** * The spanning phase of the restart generators *)

Section Inversion.
Context {W : World}.
Local Open Scope py_scope.
Local Arguments Nat.leb : simpl never.

Lemma dict_get_inv {K V} `{Countable K} (d : gmap K V) k (s : state) v s' :
  dict_get d k s = (Ok v, s') -> d !! k = Some v /\ s' = s.
Proof.
  unfold dict_get. destruct (d !! k); [|discriminate].
  by intros [= -> ->].
Qed.

Lemma py_choice_inv l (s : state) x s' :
  py_choice l s = (Ok x, s') -> x ∈ l /\ exists g, s' = set_rng g s.
Proof.
  unfold py_choice. destruct l as [|y l]; [discriminate|].
  destruct (rng_below (st_rng s) (length (y :: l))) as [i g].
  destruct ((y :: l) !! i) as [z|] eqn:Hi; [|discriminate].
  intros [= <- <-]. split; [by eapply list_elem_of_lookup_2|eauto].
Qed.

(** A filter whose test leaves the state alone selects by a property the
    test establishes. *)
Lemma filter_m_pure {A} (T : A -> Prop) (test : A -> M bool) l :
  (forall x s b s', test x s = (Ok b, s') -> s' = s /\ (b = true -> T x)) ->
  forall s r s', filter_m test l s = (Ok r, s') ->
    s' = s /\ forall x, x ∈ r -> x ∈ l /\ T x.
Proof.
  intros Ht. induction l as [|x l IH]; simpl; intros s r s'.
  - intros [= <- <-]. split; [done|]. intros x Hx. inversion Hx.
  - intros H. apply bind_ok_inv in H as (b & s1 & Hb & H).
    apply bind_ok_inv in H as (r' & s2 & Hr & H).
    destruct (Ht _ _ _ _ Hb) as [-> HT].
    destruct (IH _ _ _ Hr) as [-> Hsel].
    injection H as <- <-. split; [done|]. intros y Hy. destruct b.
    + apply elem_of_cons in Hy as [->|Hy]; [split; [left|auto]|].
      destruct (Hsel y Hy). split; [by right|done].
    + destruct (Hsel y Hy). split; [by right|done].
Qed.

(** [add_edge] succeeds between two different nodes with free degree that
    are not joined yet. *)
Lemma add_edge_progress a b (s : state) da db :
  a <> b ->
  st_degree s !! a = Some da -> st_degree s !! b = Some db ->
  (da < maxdeg)%nat -> (db < maxdeg)%nat ->
  sorted2 a b ∉ st_edges s ->
  add_edge a b s =
    (Ok true,
     set_degree (<[b := S db]> (<[a := S da]> (st_degree s)))
       (set_edges (st_edges s ∪ {[sorted2 a b]}) s)).
Proof.
  intros Hab Ha Hb Hda Hdb He. unfold add_edge.
  rewrite decide_False by done.
  unfold bind, gets, dict_get, ret, raise, modify; simpl.
  rewrite Ha; simpl.
  destruct (Nat.leb_spec maxdeg da) as [?|_]; [lia|]. simpl.
  rewrite Hb; simpl.
  destruct (Nat.leb_spec maxdeg db) as [?|_]; [lia|]. simpl.
  rewrite decide_False by done. simpl.
  rewrite lookup_insert_ne by done. rewrite Hb. reflexivity.
Qed.

End Inversion.

Section Spanning.
Context {W : World}.
Variables (rows cols : Z).
Variable nodes : list string.
Variable pm : gmap string cell.
Hypothesis pm_inj : forall a b p,
  a ∈ nodes -> b ∈ nodes -> pm !! a = Some p -> pm !! b = Some p -> a = b.
Hypothesis pm_grid : forall a p,
  pm !! a = Some p -> in_grid rows cols p = true.
Local Open Scope py_scope.

(** The cell of [b] is a hex neighbour of the cell of [a]. *)
Definition adj (a b : string) : Prop :=
  exists pa pb, pm !! a = Some pa /\ pm !! b = Some pb /\
                pb ∈ hex_neighbors rows cols pa.1 pa.2.

Lemma adj_sym a b : adj a b -> adj b a.
Proof.
  intros (pa & pb & Ha & Hb & Hn). exists pb, pa.
  split; [done|]. split; [done|].
  apply hex_neighbors_flip; [by eapply pm_grid | done].
Qed.

(** Every edge joins neighbouring cells. *)
Definition adj_inv (s : state) : Prop :=
  forall a b, (a, b) ∈ st_edges s -> adj a b.

Lemma adj_inv_framed : framed adj_inv.
Proof. intros s g R V q Hs. exact Hs. Qed.

Lemma add_edge_keeps_adj a b : adj a b -> keeps adj_inv (add_edge a b).
Proof.
  intros Hab s Hs.
  destruct (add_edge_inv a b s) as
    [(r & -> & Hr) | (da & db & Hne & Ha & Hb & Hda & Hdb & He & ->)].
  { by destruct r. }
  intros x y Hin. simpl in Hin.
  apply elem_of_union in Hin as [Hin|Hin]; [by apply Hs|].
  apply elem_of_singleton in Hin.
  destruct (sorted2_cases a b) as [E|E]; rewrite E in Hin;
    injection Hin as -> ->; [done | by apply adj_sym].
Qed.

(** Two labels joined by an edge, in either direction. *)
Definition linked (E : gset (string * string)) (a b : string) : Prop :=
  (a, b) ∈ E \/ (b, a) ∈ E.

Lemma linked_sorted2 E a b : sorted2 a b ∈ E -> linked E a b.
Proof.
  unfold linked. destruct (sorted2_cases a b) as [-> | ->]; auto.
Qed.

Lemma linked_mono (E E' : gset (string * string)) a b :
  E ⊆ E' -> rtc (linked E) a b -> rtc (linked E') a b.
Proof.
  intros Hsub. apply rtc_subrel. intros x y [H|H]; [left|right]; auto.
Qed.

(** The endpoint of an edge at [n] that is not [n]. *)
Definition other (n : string) (e : string * string) : string :=
  if decide (e.1 = n) then e.2 else e.1.

Lemma hex_neighbors_length r c :
  (length (hex_neighbors rows cols r c) <= 6)%nat.
Proof.
  unfold hex_neighbors. etransitivity; [apply List.filter_length_le|].
  destruct (r mod 2 =? 0); simpl; lia.
Qed.

(** A visited node next to a cell that no edge reaches yet has a free
    degree: its edges lead to different neighbouring cells, and that cell
    is one more. *)
Lemma neighbour_leaves_room (s : state) parent nxt q p :
  wf_inv nodes s -> adj_inv s ->
  (forall a b, (a, b) ∈ st_edges s -> a <> nxt /\ b <> nxt) ->
  nxt ∈ nodes ->
  pm !! parent = Some q -> pm !! nxt = Some p ->
  p ∈ hex_neighbors rows cols q.1 q.2 ->
  (incident_count parent (elements (st_edges s)) < maxdeg)%nat.
Proof.
  intros [_ Hwf] Hadj Hfar Hnxt Hq Hp Hpq.
  unfold incident_count.
  set (inc := filter (incident parent) (elements (st_edges s))).
  set (cell_of := fun e : string * string => pm !!! other parent e).
  assert (forall e, e ∈ inc ->
            other parent e ∈ nodes /\ other parent e <> nxt /\
            (e = (parent, other parent e) \/ e = (other parent e, parent)) /\
            pm !! other parent e = Some (cell_of e) /\
            cell_of e ∈ hex_neighbors rows cols q.1 q.2) as Hinc.
  { intros [a b] He. apply list_elem_of_filter in He as [Hi He].
    apply elem_of_elements in He.
    destruct (Hwf a b He) as (Ha & Hb & Hlt).
    destruct (Hfar a b He) as [Han Hbn].
    pose proof (Hadj a b He) as Hab.
    unfold cell_of, other. simpl.
    destruct (decide (a = parent)) as [->|Hne].
    - destruct Hab as (pa & pb & Hpa & Hpb & Hn).
      rewrite (lookup_total_correct _ _ _ Hpb).
      repeat split; try done; [by left|]. congruence.
    - destruct Hi as [Hi|Hi]; simpl in Hi; [done|]. subst b.
      apply adj_sym in Hab. destruct Hab as (pa & pb & Hpa & Hpb & Hn).
      rewrite (lookup_total_correct _ _ _ Hpb).
      repeat split; try done; [by right|]. congruence. }
  assert (NoDup (p :: (cell_of <$> inc))) as Hnd.
  { apply NoDup_cons. split.
    - intros Hin. apply list_elem_of_fmap in Hin as (e & He & Hin).
      destruct (Hinc e Hin) as (Ho & Hon & _ & Hpo & _).
      apply Hon. apply (pm_inj _ _ p); congruence.
    - apply NoDup_fmap_2_strong.
      + intros e1 e2 H1 H2 Heq.
        destruct (Hinc e1 H1) as (Ho1 & _ & Hs1 & Hp1 & _).
        destruct (Hinc e2 H2) as (Ho2 & _ & Hs2 & Hp2 & _).
        assert (other parent e1 = other parent e2) as Ho
          by (apply (pm_inj _ _ (cell_of e1)); congruence).
        rewrite <- Ho in Hs2.
        apply list_elem_of_filter in H1 as [_ H1].
        apply list_elem_of_filter in H2 as [_ H2].
        apply elem_of_elements in H1. apply elem_of_elements in H2.
        destruct Hs1 as [Hs1|Hs1], Hs2 as [Hs2|Hs2]; try congruence.
        * rewrite Hs1 in H1. rewrite Hs2 in H2.
          destruct (Hwf _ _ H1) as (_ & _ & Hlt1).
          destruct (Hwf _ _ H2) as (_ & _ & Hlt2).
          apply ltb_asym in Hlt1. congruence.
        * rewrite Hs1 in H1. rewrite Hs2 in H2.
          destruct (Hwf _ _ H1) as (_ & _ & Hlt1).
          destruct (Hwf _ _ H2) as (_ & _ & Hlt2).
          apply ltb_asym in Hlt1. congruence.
      + apply NoDup_filter, NoDup_elements. }
  assert (p :: (cell_of <$> inc) ⊆+ hex_neighbors rows cols q.1 q.2) as Hsub.
  { apply NoDup_submseteq; [done|]. intros x Hx.
    apply elem_of_cons in Hx as [->|Hx]; [done|].
    apply list_elem_of_fmap in Hx as (e & -> & Hin).
    by destruct (Hinc e Hin) as (_ & _ & _ & _ & ?). }
  apply submseteq_length in Hsub. simpl in Hsub.
  rewrite length_fmap in Hsub.
  pose proof (hex_neighbors_length q.1 q.2). unfold maxdeg. lia.
Qed.

End Spanning.

Section SpanLoop.
Context {W : World}.
Variables (rows cols : Z).
Variable nodes : list string.
Variable pm : gmap string cell.
Hypothesis pm_inj : forall a b p,
  a ∈ nodes -> b ∈ nodes -> pm !! a = Some p -> pm !! b = Some p -> a = b.
Hypothesis pm_grid : forall a p,
  pm !! a = Some p -> in_grid rows cols p = true.
Variable root : string.
Local Open Scope py_scope.

(** The state of the spanning loop: the edges form a tree on the visited
    nodes, grown from [root] along neighbouring cells. *)
Record span_inv (s : state) : Prop := {
  si_deg : deg_inv nodes s;
  si_wf : wf_inv nodes s;
  si_adj : adj_inv rows cols pm s;
  si_within : forall a b, (a, b) ∈ st_edges s ->
    a ∈ st_visited s /\ b ∈ st_visited s;
  si_visited : forall v, v ∈ st_visited s ->
    v ∈ nodes /\ (v ∉ st_remaining s) /\ rtc (linked (st_edges s)) root v;
  si_cover : forall v, v ∈ nodes -> v ∈ st_visited s \/ v ∈ st_remaining s;
  si_remaining : forall v, v ∈ st_remaining s -> v ∈ nodes
}.

Lemma adjacent_to_inv p v (s : state) b s' :
  adjacent_to rows cols pm p v s = (Ok b, s') ->
  s' = s /\
  (b = true -> exists q, pm !! v = Some q /\
                         p ∈ hex_neighbors rows cols q.1 q.2).
Proof.
  unfold adjacent_to. intros H.
  apply bind_ok_inv in H as (q & s1 & Hq & H).
  apply dict_get_inv in Hq as [Hq ->]. injection H as <- <-.
  split; [done|]. intros Hin. exists q. split; [done|].
  by apply bool_decide_eq_true in Hin.
Qed.

Lemma span_step_inv (s : state) ok s' :
  span_step rows cols pm s = (Ok ok, s') ->
  span_inv s -> ok = true -> span_inv s'.
Proof.
  unfold span_step. intros H Hinv Hok.
  apply bind_ok_inv in H as (nxt & s1 & Hpop & H).
  apply pop_remaining_inv in Hpop as [Hnxt ->].
  apply bind_ok_inv in H as (p & s2 & Hp & H).
  apply dict_get_inv in Hp as [Hp ->].
  apply bind_ok_inv in H as (V & s3 & HV & H).
  injection HV as <- <-.
  apply bind_ok_inv in H as (parents & s4 & Hf & H).
  apply (filter_m_pure
           (fun v => exists q, pm !! v = Some q /\
                               p ∈ hex_neighbors rows cols q.1 q.2)) in Hf
    as [-> Hsel]; [|intros x s0 b s0'; apply adjacent_to_inv].
  destruct parents as [|x0 l0]; [injection H as ? ?; subst; discriminate|].
  set (parents := x0 :: l0) in *.
  apply bind_ok_inv in H as (parent & s5 & Hch & H).
  apply py_choice_inv in Hch as [Hparent [g ->]].
  destruct (Hsel parent Hparent) as [Hpv (q & Hq & Hpq)].
  simpl in Hpv.
  rewrite (set_order_perm (st_visited s)) in Hpv.
  apply elem_of_elements in Hpv.
  destruct Hinv as [Hdeg Hwf Hadj Hwithin Hvis Hcover Hrem].
  destruct (Hvis parent Hpv) as (Hpn & Hpr & Hreach).
  assert (nxt ∉ st_visited s) as Hnv.
  { intros Hc. by destruct (Hvis nxt Hc) as (_ & ? & _). }
  pose proof (Hrem nxt Hnxt) as Hnn.
  assert (forall a b, (a, b) ∈ st_edges s -> a <> nxt /\ b <> nxt) as Hfar.
  { intros a b Hin. destruct (Hwithin a b Hin). split; intros ->; done. }
  destruct (proj1 Hdeg parent Hpn) as [da Hda].
  destruct (proj1 Hdeg nxt Hnn) as [db Hdb].
  destruct (proj2 Hdeg parent da Hda) as [Eda _].
  destruct (proj2 Hdeg nxt db Hdb) as [Edb _].
  assert (da < maxdeg)%nat as Hda6.
  { rewrite Eda.
    by eapply (neighbour_leaves_room rows cols nodes pm pm_inj pm_grid
                 s parent nxt q p). }
  assert (db = 0%nat) as ->.
  { rewrite Edb. unfold incident_count.
    destruct (filter (incident nxt) (elements (st_edges s)))
      as [|[a b] l] eqn:Ef; [done|]. exfalso.
    assert ((a, b) ∈ filter (incident nxt) (elements (st_edges s))) as Hin
      by (rewrite Ef; left).
    apply list_elem_of_filter in Hin as [Hi Hin].
    apply elem_of_elements in Hin. destruct (Hfar a b Hin).
    destruct Hi as [Hi|Hi]; simpl in Hi; done. }
  assert (sorted2 parent nxt ∉ st_edges s) as Hnew.
  { intros Hin. destruct (sorted2_cases parent nxt) as [E|E];
      rewrite E in Hin; destruct (Hfar _ _ Hin); done. }
  assert (parent <> nxt) as Hne by (intros ->; done).
  set (s5 := set_rng g (set_remaining (st_remaining s ∖ {[nxt]}) s)) in *.
  assert (0 < maxdeg)%nat as H0 by (unfold maxdeg; lia).
  pose proof (add_edge_progress parent nxt s5 da 0%nat Hne Hda Hdb Hda6 H0 Hnew)
    as Hadd.
  pose proof (add_edge_keeps_deg_inv nodes parent nxt s5 Hdeg) as Hdeg'.
  pose proof (add_edge_keeps_wf_inv nodes parent nxt s5 Hwf) as Hwf'.
  assert (adj rows cols pm parent nxt) as Hpa by (by exists q, p).
  pose proof (add_edge_keeps_adj rows cols pm pm_grid parent nxt Hpa s5 Hadj)
    as Hadj'.
  rewrite Hadd in Hdeg', Hwf', Hadj'.
  rewrite (bind_ok _ _ _ _ _ Hadd) in H.
  unfold bind, visited_add, modify, ret in H. simpl in H.
  injection H as <- <-.
  split; simpl; try done.
  - intros a b Hin. apply elem_of_union in Hin as [Hin|Hin].
    + destruct (Hwithin a b Hin). split; apply elem_of_union; by left.
    + apply elem_of_singleton in Hin.
      destruct (sorted2_cases parent nxt) as [E|E]; rewrite E in Hin;
        injection Hin as -> ->;
        split; apply elem_of_union;
        first [by left | right; by apply elem_of_singleton].
  - intros v Hv. apply elem_of_union in Hv as [Hv|Hv].
    + destruct (Hvis v Hv) as (Hvn & Hvr & Hvreach).
      split; [done|]. split.
      * intros Hc. apply elem_of_difference in Hc as [Hc _]. done.
      * eapply linked_mono; [|done]. apply union_subseteq_l.
    + apply elem_of_singleton in Hv as ->. split; [done|]. split.
      * intros Hc. apply elem_of_difference in Hc as [_ Hc].
        apply Hc. by apply elem_of_singleton.
      * eapply rtc_r.
        -- eapply linked_mono; [|exact Hreach]. apply union_subseteq_l.
        -- apply linked_sorted2, elem_of_union. right.
           by apply elem_of_singleton.
  - intros v Hv. destruct (decide (v = nxt)) as [->|Hvn].
    + left. apply elem_of_union. right. by apply elem_of_singleton.
    + destruct (Hcover v Hv) as [Hc|Hc].
      * left. apply elem_of_union. by left.
      * right. apply elem_of_difference. split; [done|].
        intros Hs. by apply elem_of_singleton in Hs.
  - intros v Hv. apply elem_of_difference in Hv as [Hv _]. by apply Hrem.
Qed.

Lemma span_loop_inv fuel : forall (s : state) ok s',
  span_loop rows cols pm fuel s = (Ok ok, s') ->
  span_inv s -> ok = true -> span_inv s' /\ st_remaining s' = ∅.
Proof.
  induction fuel as [|fuel IH]; simpl; intros s ok s' H Hinv Hok.
  - unfold bind, gets in H. simpl in H.
    destruct (decide (st_remaining s = ∅)); [|discriminate].
    by injection H as <- <-.
  - unfold bind at 1, gets in H. simpl in H.
    destruct (decide (st_remaining s = ∅)); [by injection H as <- <-|].
    apply bind_ok_inv in H as (ok1 & s1 & Hstep & H).
    destruct ok1; [|injection H as ? ?; subst; discriminate].
    eapply IH; [exact H| |done].
    by eapply span_step_inv.
Qed.

(** The invariant holds when the loop is entered. *)
Lemma span_inv_init g :
  root ∈ (list_to_set nodes : gset string) ->
  span_inv (set_visited (∅ ∪ {[root]})
              (set_remaining (list_to_set nodes ∖ {[root]}) (locals g nodes))).
Proof.
  intros Hroot. split; simpl.
  - apply deg_inv_init.
  - apply (wf_inv_init nodes g).
  - intros a b Hin. by apply elem_of_empty in Hin.
  - intros a b Hin. by apply elem_of_empty in Hin.
  - intros v Hv. apply elem_of_union in Hv as [Hv|Hv];
      [by apply elem_of_empty in Hv|].
    apply elem_of_singleton in Hv as ->.
    split; [by apply elem_of_list_to_set in Hroot|]. split; [|done].
    intros Hc. apply elem_of_difference in Hc as [_ Hc].
    apply Hc. by apply elem_of_singleton.
  - intros v Hv. destruct (decide (v = root)) as [->|Hne].
    + left. apply elem_of_union. right. by apply elem_of_singleton.
    + right. apply elem_of_difference. split.
      * by apply elem_of_list_to_set.
      * intros Hs. by apply elem_of_singleton in Hs.
  - intros v Hv. apply elem_of_difference in Hv as [Hv _].
    by apply elem_of_list_to_set in Hv.
Qed.

Lemma hoare_dict_get_bind {K V B} `{Countable K} (P : state -> Prop)
    (d : gmap K V) k (f : V -> M B) Q :
  (forall v, d !! k = Some v -> hoare P (f v) Q) ->
  hoare P (bind (dict_get d k) f) Q.
Proof.
  intros Hf s Hs. unfold bind, dict_get.
  destruct (d !! k) as [v|]; simpl; [|exact I].
  apply (Hf v eq_refl s Hs).
Qed.

(** Densification joins neighbouring cells only. *)
Lemma densify_keeps_adj percent :
  keeps (adj_inv rows cols pm) (densify rows cols percent nodes pm).
Proof.
  pose proof (adj_inv_framed rows cols pm) as Hf.
  unfold densify. apply hoare_for_each. intros u _.
  apply hoare_dict_get_bind. intros pu Hu.
  apply hoare_for_each. intros v _.
  destruct (decide (u = v)); [by apply hoare_ret|].
  apply hoare_dict_get_bind. intros pv Hv.
  destruct (cell_in pv (hex_neighbors rows cols pu.1 pu.2)) eqn:Hin;
    [|by apply hoare_ret].
  apply bool_decide_eq_true in Hin.
  eapply hoare_bind; [apply (keeps_py_random_lt _ Hf)|].
  intros [|]; [|by apply hoare_ret].
  eapply hoare_bind;
    [apply (add_edge_keeps_adj rows cols pm pm_grid); by exists pu, pv|].
  intros ?. by apply hoare_ret.
Qed.

(** Every node is joined to [root] by a chain of edges. *)
Definition reach_inv (s : state) : Prop :=
  forall v, v ∈ nodes -> rtc (linked (st_edges s)) root v.

Lemma reach_inv_framed : framed reach_inv.
Proof. intros s g R V q Hs. exact Hs. Qed.

Lemma add_edge_keeps_reach a b : keeps reach_inv (add_edge a b).
Proof.
  intros s Hs.
  destruct (add_edge_inv a b s) as
    [(r & -> & Hr) | (da & db & Hne & Ha & Hb & Hda & Hdb & He & ->)].
  { by destruct r. }
  intros v Hv. simpl. eapply linked_mono; [|by apply Hs].
  apply union_subseteq_l.
Qed.

Lemma span_inv_reach (s : state) :
  span_inv s -> st_remaining s = ∅ -> reach_inv s.
Proof.
  intros [_ _ _ _ Hvis Hcover _] Hempty v Hv.
  destruct (Hcover v Hv) as [Hin|Hin]; [by apply Hvis|].
  rewrite Hempty in Hin. by apply elem_of_empty in Hin.
Qed.

End SpanLoop.

(** * The graphs the restart generators return *)

(** Two labels joined by an edge of the list, in either direction. *)
Definition joined (edges : list (string * string)) (a b : string) : Prop :=
  (a, b) ∈ edges \/ (b, a) ∈ edges.

Section RestartReturns.
Context {W : World}.
Variables (rows cols : Z).
Local Open Scope py_scope.

Lemma restart_returns cfg depth num_nodes seed : forall (s : state) G s',
  generate_planar_graph rows cols cfg depth num_nodes seed s = (Ok G, s') ->
  g_edges G = edge_order (st_edges s') /\
  adj_inv rows cols (g_pos_map G) s' /\
  exists root, reach_inv (g_nodes G) root s'.
Proof.
  induction depth as [|depth IH]; simpl; intros s G s' H; [discriminate|].
  apply bind_ok_inv in H as (np & s1 & Hpro & H).
  apply prologue_inv in Hpro as (_ & _ & chosen & g & Hpl & -> & ->).
  simpl in H.
  set (nodes := labels num_nodes) in *.
  set (pm := make_pos_map nodes chosen) in *.
  destruct (placed_completed rows cols num_nodes chosen Hpl) as [Hc Hg].
  fold nodes in Hc, Hg. fold pm in Hc, Hg.
  assert (forall a p, pm !! a = Some p -> in_grid rows cols p = true)
    as Hgrid by (intros a p Ha; by destruct (Hg a p Ha)).
  pose proof (Synth.completed_distinct _ _ Hc) as Hinj.
  apply bind_ok_inv in H as (root & s2 & Hpop & H).
  apply pop_remaining_inv in Hpop as [Hroot ->].
  apply bind_ok_inv in H as (u & s3 & Hva & H).
  injection Hva as _ <-.
  apply bind_ok_inv in H as (ok & s4 & Hloop & H).
  destruct ok; [|by eapply IH].
  eapply (span_loop_inv rows cols nodes pm Hinj Hgrid root) in Hloop
    as [Hinv Hempty]; [| |done].
  2:{ apply (span_inv_init rows cols nodes pm root g Hroot). }
  pose proof (span_inv_reach rows cols nodes pm root s4 Hinv Hempty) as Hreach.
  pose proof (si_adj _ _ _ _ _ _ Hinv) as Hadj.
  apply bind_ok_inv in H as (u' & s5 & Hden & H).
  pose proof (densify_keeps_adj rows cols nodes pm Hgrid (edge_percent cfg)
                s4 Hadj) as Hadj'.
  pose proof (keeps_densify rows cols (reach_inv nodes root)
                (reach_inv_framed nodes root)
                (add_edge_keeps_reach nodes root)
                (edge_percent cfg) nodes pm s4 Hreach) as Hreach'.
  rewrite Hden in Hadj', Hreach'.
  unfold finish, bind, gets, ret in H. simpl in H. injection H as <- <-.
  simpl. split; [done|]. split; [done|]. by exists root.
Qed.

Lemma rtc_joined_sym edges a b :
  rtc (joined edges) a b -> rtc (joined edges) b a.
Proof.
  induction 1 as [|x y z Hxy _ IH]; [done|].
  eapply rtc_r; [exact IH|]. destruct Hxy; [by right | by left].
Qed.

End RestartReturns.

(** Every edge of a graph returned by a restart generator joins two nodes
    whose cells list each other as hex neighbours. *)
Theorem restart_adjacency_fidelity {W : World} rows cols cfg depth num_nodes
    seed (s s' : state) (G : graph) :
  generate_planar_graph rows cols cfg depth num_nodes seed s = (Ok G, s') ->
  adjacency_fidelity rows cols G.
Proof.
  intros Hrun.
  destruct (restart_returns rows cols cfg depth num_nodes seed s G s' Hrun)
    as (He & Hadj & _).
  intros a b pa pb Hin Ha Hb.
  rewrite He, edge_order_perm, elem_of_elements in Hin.
  destruct (Hadj a b Hin) as (pa' & pb' & Ha' & Hb' & Hn).
  pose proof (eq_trans (eq_sym Ha') Ha) as Ea. injection Ea as ->.
  pose proof (eq_trans (eq_sym Hb') Hb) as Eb. injection Eb as ->.
  split; [done|]. apply hex_neighbors_flip; [|done].
  pose proof (generate_planar_graph_keeps rows cols (fun _ _ _ => True)
    (fun _ _ _ _ _ _ _ H => H) (fun _ _ _ _ => keeps_true _)
    (fun _ _ _ _ => I) cfg depth num_nodes seed s I) as H.
  rewrite Hrun in H. destruct H as [[_ _ _ (chosen & Hpl & Hp) _] _].
  destruct (placed_completed rows cols num_nodes chosen Hpl) as [_ Hg].
  rewrite <- Hp in Hg. by destruct (Hg a pa Ha).
Qed.

Lemma restart_adjacency_fidelity_witness :
  exists G s',
    generate_planar_graph (W := world_pair) 1 2 cfg_planar 1 2 (Some 0)
      (fresh seeds_pair) = (Ok G, s') /\
    g_edges G = [("0", "1")%string] /\
    adjacency_fidelity 1 2 G.
Proof.
  eexists _, _. split; [vm_compute; reflexivity|].
  split; [vm_compute; reflexivity|].
  eapply (restart_adjacency_fidelity (W := world_pair) 1 2 cfg_planar 1%nat
            2 (Some 0) (fresh seeds_pair)).
  vm_compute. reflexivity.
Defined.

(** A graph returned by a restart generator is connected: any two of its
    nodes are joined by a chain of its edges. *)
Theorem restart_connected {W : World} rows cols cfg depth num_nodes seed
    (s s' : state) (G : graph) (u v : string) :
  generate_planar_graph rows cols cfg depth num_nodes seed s = (Ok G, s') ->
  u ∈ g_nodes G -> v ∈ g_nodes G ->
  rtc (joined (g_edges G)) u v.
Proof.
  intros Hrun Hu Hv.
  destruct (restart_returns rows cols cfg depth num_nodes seed s G s' Hrun)
    as (He & _ & root & Hreach).
  assert (forall x, x ∈ g_nodes G -> rtc (joined (g_edges G)) root x) as Hr.
  { intros x Hx. eapply rtc_subrel; [|exact (Hreach x Hx)].
    intros a b. unfold linked, joined.
    by rewrite He, !edge_order_perm, !elem_of_elements. }
  etransitivity; [apply rtc_joined_sym, Hr, Hu | apply Hr, Hv].
Qed.

Lemma restart_connected_witness :
  exists G s',
    generate_planar_graph (W := world_pair) 1 2 cfg_planar 1 2 (Some 0)
      (fresh seeds_pair) = (Ok G, s') /\
    g_nodes G = ["0"; "1"]%string /\
    rtc (joined (g_edges G)) "1"%string "0"%string.
Proof.
  eexists _, _. split; [vm_compute; reflexivity|].
  split; [vm_compute; reflexivity|].
  eapply (restart_connected (W := world_pair) 1 2 cfg_planar 1%nat
            2 (Some 0) (fresh seeds_pair)).
  - vm_compute. reflexivity.
  - vm_compute. right. left.
  - vm_compute. left.
Defined.

(** * Degenerate node counts *)

Section EdgeCases.
Context {W : World}.
Variables (rows cols : Z).
Local Open Scope py_scope.

Lemma prologue_negative cfg num_nodes seed (s : state) :
  num_nodes < 0 ->
  prologue rows cols cfg num_nodes seed s = (Raise ValueError, seeded seed s).
Proof.
  intros Hneg. unfold prologue, bind at 1. rewrite reseed_run.
  destruct (capacity_exceeded cfg num_nodes (rows * cols)); [done|].
  unfold bind at 1, py_sample.
  apply Z.ltb_lt in Hneg. rewrite Hneg. reflexivity.
Qed.

Lemma set_order_empty : set_order (∅ : gset string) = [].
Proof.
  apply Permutation_nil_r. rewrite set_order_perm. by rewrite elements_empty.
Qed.

Lemma prologue_zero cfg seed (s : state) :
  capacity_exceeded cfg 0 (rows * cols) = false ->
  exists g, prologue rows cols cfg 0 seed s = (Ok ([], ∅), locals g []).
Proof.
  intros Hcap. unfold prologue, bind at 1. rewrite reseed_run, Hcap.
  unfold bind at 1, py_sample. simpl.
  destruct (Z.of_nat (length (all_cells rows cols)) <? 0) eqn:Hlen;
    [apply Z.ltb_lt in Hlen; lia|].
  change (Z.to_nat 0) with 0%nat.
  pose proof (rng_sample_length (st_rng (seeded seed s))
                (all_cells rows cols) 0%nat) as Hl.
  destruct (rng_sample (st_rng (seeded seed s)) (all_cells rows cols) 0%nat)
    as [chosen g].
  simpl in Hl. apply nil_length_inv in Hl; [|lia]. subst chosen.
  exists g. reflexivity.
Qed.

Lemma pop_remaining_empty (s : state) :
  st_remaining s = ∅ -> pop_remaining s = (Raise KeyError, s).
Proof.
  intros He. unfold pop_remaining, bind, gets. simpl.
  by rewrite He, set_order_empty.
Qed.

End EdgeCases.

(** A negative node count is rejected with [ValueError] (by the capacity
    test or by [random.sample]); a count of zero that passes the capacity
    test ends in the [KeyError] of popping from the empty set of labels.
    No generator returns a graph without nodes. *)
Theorem nonpositive_node_count {W : World} rows cols :
  (forall cfg depth num_nodes seed s, num_nodes < 0 ->
     generate_planar_graph rows cols cfg (S depth) num_nodes seed s
     = (Raise ValueError, seeded seed s)) /\
  (forall num_nodes seed s, num_nodes < 0 ->
     generate_planar_graph_safe rows cols num_nodes seed s
     = (Raise ValueError, seeded seed s)) /\
  (forall cfg depth seed s,
     capacity_exceeded cfg 0 (rows * cols) = false ->
     exists s', generate_planar_graph rows cols cfg (S depth) 0 seed s
                = (Raise KeyError, s')) /\
  (forall seed s,
     capacity_exceeded cfg_planar 0 (rows * cols) = false ->
     exists s', generate_planar_graph_safe rows cols 0 seed s
                = (Raise KeyError, s')).
Proof.
  repeat split.
  - intros cfg depth num_nodes seed s Hneg. simpl. unfold bind at 1.
    by rewrite prologue_negative.
  - intros num_nodes seed s Hneg.
    unfold generate_planar_graph_safe, bind at 1.
    by rewrite prologue_negative.
  - intros cfg depth seed s Hcap.
    destruct (prologue_zero rows cols cfg seed s Hcap) as [g Hpro].
    eexists. simpl. unfold bind at 1. rewrite Hpro. simpl.
    unfold bind at 1. by rewrite pop_remaining_empty.
  - intros seed s Hcap.
    destruct (prologue_zero rows cols cfg_planar seed s Hcap) as [g Hpro].
    eexists. unfold generate_planar_graph_safe, bind at 1. rewrite Hpro.
    simpl. unfold bind at 1. by rewrite pop_remaining_empty.
Qed.

(** * Strings: tokens, numerals and patterns *)

Section Strings.
Import Verifier.
Local Open Scope string_scope.

Lemma append_cons x (a b : string) : String x a ++ b = String x (a ++ b).
Proof. reflexivity. Qed.

Lemma append_nil_l (b : string) : "" ++ b = b.
Proof. reflexivity. Qed.

Lemma append_assoc (a b c : string) : (a ++ b) ++ c = a ++ (b ++ c).
Proof.
  induction a as [|x a IH]; [done|]. by rewrite !append_cons, IH.
Qed.

Lemma append_nil_r (a : string) : a ++ "" = a.
Proof. induction a as [|x a IH]; [done|]. by rewrite append_cons, IH. Qed.

(** A string without white space. *)
Fixpoint clean (s : string) : bool :=
  match s with
  | EmptyString => true
  | String a s' => negb (is_space a) && clean s'
  end.

(** A token: what [split] returns. *)
Definition token (s : string) : Prop := clean s = true /\ s <> "".

Lemma clean_app a b : clean (a ++ b) = clean a && clean b.
Proof.
  induction a as [|x a IH]; [done|]. rewrite append_cons. simpl.
  by rewrite IH, andb_assoc.
Qed.

Lemma token_app_l a b : token a -> clean b = true -> token (a ++ b).
Proof.
  intros [Ha Hne] Hb. split; [by rewrite clean_app, Ha, Hb|].
  destruct a; [done|]. discriminate.
Qed.

Lemma split_from_clean t : forall cur rest,
  clean t = true ->
  split_from cur (t ++ rest) = split_from (cur ++ t) rest.
Proof.
  induction t as [|a t IH]; intros cur rest Hc.
  - by rewrite append_nil_l, append_nil_r.
  - simpl in Hc. apply andb_true_iff in Hc as [Ha Hc].
    apply negb_true_iff in Ha. rewrite append_cons. simpl.
    rewrite Ha, (IH _ _ Hc). by rewrite append_assoc.
Qed.

Lemma split_from_end cur : split_from cur "" = flush cur.
Proof. reflexivity. Qed.

(** The tokens of [t ++ " " ++ rest] are [t] and the tokens of [rest]. *)
Lemma split_token t rest :
  token t -> split (t ++ " " ++ rest) = t :: split rest.
Proof.
  intros [Hc Hne]. unfold split. rewrite (split_from_clean t _ _ Hc).
  rewrite append_nil_l. destruct t; [done|]. reflexivity.
Qed.

Lemma split_last t : token t -> split t = [t].
Proof.
  intros [Hc Hne]. unfold split.
  rewrite <- (append_nil_r t) at 1. rewrite (split_from_clean t _ _ Hc).
  rewrite append_nil_l. destruct t; [done|]. reflexivity.
Qed.

Lemma split_space rest : split (" " ++ rest) = split rest.
Proof. reflexivity. Qed.

(** [" ".join(l).split()] gives back a list of tokens. *)
Lemma split_join l rest :
  Forall token l ->
  split (String.concat " " l ++ " " ++ rest) = (l ++ split rest)%list.
Proof.
  induction 1 as [|t l Ht Hl IH]; simpl; [done|].
  destruct l as [|t' l'].
  - by rewrite split_token.
  - rewrite !append_assoc. rewrite split_token by done.
    f_equal. exact IH.
Qed.

Lemma split_join_last l : Forall token l -> split (String.concat " " l) = l.
Proof.
  induction 1 as [|t l Ht Hl IH]; simpl; [done|].
  destruct l as [|t' l'].
  - by rewrite split_last.
  - rewrite split_token by done. f_equal. exact IH.
Qed.

(** White space only. *)
Fixpoint blank (s : string) : bool :=
  match s with
  | EmptyString => true
  | String a s' => is_space a && blank s'
  end.

Lemma split_from_cur cur s : cur <> "" -> split_from cur s <> [].
Proof.
  revert cur. induction s as [|a s IH]; intros cur Hne; simpl.
  - by destruct cur.
  - destruct (is_space a).
    + by destruct cur.
    + apply IH. by destruct cur.
Qed.

Lemma split_from_not_blank s : forall cur,
  blank s = false -> split_from cur s <> [].
Proof.
  induction s as [|a s IH]; intros cur Hb; simpl in *; [done|].
  destruct (is_space a); simpl in Hb.
  - intros Hnil. apply app_eq_nil in Hnil as [_ Hnil]. by apply (IH "").
  - apply split_from_cur. by destruct cur.
Qed.

Lemma prefix_not_blank a pat s :
  is_space a = false -> String.prefix (String a pat) s = true ->
  blank s = false.
Proof.
  intros Ha. destruct s as [|b s]; simpl; [done|].
  destruct (ascii_dec a b) as [<-|]; [|done]. by rewrite Ha.
Qed.

(** A line that contains a word has a first token. *)
Lemma contains_not_blank a pat s :
  is_space a = false -> contains (String a pat) s = true -> blank s = false.
Proof.
  intros Ha. induction s as [|b s IH]; [done|].
  intros Hc. cbn [contains] in Hc. apply orb_true_iff in Hc as [Hc|Hc].
  - by eapply prefix_not_blank.
  - simpl. rewrite (IH Hc). apply andb_false_r.
Qed.

Lemma contains_app_r pat a b :
  contains pat b = true -> contains pat (a ++ b) = true.
Proof.
  intros Hb. induction a as [|x a IH]; [done|].
  rewrite append_cons. cbn [contains]. rewrite IH. apply orb_true_r.
Qed.

Lemma prefix_app pat s : String.prefix pat (pat ++ s) = true.
Proof.
  induction pat as [|a pat IH]; [by destruct s|].
  rewrite append_cons. simpl.
  destruct (ascii_dec a a); [done|congruence].
Qed.

Lemma contains_prefix pat s :
  String.prefix pat s = true -> contains pat s = true.
Proof. intros H. destruct s; cbn [contains]; by rewrite H. Qed.

Lemma contains_here pat s : contains pat (pat ++ s) = true.
Proof. apply contains_prefix, prefix_app. Qed.

Lemma literal_app pat s : literal pat (pat ++ s) = Some s.
Proof.
  induction pat as [|a pat IH]; [by destruct s|].
  rewrite append_cons. simpl. by rewrite Ascii.eqb_refl.
Qed.

(** ** Decimal numerals *)

Definition starts_digit (s : string) : bool :=
  match s with
  | String a _ => is_digit a
  | EmptyString => false
  end.

(** The digits of a printed number are read as one run. *)
Lemma digit_run_uint d : forall rest,
  starts_digit rest = false ->
  digit_run (NilEmpty.string_of_uint d ++ rest)
  = (NilEmpty.string_of_uint d, rest).
Proof.
  induction d as [|d IH|d IH|d IH|d IH|d IH|d IH|d IH|d IH|d IH|d IH];
    intros rest Hr.
  { cbn [NilEmpty.string_of_uint]. rewrite append_nil_l.
    destruct rest as [|a rest]; [done|].
    simpl in Hr. cbn [digit_run]. by rewrite Hr. }
  all: cbn [NilEmpty.string_of_uint]; rewrite append_cons;
    cbn [digit_run];
    match goal with
    | |- context [is_digit ?a] => change (is_digit a) with true
    end; cbn iota;
    by rewrite (IH rest Hr).
Qed.

(** ... and have the value of the number. *)
Lemma value_uint d : forall n : nat,
  value (Z.of_nat n) (NilEmpty.string_of_uint d)
  = Z.of_nat (Nat.of_uint_acc d n).
Proof.
  induction d as [|d IH|d IH|d IH|d IH|d IH|d IH|d IH|d IH|d IH|d IH];
    intros n; [done|..].
  all: cbn [NilEmpty.string_of_uint Nat.of_uint_acc value];
    rewrite <- IH; f_equal;
    rewrite Nat.tail_mul_spec;
    match goal with
    | |- context [nat_of_ascii ?a] =>
      let v := eval vm_compute in (nat_of_ascii a) in
      change (nat_of_ascii a) with v
    end; lia.
Qed.

End Strings.

(** * Names, numerals and the parsers of the verifier *)

Section Numerals.
Import Verifier Netlist.
Local Open Scope string_scope.

Lemma clean_uint d : clean (NilEmpty.string_of_uint d) = true.
Proof. induction d; simpl; try done. Qed.

Lemma str_cons i : exists a s, str i = String a s /\ is_digit a = true.
Proof.
  unfold str. pose proof (to_uint_nonnil i) as H.
  destruct (Nat.to_uint i); [done|..]; simpl; eauto.
Qed.

Lemma token_str i : token (str i).
Proof.
  split; [apply clean_uint|]. destruct (str_cons i) as (a & s & -> & _). done.
Qed.

Lemma fmt_nonneg z : (0 <= z)%Z -> fmt z = str (Z.to_nat z).
Proof.
  intros Hz. unfold fmt. destruct (Z.ltb_spec z 0); [lia|done].
Qed.

Lemma token_fmt z : token (fmt z).
Proof.
  unfold fmt. destruct (z <? 0)%Z; [|apply token_str].
  split; [|done]. rewrite clean_app. by destruct (token_str (Z.to_nat (- z))).
Qed.

Lemma clean_fmt z : clean (fmt z) = true.
Proof. by destruct (token_fmt z). Qed.

(** Reading back a printed natural number. *)
Lemma group_str i rest :
  starts_digit rest = false ->
  group (str i ++ rest) = Some (str i, rest).
Proof.
  intros Hr. unfold group, str. rewrite (digit_run_uint _ rest Hr).
  fold (str i). by destruct (str_cons i) as (a & s & -> & _).
Qed.

Lemma value_str i : value 0 (str i) = Z.of_nat i.
Proof.
  unfold str. rewrite (value_uint _ 0).
  change (Nat.of_uint_acc (Nat.to_uint i) 0) with (Nat.of_uint (Nat.to_uint i)).
  by rewrite DecimalNat.Unsigned.of_to.
Qed.

Lemma group_fmt z rest :
  (0 <= z)%Z -> starts_digit rest = false ->
  group (fmt z ++ rest) = Some (fmt z, rest).
Proof. intros Hz Hr. rewrite (fmt_nonneg z Hz). by apply group_str. Qed.

Lemma group_fmt_end z : (0 <= z)%Z -> group (fmt z) = Some (fmt z, "").
Proof.
  intros Hz. rewrite <- (append_nil_r (fmt z)) at 1. by apply group_fmt.
Qed.

(** A numeral of at most 4300 digits is converted by [int]. *)
Lemma py_int_fmt z :
  (0 <= z)%Z -> (String.length (fmt z) <= max_str_digits)%nat ->
  py_int (fmt z) = Ok z.
Proof.
  intros Hz Hlen. unfold py_int.
  destruct (Nat.ltb_spec max_str_digits (String.length (fmt z))); [lia|].
  rewrite (fmt_nonneg z Hz), value_str. by rewrite Z2Nat.id.
Qed.

Lemma match_XRO_name r c :
  (0 <= r)%Z -> (0 <= c)%Z ->
  match_XRO ("XRO_" ++ fmt r ++ "_" ++ fmt c) = Some (fmt r, fmt c).
Proof.
  intros Hr Hc. unfold match_XRO.
  rewrite literal_app. simpl.
  rewrite (group_fmt r ("_" ++ fmt c) Hr eq_refl). simpl.
  rewrite append_nil_l, (group_fmt_end c Hc). reflexivity.
Qed.

Lemma match_XCPL_name r1 c1 r2 c2 :
  (0 <= r1)%Z -> (0 <= c1)%Z -> (0 <= r2)%Z -> (0 <= c2)%Z ->
  match_XCPL ("XCPL_" ++ fmt r1 ++ "_" ++ fmt c1 ++ "__"
                ++ fmt r2 ++ "_" ++ fmt c2)
  = Some (fmt r1, fmt c1, fmt r2, fmt c2).
Proof.
  intros H1 H2 H3 H4. unfold match_XCPL.
  rewrite literal_app. simpl.
  rewrite (group_fmt r1 ("_" ++ fmt c1 ++ "__" ++ fmt r2 ++ "_" ++ fmt c2)
             H1 eq_refl). simpl.
  rewrite append_nil_l.
  rewrite (group_fmt c1 ("__" ++ fmt r2 ++ "_" ++ fmt c2) H2 eq_refl). simpl.
  rewrite append_nil_l.
  rewrite (group_fmt r2 ("_" ++ fmt c2) H3 eq_refl). simpl.
  rewrite append_nil_l, (group_fmt_end c2 H4). reflexivity.
Qed.

End Numerals.

Section Parsers.
Import Verifier Netlist.
Local Open Scope string_scope.

Lemma token_lit (a : ascii) (s rest : string) :
  clean (String a s) = true -> clean rest = true ->
  token (String a s ++ rest).
Proof. intros Hc Hr. by apply token_app_l. Qed.

Lemma token_node_name r c pin : token (node_name r c pin).
Proof.
  unfold node_name. apply token_lit; [done|].
  by rewrite !clean_app, !clean_fmt.
Qed.

Lemma token_enable_name_r r c : token (enable_name_r r c).
Proof.
  unfold enable_name_r. apply token_lit; [done|].
  by rewrite !clean_app, !clean_fmt.
Qed.

Lemma token_enable_name_c r1 c1 r2 c2 : token (enable_name_c r1 c1 r2 c2).
Proof.
  unfold enable_name_c. apply token_lit; [done|].
  by rewrite !clean_app, !clean_fmt.
Qed.

Lemma token_XRO r c : token ("XRO_" ++ fmt r ++ "_" ++ fmt c).
Proof. apply token_lit; [done|]. by rewrite !clean_app, !clean_fmt. Qed.

Lemma token_XCPL r1 c1 r2 c2 :
  token ("XCPL_" ++ fmt r1 ++ "_" ++ fmt c1 ++ "__" ++ fmt r2 ++ "_" ++ fmt c2).
Proof. apply token_lit; [done|]. by rewrite !clean_app, !clean_fmt. Qed.

(** The tokens of a ring-oscillator line. *)
Lemma split_ring_line p :
  split (ring_line p) =
  ("XRO_" ++ fmt p.1 ++ "_" ++ fmt p.2)
    :: (node_name p.1 p.2 <$> (Z.of_nat <$> seq 1 7))
    ++ [enable_name_r p.1 p.2; "vdd"; "gnd"; "RING_OSC"].
Proof.
  unfold ring_line, join.
  replace ("XRO_" ++ fmt p.1 ++ "_" ++ fmt p.2 ++ " "
           ++ String.concat " " (node_name p.1 p.2 <$> (Z.of_nat <$> seq 1 7))
           ++ " " ++ enable_name_r p.1 p.2 ++ " vdd gnd RING_OSC")
    with (("XRO_" ++ fmt p.1 ++ "_" ++ fmt p.2) ++ " "
          ++ String.concat " " (node_name p.1 p.2 <$> (Z.of_nat <$> seq 1 7))
          ++ " " ++ enable_name_r p.1 p.2 ++ " " ++ "vdd gnd RING_OSC")
    by (by rewrite !append_assoc).
  rewrite split_token by apply token_XRO. f_equal.
  rewrite split_join.
  - f_equal. by rewrite split_token by apply token_enable_name_r.
  - apply Forall_fmap, Forall_forall. intros pin _. apply token_node_name.
Qed.

(** The tokens of a coupler line. *)
Lemma split_coupler_line q :
  split (coupler_line q) =
  [ "XCPL_" ++ fmt q.1.1 ++ "_" ++ fmt q.1.2 ++ "__" ++ fmt q.2.1 ++ "_"
      ++ fmt q.2.2;
    enable_name_c q.1.1 q.1.2 q.2.1 q.2.2;
    node_name q.1.1 q.1.2 1; node_name q.2.1 q.2.2 3;
    "vdd"; "gnd"; "COUPLING" ].
Proof.
  unfold coupler_line.
  replace ("XCPL_" ++ fmt q.1.1 ++ "_" ++ fmt q.1.2 ++ "__" ++ fmt q.2.1
           ++ "_" ++ fmt q.2.2 ++ " " ++ enable_name_c q.1.1 q.1.2 q.2.1 q.2.2
           ++ " " ++ node_name q.1.1 q.1.2 1 ++ " " ++ node_name q.2.1 q.2.2 3
           ++ " vdd gnd COUPLING")
    with (("XCPL_" ++ fmt q.1.1 ++ "_" ++ fmt q.1.2 ++ "__" ++ fmt q.2.1
           ++ "_" ++ fmt q.2.2) ++ " " ++ enable_name_c q.1.1 q.1.2 q.2.1 q.2.2
          ++ " " ++ node_name q.1.1 q.1.2 1 ++ " " ++ node_name q.2.1 q.2.2 3
          ++ " " ++ "vdd gnd COUPLING")
    by (by rewrite !append_assoc).
  rewrite split_token by apply token_XCPL. f_equal.
  rewrite split_token by apply token_enable_name_c. f_equal.
  rewrite split_token by apply token_node_name. f_equal.
  by rewrite split_token by apply token_node_name.
Qed.

Lemma contains_ring_line p : contains "RING_OSC" (ring_line p) = true.
Proof.
  unfold ring_line. repeat apply contains_app_r. reflexivity.
Qed.

Lemma contains_coupler_line q : contains "COUPLING" (coupler_line q) = true.
Proof.
  unfold coupler_line. repeat apply contains_app_r. reflexivity.
Qed.

Lemma ring_line_parsed (p : cell) :
  (0 <= p.1)%Z -> (0 <= p.2)%Z ->
  (String.length (fmt p.1) <= max_str_digits)%nat ->
  (String.length (fmt p.2) <= max_str_digits)%nat ->
  parse_ring_instance (ring_line p) =
  Ok (Some (p.1, p.2, node_name p.1 p.2 <$> [1; 2; 3; 4; 5; 6; 7]%Z,
            enable_name_r p.1 p.2)).
Proof.
  intros Hr Hc Lr Lc. unfold parse_ring_instance.
  rewrite contains_ring_line, split_ring_line.
  cbn [negb item lookup list_lookup].
  rewrite (match_XRO_name _ _ Hr Hc).
  rewrite (py_int_fmt _ Hr Lr), (py_int_fmt _ Hc Lc). reflexivity.
Qed.

Lemma coupler_line_parsed (q : Synth.site) :
  (0 <= q.1.1)%Z -> (0 <= q.1.2)%Z -> (0 <= q.2.1)%Z -> (0 <= q.2.2)%Z ->
  (String.length (fmt q.1.1) <= max_str_digits)%nat ->
  (String.length (fmt q.1.2) <= max_str_digits)%nat ->
  (String.length (fmt q.2.1) <= max_str_digits)%nat ->
  (String.length (fmt q.2.2) <= max_str_digits)%nat ->
  parse_coupler_instance (coupler_line q) =
  Ok (Some (q.1.1, q.1.2, q.2.1, q.2.2,
            enable_name_c q.1.1 q.1.2 q.2.1 q.2.2,
            node_name q.1.1 q.1.2 1, node_name q.2.1 q.2.2 3)).
Proof.
  intros H1 H2 H3 H4 L1 L2 L3 L4. unfold parse_coupler_instance.
  rewrite contains_coupler_line, split_coupler_line.
  cbn [negb item lookup list_lookup].
  rewrite (match_XCPL_name _ _ _ _ H1 H2 H3 H4).
  rewrite (py_int_fmt _ H1 L1), (py_int_fmt _ H2 L2),
          (py_int_fmt _ H3 L3), (py_int_fmt _ H4 L4).
  reflexivity.
Qed.

End Parsers.

(** The ring parser reads back every ring-oscillator line the netlist
    writer prints for a cell with non-negative coordinates of at most 4300
    digits: the cell, the seven node names and the enable name. *)
Theorem parse_ring_line (p : cell) :
  0 <= p.1 -> 0 <= p.2 ->
  (String.length (Netlist.fmt p.1) <= max_str_digits)%nat ->
  (String.length (Netlist.fmt p.2) <= max_str_digits)%nat ->
  parse_ring_instance (Netlist.ring_line p) =
  Ok (Some (p.1, p.2,
            Netlist.node_name p.1 p.2 <$> [1; 2; 3; 4; 5; 6; 7],
            Netlist.enable_name_r p.1 p.2)).
Proof. apply ring_line_parsed. Qed.

Lemma parse_ring_line_witness :
  parse_ring_instance (Netlist.ring_line (2, 3)) =
  Ok (Some (2, 3,
            Netlist.node_name 2 3 <$> [1; 2; 3; 4; 5; 6; 7],
            Netlist.enable_name_r 2 3)).
Proof.
  apply (parse_ring_line (2, 3)); simpl; try lia;
    vm_compute; repeat constructor.
Defined.

(** The coupler parser reads back every coupler line the netlist writer
    prints for a site with non-negative coordinates of at most 4300
    digits: both cells, the enable name, and the nodes 1 and 3 it joins. *)
Theorem parse_coupler_line (q : Synth.site) :
  0 <= q.1.1 -> 0 <= q.1.2 -> 0 <= q.2.1 -> 0 <= q.2.2 ->
  (String.length (Netlist.fmt q.1.1) <= max_str_digits)%nat ->
  (String.length (Netlist.fmt q.1.2) <= max_str_digits)%nat ->
  (String.length (Netlist.fmt q.2.1) <= max_str_digits)%nat ->
  (String.length (Netlist.fmt q.2.2) <= max_str_digits)%nat ->
  parse_coupler_instance (Netlist.coupler_line q) =
  Ok (Some (q.1.1, q.1.2, q.2.1, q.2.2,
            Netlist.enable_name_c q.1.1 q.1.2 q.2.1 q.2.2,
            Netlist.node_name q.1.1 q.1.2 1,
            Netlist.node_name q.2.1 q.2.2 3)).
Proof. apply coupler_line_parsed. Qed.

Lemma parse_coupler_line_witness :
  parse_coupler_instance (Netlist.coupler_line ((1, 2), (1, 3))) =
  Ok (Some (1, 2, 1, 3,
            Netlist.enable_name_c 1 2 1 3,
            Netlist.node_name 1 2 1,
            Netlist.node_name 1 3 3)).
Proof.
  apply (parse_coupler_line ((1, 2), (1, 3))); simpl; try lia;
    vm_compute; repeat constructor.
Defined.

Lemma tagged_line_has_token (a : ascii) (pat line : string) :
  is_space a = false -> contains (String a pat) line = true ->
  exists inst toks, split line = inst :: toks.
Proof.
  intros Ha Hc.
  pose proof (split_from_not_blank line EmptyString
                (contains_not_blank a pat line Ha Hc)) as Hne.
  fold (split line) in Hne. destruct (split line) as [|inst toks]; [done|].
  eauto.
Qed.

Lemma py_int_raise ds e :
  py_int ds = Raise e ->
  e = ValueError /\ (max_str_digits < String.length ds)%nat.
Proof.
  unfold py_int.
  destruct (Nat.ltb_spec max_str_digits (String.length ds)); [|discriminate].
  by intros [= <-].
Qed.

Lemma py_int_ok ds :
  (String.length ds <= max_str_digits)%nat -> py_int ds = Ok (value 0 ds).
Proof.
  intros H. unfold py_int.
  destruct (Nat.ltb_spec max_str_digits (String.length ds)); [lia|done].
Qed.

Lemma py_int_long ds :
  (max_str_digits < String.length ds)%nat -> py_int ds = Raise ValueError.
Proof.
  intros H. unfold py_int.
  destruct (Nat.ltb_spec max_str_digits (String.length ds)); [done|lia].
Qed.

(** On a line of characters U+0000 to U+00FF the ring parser raises in
    two cases only, both on a line that carries the tag and starts with a
    well-formed instance name, and reading the name [tokens[0]] never
    fails: [ValueError] when a coordinate has more than 4300 digits, and
    otherwise [IndexError] when the line has fewer than nine tokens. *)
Theorem parse_ring_instance_raises (line : string) :
  (forall e, parse_ring_instance line = Raise e ->
             e = ValueError \/ e = IndexError) /\
  (parse_ring_instance line = Raise ValueError <->
   contains "RING_OSC" line = true /\
   exists inst gr gc,
     split line !! 0%nat = Some inst /\ match_XRO inst = Some (gr, gc) /\
     ((max_str_digits < String.length gr)%nat \/
      (max_str_digits < String.length gc)%nat)) /\
  (parse_ring_instance line = Raise IndexError <->
   contains "RING_OSC" line = true /\
   (exists inst gr gc,
     split line !! 0%nat = Some inst /\ match_XRO inst = Some (gr, gc) /\
     (String.length gr <= max_str_digits)%nat /\
     (String.length gc <= max_str_digits)%nat) /\
   (length (split line) < 9)%nat).
Proof.
  unfold parse_ring_instance.
  destruct (contains "RING_OSC" line) eqn:Hc; cbn [negb].
  2:{ split; [discriminate|]. split; (split; [discriminate|]); by intros [? _]. }
  destruct (tagged_line_has_token "R" "ING_OSC" line eq_refl Hc)
    as (inst & toks & ->).
  unfold item.
  change ((inst :: toks) !! 0%nat) with (Some inst).
  change ((inst :: toks) !! 8%nat) with (toks !! 7%nat).
  cbv beta iota.
  destruct (match_XRO inst) as [[gr gc]|] eqn:Hm.
  2:{ split; [discriminate|]. split; (split; [discriminate|]).
      - intros (_ & i & g1 & g2 & [= <-] & Hi & _). congruence.
      - intros (_ & (i & g1 & g2 & [= <-] & Hi & _) & _). congruence. }
  destruct (py_int gr) as [r|e1] eqn:Hr.
  2:{ apply py_int_raise in Hr as [-> Hr].
      split; [intros e [= <-]; by left|]. split.
      - split; [|done]. intros _. split; [done|].
        exists inst, gr, gc. split; [done|]. split; [done|]. by left.
      - split; [discriminate|].
        intros (_ & (i & g1 & g2 & [= <-] & Hi & L1 & _) & _).
        rewrite Hm in Hi. injection Hi as <- <-. lia. }
  destruct (py_int gc) as [c|e2] eqn:Hcc.
  2:{ apply py_int_raise in Hcc as [-> Hcc].
      split; [intros e [= <-]; by left|]. split.
      - split; [|done]. intros _. split; [done|].
        exists inst, gr, gc. split; [done|]. split; [done|]. by right.
      - split; [discriminate|].
        intros (_ & (i & g1 & g2 & [= <-] & Hi & _ & L2) & _).
        rewrite Hm in Hi. injection Hi as <- <-. lia. }
  assert ((String.length gr <= max_str_digits)%nat) as Lr.
  { destruct (le_lt_dec (String.length gr) max_str_digits); [done|].
    rewrite py_int_long in Hr by done. discriminate. }
  assert ((String.length gc <= max_str_digits)%nat) as Lc.
  { destruct (le_lt_dec (String.length gc) max_str_digits); [done|].
    rewrite py_int_long in Hcc by done. discriminate. }
  destruct (toks !! 7%nat) as [en|] eqn:Hen.
  - split; [discriminate|]. split; (split; [discriminate|]).
    + intros (_ & i & g1 & g2 & [= <-] & Hi & Hl).
      rewrite Hm in Hi. injection Hi as <- <-. lia.
    + intros (_ & _ & Hlen). apply lookup_lt_Some in Hen. simpl in Hlen. lia.
  - split; [intros e [= <-]; by right|]. split.
    + split; [discriminate|].
      intros (_ & i & g1 & g2 & [= <-] & Hi & Hl).
      rewrite Hm in Hi. injection Hi as <- <-. lia.
    + split; [|done]. intros _. split; [done|]. split.
      * by exists inst, gr, gc.
      * apply lookup_ge_None in Hen. simpl. lia.
Qed.

(** The case of a group of too many digits. *)
Ltac long_group g Hinv Hm L :=
  split; [intros ? [= <-]; by left|]; split;
  [ split; [|done]; intros _; split; [done|];
    eexists _, _, _, _, _; split; [done|]; split; [exact Hm|];
    apply Exists_exists; exists g; split; [apply list_elem_of_In; simpl; tauto|exact L]
  | split; [discriminate|];
    let i := fresh "i" in let a := fresh "a" in let b := fresh "b" in
    let c := fresh "c" in let d := fresh "d" in
    let Hi0 := fresh "Hi0" in let Hi := fresh "Hi" in let HF := fresh "HF" in
    intros (_ & (i & a & b & c & d & Hi0 & Hi & HF) & _);
    destruct (Hinv _ _ _ _ _ Hi0 Hi) as (-> & -> & -> & ->);
    rewrite Forall_forall in HF;
    assert (String.length g <= max_str_digits)%nat
      by (apply HF, list_elem_of_In; simpl; tauto);
    lia ].

(** Likewise for the coupler parser: [ValueError] when one of the four
    coordinates has more than 4300 digits, and otherwise [IndexError] when
    the line has fewer than four tokens. *)
Theorem parse_coupler_instance_raises (line : string) :
  (forall e, parse_coupler_instance line = Raise e ->
             e = ValueError \/ e = IndexError) /\
  (parse_coupler_instance line = Raise ValueError <->
   contains "COUPLING" line = true /\
   exists inst g1 g2 g3 g4,
     split line !! 0%nat = Some inst /\
     match_XCPL inst = Some (g1, g2, g3, g4) /\
     Exists (fun g => (max_str_digits < String.length g)%nat)
            [g1; g2; g3; g4]) /\
  (parse_coupler_instance line = Raise IndexError <->
   contains "COUPLING" line = true /\
   (exists inst g1 g2 g3 g4,
     split line !! 0%nat = Some inst /\
     match_XCPL inst = Some (g1, g2, g3, g4) /\
     Forall (fun g => (String.length g <= max_str_digits)%nat)
            [g1; g2; g3; g4]) /\
   (length (split line) < 4)%nat).
Proof.
  unfold parse_coupler_instance.
  destruct (contains "COUPLING" line) eqn:Hc; cbn [negb].
  2:{ split; [discriminate|]. split; (split; [discriminate|]); by intros [? _]. }
  destruct (tagged_line_has_token "C" "OUPLING" line eq_refl Hc)
    as (inst & toks & ->).
  unfold item.
  change ((inst :: toks) !! 0%nat) with (Some inst).
  change ((inst :: toks) !! 1%nat) with (toks !! 0%nat).
  change ((inst :: toks) !! 2%nat) with (toks !! 1%nat).
  change ((inst :: toks) !! 3%nat) with (toks !! 2%nat).
  cbv beta iota.
  destruct (match_XCPL inst) as [[[[g1 g2] g3] g4]|] eqn:Hm.
  2:{ split; [discriminate|]. split; (split; [discriminate|]).
      - intros (_ & i & a & b & c & d & [= <-] & Hi & _). congruence.
      - intros (_ & (i & a & b & c & d & [= <-] & Hi & _) & _). congruence. }
  assert (forall i a b c d,
            Some inst = Some i -> match_XCPL i = Some (a, b, c, d) ->
            a = g1 /\ b = g2 /\ c = g3 /\ d = g4) as Hinv.
  { intros i a b c d [= <-] Hi. rewrite Hm in Hi. by injection Hi as <- <- <- <-. }
  destruct (le_lt_dec (String.length g1) max_str_digits) as [L1|L1].
  2:{ rewrite (py_int_long g1 L1). long_group g1 Hinv Hm L1. }
  rewrite (py_int_ok g1 L1).
  destruct (le_lt_dec (String.length g2) max_str_digits) as [L2|L2].
  2:{ rewrite (py_int_long g2 L2). long_group g2 Hinv Hm L2. }
  rewrite (py_int_ok g2 L2).
  destruct (le_lt_dec (String.length g3) max_str_digits) as [L3|L3].
  2:{ rewrite (py_int_long g3 L3). long_group g3 Hinv Hm L3. }
  rewrite (py_int_ok g3 L3).
  destruct (le_lt_dec (String.length g4) max_str_digits) as [L4|L4].
  2:{ rewrite (py_int_long g4 L4). long_group g4 Hinv Hm L4. }
  rewrite (py_int_ok g4 L4).
  assert (forall a b c d,
            Exists (fun g => (max_str_digits < String.length g)%nat)
                   [a; b; c; d] ->
            a = g1 /\ b = g2 /\ c = g3 /\ d = g4 -> False) as Hshort.
  { intros a b c d HE (-> & -> & -> & ->).
    apply Exists_exists in HE as (g & Hg & Hlen).
    repeat (apply elem_of_cons in Hg as [->|Hg]; [lia|]). inversion Hg. }
  assert (exists inst' a b c d,
            Some inst = Some inst' /\
            match_XCPL inst' = Some (a, b, c, d) /\
            Forall (fun g => (String.length g <= max_str_digits)%nat)
                   [a; b; c; d]) as Hall.
  { exists inst, g1, g2, g3, g4. split; [done|]. split; [done|].
    apply Forall_forall. intros g Hg. apply list_elem_of_In in Hg.
    simpl in Hg. intuition (subst; assumption). }
  destruct toks as [|t1 [|t2 [|t3 toks]]]; simpl.
  - split; [intros e [= <-]; by right|]. split.
    + split; [discriminate|].
      intros (_ & i & a & b & c & d & Hi0 & Hi & HE).
      destruct (Hshort _ _ _ _ HE (Hinv _ _ _ _ _ Hi0 Hi)).
    + split; [|done]. intros _. split; [done|]. split; [done|lia].
  - split; [intros e [= <-]; by right|]. split.
    + split; [discriminate|].
      intros (_ & i & a & b & c & d & Hi0 & Hi & HE).
      destruct (Hshort _ _ _ _ HE (Hinv _ _ _ _ _ Hi0 Hi)).
    + split; [|done]. intros _. split; [done|]. split; [done|lia].
  - split; [intros e [= <-]; by right|]. split.
    + split; [discriminate|].
      intros (_ & i & a & b & c & d & Hi0 & Hi & HE).
      destruct (Hshort _ _ _ _ HE (Hinv _ _ _ _ _ Hi0 Hi)).
    + split; [|done]. intros _. split; [done|]. split; [done|lia].
  - split; [discriminate|]. split; (split; [discriminate|]).
    + intros (_ & i & a & b & c & d & Hi0 & Hi & HE).
      destruct (Hshort _ _ _ _ HE (Hinv _ _ _ _ _ Hi0 Hi)).
    + intros (_ & _ & Hlen). lia.
Qed.

(** * The ports of the network and of its instance *)

Section Ports.
Import Verifier Netlist.

Lemma add_sites_set p qs : forall acc : list Synth.site,
  foldl (fun (S : gset Synth.site) q =>
           if bool_decide ((q, p) ∈ S) then S else S ∪ {[(p, q)]})
        (list_to_set acc) qs
  = list_to_set (C := gset Synth.site) (add_sites p acc qs).
Proof.
  induction qs as [|q qs IH]; intros acc; simpl; [reflexivity|].
  rewrite <- IH. f_equal.
  destruct (decide ((q, p) ∈ acc)) as [Hin|Hin].
  - rewrite !bool_decide_eq_true_2;
      [reflexivity | done | by apply elem_of_list_to_set].
  - rewrite !bool_decide_eq_false_2;
      [| done | by rewrite elem_of_list_to_set].
    rewrite list_to_set_app_L. simpl. rewrite (right_id_L ∅ (∪)). reflexivity.
Qed.

Lemma sites_upto_set rows cols cells : forall acc : list Synth.site,
  foldl (fun (S : gset Synth.site) p =>
           foldl (fun (S : gset Synth.site) q =>
                    if bool_decide ((q, p) ∈ S) then S else S ∪ {[(p, q)]})
                 S (neighbors rows cols p.1 p.2))
        (list_to_set acc) cells
  = list_to_set (C := gset Synth.site)
      (foldl (fun acc p => add_sites p acc (hex_neighbors rows cols p.1 p.2))
             acc cells).
Proof.
  induction cells as [|p cells IH]; intros acc; simpl; [reflexivity|].
  rewrite <- IH. f_equal. apply add_sites_set.
Qed.

(** The set built by the netlist writer holds the sites of the list built
    by the testbench writers. *)
Lemma coupling_pairs_list rows cols :
  coupling_pairs rows cols = list_to_set (Synth.coupler_pairs rows cols).
Proof. apply (sites_upto_set rows cols (all_cells rows cols) []). Qed.

(** Both programs list the couplers in the same order. *)
Lemma sorted_pairs_sites rows cols :
  sorted_pairs rows cols = Synth.sorted_sites (Synth.coupler_pairs rows cols).
Proof.
  unfold sorted_pairs, Synth.sorted_sites.
  apply (@Sorted_unique _ Synth.site_le site_le_trans site_le_antisym).
  - apply (@Sorted_merge_sort _ Synth.site_le _ site_le_total).
  - apply (@Sorted_merge_sort _ Synth.site_le _ site_le_total).
  - rewrite !merge_sort_Permutation, coupling_pairs_list.
    apply elements_list_to_set, coupler_pairs_nodup.
Qed.

Lemma ports_bench rows cols :
  ports rows cols =
  Bench.ro_en rows cols ++ Bench.coupler_en rows cols
    ++ Bench.probe_ports rows cols ++ ["vdd"; "gnd"]%string.
Proof.
  unfold ports, coup_enables, Bench.coupler_en.
  by rewrite sorted_pairs_sites.
Qed.

Lemma tokens_ro_en rows cols : Forall token (Bench.ro_en rows cols).
Proof.
  apply Forall_fmap, Forall_forall. intros p _. apply token_enable_name_r.
Qed.

Lemma tokens_coupler_en rows cols : Forall token (Bench.coupler_en rows cols).
Proof.
  apply Forall_fmap, Forall_forall. intros q _. apply token_enable_name_c.
Qed.

Lemma tokens_probe_ports rows cols : Forall token (Bench.probe_ports rows cols).
Proof.
  apply Forall_fmap, Forall_forall. intros p _.
  apply (token_node_name p.1 p.2 1).
Qed.

Local Open Scope string_scope.

(** The tokens of [p1 + " " + p2 + " " + ...], each name followed by a
    space. *)
Lemma split_spaced l rest :
  Forall token l ->
  split (String.concat "" ((fun p => p ++ " ") <$> l) ++ rest)
  = (l ++ split rest)%list.
Proof.
  induction 1 as [|t l Ht Hl IH]; [done|].
  rewrite fmap_cons. cbn [String.concat].
  destruct l as [|t' l'].
  - rewrite fmap_nil. rewrite append_assoc. by rewrite split_token.
  - rewrite fmap_cons in *. rewrite append_nil_l, !append_assoc.
    rewrite split_token by done. simpl. f_equal. exact IH.
Qed.

End Ports.

(** The instance line [Xdut ...] of every testbench lists, after the
    instance name, exactly the ports of the [.subckt] header that
    [generate_hex_network] writes, in the same order, followed by the
    subcircuit name: the positional ports of the instance match those of
    the network it instantiates, for every grid size. *)
Theorem xdut_ports_match_header rows cols :
  split (Netlist.header rows cols "RING_OSC_NETWORK") =
    [".subckt"; "RING_OSC_NETWORK"]%string ++ Netlist.ports rows cols /\
  forall w,
    split (Bench.xdut_line w rows cols) =
      ["Xdut"%string] ++ Netlist.ports rows cols ++ ["RING_OSC_NETWORK"%string].
Proof.
  pose proof (tokens_ro_en rows cols) as Hro.
  pose proof (tokens_coupler_en rows cols) as Hcp.
  pose proof (tokens_probe_ports rows cols) as Hpr.
  assert (Forall token ["vdd"; "gnd"]%string) as Hsup
    by (repeat constructor; done).
  split.
  - unfold Netlist.header, Netlist.join.
    change (".subckt " ++ ?r)%string with (".subckt" ++ " " ++ r)%string.
    rewrite split_token by done. rewrite split_token by done.
    rewrite split_join_last; [done|].
    rewrite ports_bench. by repeat apply Forall_app_2.
  - intros w. rewrite ports_bench.
    destruct w; unfold Bench.xdut_line, Netlist.join;
      change ("Xdut " ++ ?r)%string with ("Xdut" ++ " " ++ r)%string;
      rewrite split_token by done.
    + change " vdd gnd RING_OSC_NETWORK"
        with (" " ++ "vdd gnd RING_OSC_NETWORK")%string.
      rewrite !append_assoc.
      rewrite split_join by done. rewrite split_join by done.
      rewrite split_join by done. simpl. by rewrite <- !app_assoc.
    + change " vdd gnd RING_OSC_NETWORK"
        with (" " ++ "vdd gnd RING_OSC_NETWORK")%string.
      rewrite split_join by (by repeat apply Forall_app_2).
      simpl. by rewrite <- !app_assoc.
    + rewrite !split_spaced by done. simpl. by rewrite <- !app_assoc.
Qed.

(** ** Reading a text back line by line *)

Section Lines.
Import Verify.

Local Open Scope string_scope.

(** No line feed and no carriage return. *)
Fixpoint plain (s : string) : bool :=
  match s with
  | EmptyString => true
  | String a s' => negb (Ascii.eqb a lf) && negb (Ascii.eqb a cr) && plain s'
  end.

Fixpoint no_cr (s : string) : bool :=
  match s with
  | EmptyString => true
  | String a s' => negb (Ascii.eqb a cr) && no_cr s'
  end.

Lemma plain_app a b : plain (a ++ b) = plain a && plain b.
Proof.
  induction a as [|x a IH]; [done|].
  rewrite append_cons. simpl. rewrite IH. by rewrite !andb_assoc.
Qed.

Lemma no_cr_app a b : no_cr (a ++ b) = no_cr a && no_cr b.
Proof.
  induction a as [|x a IH]; [done|].
  rewrite append_cons. simpl. rewrite IH. by rewrite !andb_assoc.
Qed.

Lemma plain_no_cr s : plain s = true -> no_cr s = true.
Proof.
  induction s as [|x s IH]; [done|]. simpl.
  rewrite !andb_true_iff. intros [[_ ?] ?]. auto.
Qed.

Lemma space_not_plain a :
  negb (Ascii.eqb a lf) && negb (Ascii.eqb a cr) = false -> is_space a = true.
Proof.
  rewrite andb_false_iff, !negb_false_iff.
  by intros [->%Ascii.eqb_eq| ->%Ascii.eqb_eq].
Qed.

Lemma clean_plain s : clean s = true -> plain s = true.
Proof.
  induction s as [|x s IH]; [done|]. cbn [clean plain].
  intros [Hx Hs]%andb_true_iff. apply andb_true_iff. split; [|auto].
  destruct (negb (Ascii.eqb x lf) && negb (Ascii.eqb x cr)) eqn:E; [done|].
  apply space_not_plain in E. by rewrite E in Hx.
Qed.

Lemma plain_concat sep l :
  plain sep = true -> Forall (fun s => plain s = true) l ->
  plain (String.concat sep l) = true.
Proof.
  intros Hsep. induction 1 as [|x l Hx Hl IH]; [done|].
  destruct l as [|y l]; [done|].
  change (String.concat sep (x :: y :: l))
    with (x ++ sep ++ String.concat sep (y :: l)).
  by rewrite !plain_app, Hx, Hsep, IH.
Qed.

Lemma no_cr_concat sep l :
  no_cr sep = true -> Forall (fun s => no_cr s = true) l ->
  no_cr (String.concat sep l) = true.
Proof.
  intros Hsep. induction 1 as [|x l Hx Hl IH]; [done|].
  destruct l as [|y l]; [done|].
  change (String.concat sep (x :: y :: l))
    with (x ++ sep ++ String.concat sep (y :: l)).
  by rewrite !no_cr_app, Hx, Hsep, IH.
Qed.

Lemma universal_newlines_id s : no_cr s = true -> universal_newlines s = s.
Proof.
  induction s as [|x s IH]; [done|]. simpl.
  rewrite andb_true_iff. intros [Hx Hs].
  apply negb_true_iff in Hx. rewrite Hx. by rewrite IH.
Qed.

Lemma lines_from_plain t : forall cur rest,
  plain t = true -> lines_from cur (t ++ rest) = lines_from (cur ++ t) rest.
Proof.
  induction t as [|x t IH]; intros cur rest H.
  - by rewrite append_nil_l, append_nil_r.
  - simpl in H. rewrite !andb_true_iff in H. destruct H as [[Hx _] Ht].
    rewrite append_cons. simpl. apply negb_true_iff in Hx. rewrite Hx.
    rewrite IH by done. f_equal.
    rewrite append_assoc. by rewrite append_cons, append_nil_l.
Qed.

Lemma lines_from_lf cur rest :
  lines_from cur (Netlist.nl ++ rest)
  = (cur ++ Netlist.nl) :: lines_from "" rest.
Proof. done. Qed.

(** The lines met when the joined text is read: each but the last keeps
    its line feed, and an empty last line is not met. *)
Fixpoint terminated (ls : list string) : list string :=
  match ls with
  | [] => []
  | [l] => flush l
  | l :: ls' => (l ++ Netlist.nl) :: terminated ls'
  end.

Lemma lines_from_concat ls :
  Forall (fun s => plain s = true) ls ->
  lines_from "" (String.concat Netlist.nl ls) = terminated ls.
Proof.
  induction 1 as [|x l Hx Hl IH]; [done|].
  destruct l as [|y l].
  - simpl. rewrite <- (append_nil_r x) at 1.
    rewrite lines_from_plain by done. by rewrite append_nil_l.
  - change (String.concat Netlist.nl (x :: y :: l))
      with (x ++ Netlist.nl ++ String.concat Netlist.nl (y :: l)).
    rewrite lines_from_plain by done. rewrite append_nil_l.
    rewrite lines_from_lf, IH. done.
Qed.

(** *** [strip] *)

Lemma lstrip_blank s : blank s = true -> lstrip s = "".
Proof.
  induction s as [|x s IH]; [done|]. simpl.
  rewrite andb_true_iff. intros [-> ?]. auto.
Qed.

Lemma rstrip_blank s : blank s = true -> rstrip s = "".
Proof.
  induction s as [|x s IH]; [done|]. simpl.
  rewrite andb_true_iff. intros [-> ?]. by rewrite IH.
Qed.

Lemma rstrip_app_blank s t : blank t = true -> rstrip (s ++ t) = rstrip s.
Proof.
  intros Ht. induction s as [|x s IH].
  - rewrite append_nil_l. by apply rstrip_blank.
  - rewrite append_cons. simpl. by rewrite IH.
Qed.

Lemma lstrip_app s t :
  lstrip (s ++ t) = if blank s then lstrip t else lstrip s ++ t.
Proof.
  induction s as [|x s IH]; [by rewrite append_nil_l|].
  rewrite append_cons. simpl. destruct (is_space x); [done|].
  by rewrite append_cons.
Qed.

Lemma strip_app_blank s t : blank t = true -> strip (s ++ t) = strip s.
Proof.
  intros Ht. unfold strip. rewrite lstrip_app.
  destruct (blank s) eqn:Hs.
  - by rewrite !lstrip_blank.
  - by apply rstrip_app_blank.
Qed.

(** A line the reader keeps as it is: it starts with a character that is
    neither white space nor a star, and does not end with white space. *)
Definition first_solid (s : string) : bool :=
  match s with
  | String a _ => negb (is_space a) && negb (Ascii.eqb a "*"%char)
  | EmptyString => false
  end.

Fixpoint last_solid (s : string) : bool :=
  match s with
  | EmptyString => false
  | String a EmptyString => negb (is_space a)
  | String _ s' => last_solid s'
  end.

Lemma last_solid_app s t : last_solid t = true -> last_solid (s ++ t) = true.
Proof.
  intros Ht. induction s as [|x s IH]; [by rewrite append_nil_l|].
  rewrite append_cons. simpl.
  destruct (s ++ t) eqn:E; [|done].
  by destruct s, t.
Qed.

Lemma rstrip_last_solid s : last_solid s = true -> rstrip s = s.
Proof.
  induction s as [|x s IH]; [done|]. simpl.
  destruct s as [|y s].
  - simpl. by intros ->%negb_true_iff.
  - intros H. rewrite IH by done. done.
Qed.

Lemma lstrip_first_solid s : first_solid s = true -> lstrip s = s.
Proof.
  destruct s as [|x s]; [done|]. simpl.
  rewrite andb_true_iff. by intros [->%negb_true_iff _].
Qed.

Lemma last_solid_token t : token t -> last_solid t = true.
Proof.
  intros [Hc Hn]. induction t as [|x t IH]; [done|].
  simpl in Hc. rewrite andb_true_iff in Hc. destruct Hc as [Hx Ht].
  simpl. destruct t; [done|]. by apply IH.
Qed.

Lemma last_solid_concat sep l t :
  last_solid t = true -> last_solid (String.concat sep (l ++ [t])) = true.
Proof.
  intros Ht. induction l as [|x l IH]; [done|].
  simpl. destruct (l ++ [t])%list eqn:E.
  - by destruct l.
  - rewrite <- E in *. by apply last_solid_app, last_solid_app.
Qed.

(** The test of the comprehension in [load_netlist]. *)
Definition kept (line : string) : bool :=
  negb (String.eqb (strip line) "") && negb (startswith "*" (strip line)).

Definition solid (s : string) : Prop :=
  first_solid s = true /\ last_solid s = true.

Lemma strip_solid s : solid s -> strip s = s.
Proof.
  intros [Hf Hl]. unfold strip.
  rewrite lstrip_first_solid by done. by apply rstrip_last_solid.
Qed.

Lemma kept_solid s : solid s -> kept s = true.
Proof.
  intros Hs. unfold kept. rewrite strip_solid by done.
  destruct Hs as [Hf _]. destruct s as [|x s]; [done|].
  cbn [first_solid] in Hf. apply andb_true_iff in Hf as [_ Hx].
  unfold startswith. cbn [String.prefix String.eqb].
  destruct (ascii_dec "*" x) as [<-|]; [|done].
  by rewrite Ascii.eqb_refl in Hx.
Qed.

Lemma kept_line_feed s : kept (s ++ Netlist.nl) = kept s.
Proof. unfold kept. by rewrite strip_app_blank. Qed.

Lemma load_terminated ls :
  strip <$> List.filter kept (terminated ls)
  = strip <$> List.filter kept ls.
Proof.
  induction ls as [|x ls IH]; [done|].
  destruct ls as [|y ls].
  - simpl. destruct x; [done|done].
  - change (terminated (x :: y :: ls))
      with ((x ++ Netlist.nl) :: terminated (y :: ls)).
    set (T := terminated (y :: ls)) in *. set (L := (y :: ls)%list) in *.
    cbn [List.filter]. rewrite kept_line_feed. destruct (kept x).
    + rewrite !fmap_cons, IH. by rewrite strip_app_blank.
    + apply IH.
Qed.

(** Reading back lines that were joined with line feeds. *)
Lemma load_netlist_concat ls :
  Forall (fun s => plain s = true) ls ->
  load_netlist (String.concat Netlist.nl ls) = strip <$> List.filter kept ls.
Proof.
  intros Hls. unfold load_netlist.
  rewrite universal_newlines_id.
  - rewrite lines_from_concat by done. apply load_terminated.
  - apply no_cr_concat; [done|].
    eapply Forall_impl; [exact Hls|]. intros s. apply plain_no_cr.
Qed.

End Lines.

(** ** The lines of a generated netlist *)

Section Generated.
Import Verify Netlist.

Local Open Scope string_scope.

Lemma plain_token t : token t -> plain t = true.
Proof. intros [H _]. by apply clean_plain. Qed.

Lemma plain_tokens l : Forall token l -> plain (String.concat " " l) = true.
Proof.
  intros H. apply plain_concat; [done|].
  eapply Forall_impl; [exact H|]. apply plain_token.
Qed.

Lemma tokens_ports rows cols : Forall token (ports rows cols).
Proof.
  rewrite ports_bench. rewrite !Forall_app.
  split; [apply tokens_ro_en|]. split; [apply tokens_coupler_en|].
  split; [apply tokens_probe_ports|].
  repeat constructor; done.
Qed.

Lemma concat_app sep (a b : list string) :
  a <> [] -> b <> [] ->
  String.concat sep (a ++ b) = String.concat sep a ++ sep ++ String.concat sep b.
Proof.
  intros Ha Hb. induction a as [|x a IH]; [done|].
  destruct a as [|y a].
  - destruct b as [|z b]; [done|]. done.
  - change (String.concat sep ((x :: y :: a) ++ b))
      with (x ++ sep ++ String.concat sep ((y :: a) ++ b)).
    rewrite IH by done.
    change (String.concat sep (x :: y :: a))
      with (x ++ sep ++ String.concat sep (y :: a)).
    by rewrite !append_assoc.
Qed.

Lemma concat_last_eq sep (a y : list string) x :
  String.concat sep [x] = String.concat sep y -> y <> [] ->
  String.concat sep (a ++ [x]) = String.concat sep (a ++ y).
Proof.
  intros Hx Hy. destruct a as [|z a]; [done|].
  rewrite !(concat_app sep (z :: a)) by done. by rewrite Hx.
Qed.

Definition name : string := "RING_OSC_NETWORK".

Definition includes : list string :=
  [ include "ptm_45nm_lp.l"; include "inv.subckt"; include "nand.subckt";
    include "ring_osc.subckt"; include "coupling.subckt" ].

Definition ends : string := ".ends RING_OSC_NETWORK".

(** The lines of the text, the last entry of [lines] split at its line
    feeds. *)
Definition text_lines (rows cols : Z) : list string :=
  [ include "ptm_45nm_lp.l"; include "inv.subckt"; include "nand.subckt";
    include "ring_osc.subckt"; include "coupling.subckt"; "" ]
  ++ [ header rows cols name; "" ]
  ++ (ring_line <$> all_cells rows cols)
  ++ [ "" ]
  ++ (coupler_line <$> sorted_pairs rows cols)
  ++ [ ""; ends; "" ].

Lemma generated_text rows cols :
  generate_hex_network rows cols name = String.concat nl (text_lines rows cols).
Proof.
  unfold generate_hex_network, join, netlist_lines, text_lines.
  rewrite !app_assoc. by apply concat_last_eq.
Qed.

Lemma plain_ring_line p : plain (ring_line p) = true.
Proof.
  unfold ring_line. rewrite !plain_app.
  rewrite !(plain_token _ (token_fmt _)).
  rewrite (plain_token _ (token_enable_name_r _ _)).
  unfold join. rewrite plain_tokens; [done|].
  apply Forall_fmap, Forall_forall. intros pin _. apply token_node_name.
Qed.

Lemma plain_coupler_line q : plain (coupler_line q) = true.
Proof.
  unfold coupler_line. cbv zeta. rewrite !plain_app.
  rewrite !(plain_token _ (token_fmt _)).
  rewrite (plain_token _ (token_enable_name_c _ _ _ _)).
  by rewrite !(plain_token _ (token_node_name _ _ _)).
Qed.

Lemma plain_header rows cols : plain (header rows cols name) = true.
Proof.
  unfold header. rewrite !plain_app. unfold join.
  by rewrite (plain_tokens _ (tokens_ports rows cols)).
Qed.

Lemma plain_text_lines rows cols :
  Forall (fun s => plain s = true) (text_lines rows cols).
Proof.
  unfold text_lines. rewrite !Forall_app. repeat split.
  - repeat constructor.
  - repeat constructor. apply plain_header.
  - apply Forall_fmap, Forall_forall. intros p _. apply plain_ring_line.
  - repeat constructor.
  - apply Forall_fmap, Forall_forall. intros q _. apply plain_coupler_line.
  - repeat constructor.
Qed.

Lemma solid_ring_line p : solid (ring_line p).
Proof.
  split.
  - unfold ring_line. by rewrite append_cons.
  - unfold ring_line. by repeat apply last_solid_app.
Qed.

Lemma solid_coupler_line q : solid (coupler_line q).
Proof.
  split.
  - unfold coupler_line. cbv zeta. by rewrite append_cons.
  - unfold coupler_line. cbv zeta. by repeat apply last_solid_app.
Qed.

Lemma solid_header rows cols : solid (header rows cols name).
Proof.
  split; [done|].
  unfold header. do 3 apply last_solid_app.
  unfold join, ports.
  replace (ro_enables rows cols ++ coup_enables rows cols
             ++ probe_ports rows cols ++ ["vdd"; "gnd"])%list
    with ((ro_enables rows cols ++ coup_enables rows cols
             ++ probe_ports rows cols ++ ["vdd"]) ++ ["gnd"])%list
    by (by rewrite <- !app_assoc).
  by apply last_solid_concat.
Qed.

Lemma load_solid l : Forall solid l -> strip <$> List.filter kept l = l.
Proof.
  induction 1 as [|x l Hx Hl IH]; [done|].
  cbn [List.filter]. rewrite kept_solid by done.
  by rewrite fmap_cons, strip_solid, IH.
Qed.

Lemma filter_kept_app a b :
  strip <$> List.filter kept (a ++ b)%list
  = ((strip <$> List.filter kept a) ++ (strip <$> List.filter kept b))%list.
Proof. by rewrite List.filter_app, fmap_app. Qed.

(** What [load_netlist] reads from the generated text. *)
Definition loaded (rows cols : Z) : list string :=
  includes ++ [header rows cols name]
    ++ (ring_line <$> all_cells rows cols)
    ++ (coupler_line <$> sorted_pairs rows cols)
    ++ [ends].

Lemma load_generated rows cols :
  load_netlist (generate_hex_network rows cols name) = loaded rows cols.
Proof.
  rewrite generated_text, load_netlist_concat by apply plain_text_lines.
  unfold text_lines. rewrite !filter_kept_app.
  rewrite (load_solid (ring_line <$> _))
    by (apply Forall_fmap, Forall_forall; intros p _; apply solid_ring_line).
  rewrite (load_solid (coupler_line <$> _))
    by (apply Forall_fmap, Forall_forall; intros p _; apply solid_coupler_line).
  change [header rows cols name; ""]
    with ([header rows cols name] ++ [""])%list.
  rewrite filter_kept_app.
  rewrite (load_solid [header rows cols name])
    by (repeat constructor; apply solid_header).
  done.
Qed.

End Generated.

(** ** [verify_network] on a generated netlist *)

Section VerifyGenerated.
Import Verify Netlist.

Local Open Scope string_scope.

(** A coordinate the generator can print and the verifier can read. *)
Definition printable (z : Z) : Prop :=
  (0 <= z)%Z /\ (String.length (fmt z) <= max_str_digits)%nat.

Lemma parse_ring_other line t toks :
  split line = t :: toks -> match_XRO t = None ->
  parse_ring_instance line = Ok None.
Proof.
  intros Hs Hm. unfold parse_ring_instance.
  destruct (negb (contains "RING_OSC" line)); [done|].
  rewrite Hs. unfold item. change ((t :: toks) !! 0%nat) with (Some t).
  cbv beta iota. by rewrite Hm.
Qed.

Lemma parse_coupler_other line t toks :
  split line = t :: toks -> match_XCPL t = None ->
  parse_coupler_instance line = Ok None.
Proof.
  intros Hs Hm. unfold parse_coupler_instance.
  destruct (negb (contains "COUPLING" line)); [done|].
  rewrite Hs. unfold item. change ((t :: toks) !! 0%nat) with (Some t).
  cbv beta iota. by rewrite Hm.
Qed.

Lemma split_header_head rows cols :
  exists toks, split (header rows cols name) = ".subckt" :: toks.
Proof.
  unfold header.
  change (".subckt " ++ ?r) with (".subckt" ++ " " ++ r).
  rewrite split_token by done. eauto.
Qed.

Lemma header_no_ring rows cols :
  parse_ring_instance (header rows cols name) = Ok None.
Proof.
  destruct (split_header_head rows cols) as [toks H].
  by apply (parse_ring_other _ _ _ H).
Qed.

Lemma header_no_coupler rows cols :
  parse_coupler_instance (header rows cols name) = Ok None.
Proof.
  destruct (split_header_head rows cols) as [toks H].
  by apply (parse_coupler_other _ _ _ H).
Qed.

Lemma coupler_line_no_ring q : parse_ring_instance (coupler_line q) = Ok None.
Proof.
  eapply parse_ring_other; [apply split_coupler_line|].
  unfold match_XRO. by rewrite !append_cons.
Qed.

Lemma ring_line_no_coupler p : parse_coupler_instance (ring_line p) = Ok None.
Proof.
  eapply parse_coupler_other; [apply split_ring_line|].
  unfold match_XCPL. by rewrite !append_cons.
Qed.

(** The seven node names of a ring oscillator. *)
Definition pins (p : cell) : list string :=
  node_name p.1 p.2 <$> [1; 2; 3; 4; 5; 6; 7]%Z.

Definition good_cell (p : cell) : Prop := printable p.1 /\ printable p.2.
Definition good_site (q : site) : Prop := good_cell q.1 /\ good_cell q.2.

Lemma parse_lines_skip line rest d S :
  parse_ring_instance line = Ok None ->
  parse_coupler_instance line = Ok None ->
  parse_lines (line :: rest) d S = parse_lines rest d S.
Proof. intros H1 H2. cbn [parse_lines]. by rewrite H1, H2. Qed.

Lemma parse_lines_rings cells rest : forall d S,
  Forall good_cell cells ->
  parse_lines ((ring_line <$> cells) ++ rest)%list d S
  = parse_lines rest (foldl (fun d p => dict_set d p (pins p)) d cells) S.
Proof.
  induction cells as [|p cells IH]; intros d S H; [done|].
  apply Forall_cons in H as [[[? ?] [? ?]] H'].
  rewrite fmap_cons. cbn [app parse_lines foldl].
  rewrite ring_line_parsed by done. rewrite IH by done.
  by destruct p.
Qed.

Lemma parse_lines_couplers qs rest : forall d S,
  Forall good_site qs ->
  parse_lines ((coupler_line <$> qs) ++ rest)%list d S
  = parse_lines rest d (foldl (fun S q => S ∪ {[q]}) S qs).
Proof.
  induction qs as [|q qs IH]; intros d S H; [done|].
  apply Forall_cons in H as [[[[? ?] [? ?]] [[? ?] [? ?]]] H'].
  rewrite fmap_cons. cbn [app parse_lines foldl].
  rewrite coupler_line_no_ring.
  rewrite coupler_line_parsed by done. rewrite IH by done.
  by destruct q as [[??] [??]].
Qed.

Lemma parse_lines_includes rest d S :
  parse_lines (includes ++ rest)%list d S = parse_lines rest d S.
Proof. done. Qed.

Lemma parse_lines_loaded rows cols :
  Forall good_cell (all_cells rows cols) ->
  Forall good_site (sorted_pairs rows cols) ->
  parse_lines (loaded rows cols) [] ∅
  = Ok (foldl (fun d p => dict_set d p (pins p)) [] (all_cells rows cols),
        foldl (fun (S : gset site) q => S ∪ {[q]}) ∅ (sorted_pairs rows cols)).
Proof.
  intros Hc Hq. unfold loaded.
  rewrite parse_lines_includes.
  cbn [app]. rewrite parse_lines_skip
    by (apply header_no_ring || apply header_no_coupler).
  rewrite parse_lines_rings by done.
  rewrite parse_lines_couplers by done.
  done.
Qed.

(** *** The tables the first loop builds *)

Lemma dict_set_fresh (d : ring_dict) k v :
  k ∉ d.*1 -> dict_set d k v = (d ++ [(k, v)])%list.
Proof.
  induction d as [|[k' v'] d IH]; [done|].
  rewrite fmap_cons, not_elem_of_cons. intros [Hne Hk].
  cbn [dict_set]. rewrite bool_decide_eq_false_2 by (simpl in Hne; congruence).
  by rewrite IH.
Qed.

Lemma ring_table cells : forall d : ring_dict,
  NoDup (d.*1 ++ cells) ->
  foldl (fun d p => dict_set d p (pins p)) d cells
  = (d ++ ((fun p => (p, pins p)) <$> cells))%list.
Proof.
  induction cells as [|p cells IH]; intros d H.
  - by rewrite app_nil_r.
  - cbn [foldl]. apply NoDup_app in H as H'. destruct H' as (Hd & Hdis & Hc).
    rewrite dict_set_fresh.
    + rewrite IH.
      * by rewrite fmap_cons, <- app_assoc.
      * rewrite fmap_app. cbn. rewrite <- app_assoc. exact H.
    + intros Hin. apply (Hdis _ Hin). left.
Qed.

Lemma coupling_table (qs : list site) : forall S : gset site,
  foldl (fun S q => S ∪ {[q]}) S qs = S ∪ list_to_set qs.
Proof.
  induction qs as [|q qs IH]; intros S; cbn [foldl].
  - by rewrite list_to_set_nil, (right_id_L ∅ (∪)).
  - by rewrite IH, list_to_set_cons, (assoc_L (∪)).
Qed.

Lemma elem_sorted_pairs rows cols p q :
  (p, q) ∈ sorted_pairs rows cols <->
  in_grid rows cols p = true /\
  q ∈ hex_neighbors rows cols p.1 p.2 /\ cell_lt p q.
Proof.
  rewrite sorted_pairs_sites. unfold sorted_sites.
  rewrite merge_sort_Permutation. apply elem_coupler_pairs.
Qed.

End VerifyGenerated.

(** ** The checks of [verify_network] on the tables of a generated netlist *)

Section Checks.
Import Verify Netlist.

Local Open Scope string_scope.

Lemma length_bind_const {A B} (f : A -> list B) k l :
  (forall x, List.length (f x) = k) ->
  List.length (l ≫= f) = (List.length l * k)%nat.
Proof.
  intros Hf. induction l as [|x l IH]; [done|].
  cbn. rewrite length_app, Hf, IH. lia.
Qed.

Lemma length_range n : List.length (range n) = Z.to_nat n.
Proof. unfold range. by rewrite length_map, length_seq. Qed.

Lemma length_all_cells rows cols :
  (0 <= rows)%Z -> (0 <= cols)%Z ->
  Z.of_nat (List.length (all_cells rows cols)) = (rows * cols)%Z.
Proof.
  intros Hr Hc. unfold all_cells.
  rewrite (length_bind_const _ (Z.to_nat cols)).
  - rewrite length_range. lia.
  - intros r. rewrite (length_bind_const _ 1%nat) by done.
    rewrite length_range. lia.
Qed.

Lemma check_pins_ok p :
  check_pins p (pins p) (Z.of_nat <$> seq 1 7) = Ok None.
Proof.
  change (Z.of_nat <$> seq 1 7) with [1; 2; 3; 4; 5; 6; 7]%Z.
  unfold pins. cbn [check_pins]. set (f := node_name p.1 p.2).
  simpl. by rewrite !String.eqb_refl.
Qed.

Lemma check_nodes_ok cells :
  check_nodes ((fun p => (p, pins p)) <$> cells) = Ok None.
Proof.
  induction cells as [|p cells IH]; [done|].
  rewrite fmap_cons. cbn [check_nodes]. by rewrite check_pins_ok.
Qed.

(** [want != have] holds exactly when a wanted neighbour has no coupling
    from the cell. *)
Lemma want_have (S : gset site) rows cols p :
  want rows cols p = have S p (want rows cols p) <->
  forall q, q ∈ expected_neighbors rows cols p.1 p.2 -> (p, q) ∈ S.
Proof.
  unfold have, want. split.
  - intros Heq q Hq.
    assert (q ∈ filter (fun q => (p, q) ∈ S)
                 (list_to_set (C := gset cell)
                    (expected_neighbors rows cols p.1 p.2))) as Hin
      by (rewrite <- Heq; by apply elem_of_list_to_set).
    by apply elem_of_filter in Hin as [? _].
  - intros H. apply set_eq. intros q.
    rewrite elem_of_filter, elem_of_list_to_set.
    split; [intros Hq; split; [by apply H|done]|by intros [_ ?]].
Qed.

Lemma check_neighbors_wrong (S : gset site) rows cols p q rest :
  q ∈ expected_neighbors rows cols p.1 p.2 -> (p, q) ∉ S ->
  check_neighbors rows cols S (p :: rest) = Some p.
Proof.
  intros Hq Hn. cbn [check_neighbors].
  rewrite bool_decide_eq_true_2; [done|].
  rewrite want_have. intros H. by apply Hn, H.
Qed.

Lemma check_neighbors_right (S : gset site) rows cols p rest :
  (forall q, q ∈ expected_neighbors rows cols p.1 p.2 -> (p, q) ∈ S) ->
  check_neighbors rows cols S (p :: rest) = check_neighbors rows cols S rest.
Proof.
  intros H. cbn [check_neighbors].
  rewrite bool_decide_eq_false_2; [done|].
  intros Hne. by apply Hne, want_have.
Qed.

(** The set [couplings] read from a generated netlist. *)
Definition couplings (rows cols : Z) : gset site :=
  list_to_set (sorted_pairs rows cols).

Lemma elem_couplings rows cols p q :
  (p, q) ∈ couplings rows cols <->
  in_grid rows cols p = true /\
  q ∈ hex_neighbors rows cols p.1 p.2 /\ cell_lt p q.
Proof.
  unfold couplings. rewrite elem_of_list_to_set. apply elem_sorted_pairs.
Qed.

Lemma range_head n : (0 < n)%Z -> exists t, range n = 0%Z :: t.
Proof.
  intros Hn. unfold range.
  destruct (Z.to_nat n) as [|k] eqn:E; [lia|]. cbn. eauto.
Qed.

Lemma range_head2 n : (1 < n)%Z -> exists t, range n = 0%Z :: 1%Z :: t.
Proof.
  intros Hn. unfold range.
  destruct (Z.to_nat n) as [|[|k]] eqn:E; [lia..|]. cbn. eauto.
Qed.

Lemma all_cells_wide rows cols :
  (0 < rows)%Z -> (1 < cols)%Z ->
  exists t, all_cells rows cols = (0, 0)%Z :: (0, 1)%Z :: t.
Proof.
  intros [tr Hr]%range_head [tc Hc]%range_head2.
  unfold all_cells. rewrite Hr, Hc. cbn. eauto.
Qed.

Lemma all_cells_column rows :
  (1 < rows)%Z -> exists t, all_cells rows 1 = (0, 0)%Z :: (1, 0)%Z :: t.
Proof.
  intros [tr Hr]%range_head2.
  unfold all_cells. rewrite Hr. cbn. eauto.
Qed.

Lemma all_cells_empty rows cols :
  (0 <= rows)%Z -> (0 <= cols)%Z -> (rows * cols = 0)%Z ->
  all_cells rows cols = [].
Proof.
  intros Hr Hc H0. apply length_zero_iff_nil.
  pose proof (length_all_cells rows cols Hr Hc). lia.
Qed.

Lemma elem_expected rows cols p q :
  q ∈ expected_neighbors rows cols p.1 p.2 <->
  in_grid rows cols q = true /\
  In q (if (p.1 mod 2 =? 0)%Z
        then [ (p.1, p.2 - 1); (p.1, p.2 + 1); (p.1 - 1, p.2);
               (p.1 - 1, p.2 + 1); (p.1 + 1, p.2); (p.1 + 1, p.2 + 1) ]
        else [ (p.1, p.2 - 1); (p.1, p.2 + 1); (p.1 - 1, p.2 - 1);
               (p.1 - 1, p.2); (p.1 + 1, p.2 - 1); (p.1 + 1, p.2) ])%Z.
Proof. rewrite list_elem_of_In. apply elem_expected_neighbors. Qed.

Ltac only_candidate Hg Hin :=
  vm_compute in Hin;
  repeat match type of Hin with
         | _ \/ _ => destruct Hin as [Hin|Hin]
         end;
  try done; injection Hin as <- <-; (reflexivity || lia).

(** The first cell whose wanted neighbours the couplings of a generated
    netlist do not cover. *)
Definition first_wrong (rows cols : Z) : cell :=
  if (cols =? 1)%Z then (1, 0)%Z
  else if (rows =? 1)%Z then (0, 1)%Z
  else (0, 0)%Z.

Lemma check_neighbors_generated rows cols :
  (0 <= rows)%Z -> (0 <= cols)%Z -> (1 < rows * cols)%Z ->
  check_neighbors rows cols (couplings rows cols) (all_cells rows cols)
  = Some (first_wrong rows cols).
Proof.
  intros Hr Hc Hn. unfold first_wrong.
  destruct (Z.eqb_spec cols 1) as [->|Hc1]; [|destruct (Z.eqb_spec rows 1) as [->|Hr1]].
  - (* one column: (0,0) is served by (0,0,1,0); (1,0) wants (0,0) *)
    destruct (all_cells_column rows) as [t ->]; [lia|].
    rewrite check_neighbors_right.
    + apply (check_neighbors_wrong _ _ _ _ (0, 0)%Z).
      * apply elem_expected. split; [apply in_grid_spec; lia|].
        vm_compute. tauto.
      * rewrite elem_couplings. unfold cell_lt. cbn. lia.
    + intros [rr cc] [Hg Hin]%elem_expected.
      apply in_grid_spec in Hg.
      assert ((rr, cc) = (1, 0)%Z) as -> by only_candidate Hg Hin.
      apply elem_couplings. split; [apply in_grid_spec; lia|]. split.
      * apply hex_neighbors_elem. split; [apply in_grid_spec; cbn; lia|].
        unfold hex_offset. cbn. lia.
      * unfold cell_lt. cbn. lia.
  - (* one row: (0,0) is served by (0,0,0,1); (0,1) wants (0,0) *)
    destruct (all_cells_wide 1 cols) as [t ->]; [lia..|].
    rewrite check_neighbors_right.
    + apply (check_neighbors_wrong _ _ _ _ (0, 0)%Z).
      * apply elem_expected. split; [apply in_grid_spec; lia|].
        vm_compute. tauto.
      * rewrite elem_couplings. unfold cell_lt. cbn. lia.
    + intros [rr cc] [Hg Hin]%elem_expected.
      apply in_grid_spec in Hg.
      assert ((rr, cc) = (0, 1)%Z) as -> by only_candidate Hg Hin.
      apply elem_couplings. split; [apply in_grid_spec; lia|]. split.
      * apply hex_neighbors_elem. split; [apply in_grid_spec; cbn; lia|].
        unfold hex_offset. cbn. lia.
      * unfold cell_lt. cbn. lia.
  - (* (0,0) wants (1,1), which the writer's rule does not join to it *)
    destruct (all_cells_wide rows cols) as [t ->]; [nia..|].
    apply (check_neighbors_wrong _ _ _ _ (1, 1)%Z).
    + apply elem_expected. split; [apply in_grid_spec; nia|].
      vm_compute. tauto.
    + rewrite elem_couplings, hex_neighbors_elem.
      intros (_ & [_ Ho] & _). vm_compute in Ho. lia.
Qed.

End Checks.

(** ** The verdict of [verify_network] on a generated netlist *)

Section Verdict.
Import Verify Netlist.

Local Open Scope string_scope.

(** *** The last loop *)

Lemma check_coupler_skip line rest :
  parse_coupler_instance line = Ok None ->
  check_coupler_nodes (line :: rest) = check_coupler_nodes rest.
Proof. intros H. cbn [check_coupler_nodes]. by rewrite H. Qed.

Lemma check_coupler_rings cells rest :
  check_coupler_nodes ((ring_line <$> cells) ++ rest)%list
  = check_coupler_nodes rest.
Proof.
  induction cells as [|p cells IH]; [done|].
  rewrite fmap_cons. cbn [app].
  by rewrite check_coupler_skip by apply ring_line_no_coupler.
Qed.

Lemma check_coupler_couplers qs rest :
  Forall good_site qs ->
  check_coupler_nodes ((coupler_line <$> qs) ++ rest)%list
  = check_coupler_nodes rest.
Proof.
  induction 1 as [|q qs [[[? ?] [? ?]] [[? ?] [? ?]]] Hqs IH]; [done|].
  rewrite fmap_cons. cbn [app check_coupler_nodes].
  rewrite coupler_line_parsed by done.
  by rewrite !String.eqb_refl.
Qed.

Lemma check_coupler_loaded rows cols :
  Forall good_site (sorted_pairs rows cols) ->
  check_coupler_nodes (loaded rows cols) = Ok None.
Proof.
  intros Hq. unfold loaded.
  change (check_coupler_nodes (includes ++ ?l)%list)
    with (check_coupler_nodes l).
  cbn [app]. rewrite check_coupler_skip by apply header_no_coupler.
  rewrite check_coupler_rings, check_coupler_couplers by done.
  done.
Qed.

(** *** Numerals within the limit of digits *)

Lemma length_string_of_uint d :
  String.length (NilEmpty.string_of_uint d) = Unsigned.usize d.
Proof. induction d; simpl; congruence. Qed.

Lemma nzhead_not_zero d : nzhead d <> D0 d.
Proof.
  intros H. pose proof (DecimalFacts.nb_digits_nzhead d) as Hle.
  rewrite H in Hle. simpl in Hle. lia.
Qed.

Lemma of_uint_lower d :
  nzhead d = d -> d <> Nil ->
  (10 ^ (Unsigned.usize d - 1) <= Nat.of_uint d)%nat.
Proof.
  intros Hn Hd. unfold Nat.of_uint.
  destruct d; [done|cbn [nzhead] in Hn; by apply nzhead_not_zero in Hn|..];
    cbn [Nat.of_uint_acc]; rewrite Unsigned.of_uint_acc_spec;
    cbn [Unsigned.usize]; rewrite Nat.sub_succ, Nat.sub_0_r;
    rewrite Nat.tail_mul_spec, Nat.mul_0_r;
    generalize (10 ^ Unsigned.usize d)%nat; intros X; lia.
Qed.

Lemma to_uint_normal n :
  Nat.to_uint n = D0 Nil \/
  (nzhead (Nat.to_uint n) = Nat.to_uint n /\ Nat.to_uint n <> Nil).
Proof.
  pose proof (Unsigned.to_of (Nat.to_uint n)) as H.
  rewrite Unsigned.of_to in H. unfold unorm in H.
  destruct (nzhead (Nat.to_uint n)) eqn:E; [by left|..];
    right; (split; [by rewrite <- H|]); rewrite H; discriminate.
Qed.

Lemma length_str_bound n k :
  (0 < k)%nat -> (n < 10 ^ k)%nat -> (String.length (str n) <= k)%nat.
Proof.
  intros Hk Hn. unfold str. rewrite length_string_of_uint.
  destruct (to_uint_normal n) as [->|[Hz Hnil]]; [simpl; lia|].
  pose proof (of_uint_lower _ Hz Hnil) as Hlow.
  rewrite Unsigned.of_to in Hlow.
  assert (10 ^ (Unsigned.usize (Nat.to_uint n) - 1) < 10 ^ k)%nat as Hlt
    by lia.
  apply Nat.pow_lt_mono_r_iff in Hlt; lia.
Qed.

Lemma printable_below (k : nat) (z : Z) :
  (0 < k)%nat -> (0 <= z < 10 ^ Z.of_nat k)%Z ->
  (String.length (fmt z) <= k)%nat.
Proof.
  intros Hk [H0 Hz]. rewrite fmt_nonneg by done.
  apply length_str_bound; [done|].
  apply Nat2Z.inj_lt. rewrite Z2Nat.id by done.
  by rewrite Nat2Z.inj_pow.
Qed.

(** The greatest number of rows and columns whose coordinates print within
    the limit of digits. *)
Definition max_side : Z := 10 ^ 4300.

Lemma printable_coordinate n z :
  (n <= max_side)%Z -> (0 <= z < n)%Z -> printable z.
Proof.
  intros Hn Hz. split; [lia|].
  apply printable_below; [unfold max_str_digits; lia|].
  change (Z.of_nat max_str_digits) with 4300%Z. unfold max_side in Hn. lia.
Qed.

Lemma good_cells rows cols :
  (rows <= max_side)%Z -> (cols <= max_side)%Z ->
  forall p, in_grid rows cols p = true -> good_cell p.
Proof.
  intros Hr Hc [r c] [? ?]%in_grid_spec.
  split; [by apply (printable_coordinate rows)|
          by apply (printable_coordinate cols)].
Qed.

Lemma good_all_cells rows cols :
  (rows <= max_side)%Z -> (cols <= max_side)%Z ->
  Forall good_cell (all_cells rows cols).
Proof.
  intros Hr Hc. apply Forall_forall. intros p Hp%elem_all_cells.
  by apply (good_cells rows cols).
Qed.

Lemma good_sorted_pairs rows cols :
  (rows <= max_side)%Z -> (cols <= max_side)%Z ->
  Forall good_site (sorted_pairs rows cols).
Proof.
  intros Hr Hc. apply Forall_forall.
  intros [p q] (Hp & [Hq _]%hex_neighbors_elem & _)%elem_sorted_pairs.
  split; by apply (good_cells rows cols).
Qed.

(** *** Grids of at most one cell *)

Lemma sorted_pairs_small rows cols :
  (rows * cols <= 1)%Z -> sorted_pairs rows cols = [].
Proof.
  intros Hn. destruct (sorted_pairs rows cols) as [|[p q] l] eqn:E; [done|].
  assert ((p, q) ∈ sorted_pairs rows cols) as Hin by (rewrite E; left).
  apply elem_sorted_pairs in Hin as (Hp & [Hq _]%hex_neighbors_elem & Hlt).
  destruct p as [r c], q as [rr cc].
  apply in_grid_spec in Hp. apply in_grid_spec in Hq.
  unfold cell_lt in Hlt. simpl in Hlt. nia.
Qed.

Lemma check_neighbors_small (rows cols : Z) (S : gset site) :
  (0 <= rows)%Z -> (0 <= cols)%Z -> (rows * cols <= 1)%Z ->
  check_neighbors rows cols S (all_cells rows cols) = None.
Proof.
  intros Hr Hc Hn.
  destruct (Z.eq_dec (rows * cols) 0) as [H0|H0].
  - by rewrite all_cells_empty.
  - assert (rows <> 0 /\ cols <> 0)%Z as [? ?] by (split; intros ->; lia).
    assert (0 <= (rows - 1) * (cols - 1))%Z
      by (apply Z.mul_nonneg_nonneg; lia).
    assert (rows = 1 /\ cols = 1)%Z as [-> ->] by lia.
    change (all_cells 1 1) with [(0, 0)%Z].
    rewrite check_neighbors_right; [done|].
    intros q Hq. vm_compute in Hq. by apply elem_of_nil in Hq.
Qed.

End Verdict.

(** [verify_network] on the netlist that [generate_hex_network]
    writes for a grid of [rows] by [cols] cells (both non-negative and at
    most [10 ^ 4300], so that every coordinate prints within the limit of
    digits): the file is read back line by line, every instance parses,
    the count and the node names of the ring oscillators pass; the
    verification passes exactly for grids of at most one cell.  For every
    larger grid it stops with "Wrong neighbors" at the first cell that
    wants a coupling the netlist does not list from that cell: (0,0) when
    there are at least two rows and two columns, (0,1) in a single row
    and (1,0) in a single column. *)
Theorem verify_generated_netlist
    (site_order : gset Synth.site -> list Synth.site) (rows cols : Z) :
  (forall X, site_order X ≡ₚ elements X) ->
  0 <= rows <= 10 ^ 4300 -> 0 <= cols <= 10 ^ 4300 ->
  Verify.verify_network site_order
    (Netlist.generate_hex_network rows cols "RING_OSC_NETWORK") rows cols
  = Ok (if rows * cols <=? 1 then Verify.Passed
        else Verify.WrongNeighbors
               (if cols =? 1 then (1, 0)
                else if rows =? 1 then (0, 1) else (0, 0))).
Proof.
  intros Hord [Hr0 Hr] [Hc0 Hc].
  unfold Verify.verify_network. fold name. rewrite load_generated.
  unfold Verify.verify_lines.
  rewrite parse_lines_loaded
    by (by apply good_all_cells || by apply good_sorted_pairs).
  rewrite (ring_table _ []) by apply all_cells_nodup.
  rewrite coupling_table, (left_id_L ∅ (∪)). cbn [app].
  rewrite length_fmap, length_all_cells, Z.eqb_refl by done.
  cbn [negb]. rewrite check_nodes_ok.
  fold (couplings rows cols).
  destruct (Z.leb_spec (rows * cols) 1) as [Hn|Hn].
  - rewrite check_neighbors_small by done.
    unfold couplings. rewrite sorted_pairs_small by done.
    rewrite list_to_set_nil.
    assert (site_order ∅ = []) as ->.
    { apply Permutation_nil_r. rewrite Hord. by rewrite elements_empty. }
    cbn [Verify.check_symmetric].
    rewrite check_coupler_loaded; [done|].
    by rewrite sorted_pairs_small.
  - rewrite check_neighbors_generated by done. done.
Qed.

Lemma verify_generated_netlist_witness :
  Verify.verify_network elements
    (Netlist.generate_hex_network 2 2 "RING_OSC_NETWORK") 2 2
  = Ok (Verify.WrongNeighbors (0, 0)).
Proof.
  apply (verify_generated_netlist elements 2 2); [reflexivity|split..].
  - lia.
  - vm_compute. discriminate.
  - lia.
  - vm_compute. discriminate.
Defined.
